(** * Audio pipeline of the meeting assistant: a shallow embedding

    The development follows [utils/audioUtils.ts] (binary transport codec,
    capture encoder, playback decoder, chunker, WAV container encoder),
    [components/LiveSession.tsx] (playback scheduler) and
    [components/AudioTranscriber.tsx] (retrying sequential dispatcher).

    Conventions.
    - A [Uint8Array] / [ArrayBuffer] is a [list byte].
    - A JavaScript string is a [string]; the only strings the codec builds
      are binary strings (every code unit below 256) and base64 text.
    - An audio sample is a [JS.num]: a rational, an infinity or NaN.
      Samples are float32 values and every product or quotient the code
      forms with them ([s * 32768], [s * 32767], [v / 32768]) is exact in
      binary64, so the rational model computes the very integers the
      program stores.  Clock times are rationals as well.  The frame count
      the chunker asks of the host is a truncated binary64 product, where
      rounding shows: there the two roundings are written out
      ([JS.round64]).
    - Typed arrays are read and written in little-endian byte order.
    - [None] stands for a raised exception, or for a loop that ran out of
      the fuel the model gives it; each use says which. *)

From Stdlib Require Import ZArith NArith QArith Qround Qminmax Lia Lqa Bool.
From Stdlib Require Import Ascii String.
From Stdlib.Strings Require Import Byte.
From stdpp Require Import base list gmap.
From stdpp Require Import strings.

Local Open Scope Z_scope.

(** ** The host's base64 primitives

    [btoa] and [atob] are platform functions.  They are modelled after their
    standard definition: RFC 4648 base64 with padding for [btoa], and the
    forgiving decoder (white space removed, optional padding, failure on a
    foreign character or on a dangling single symbol) for [atob]. *)
Module Base64.

Definition alphabet : list ascii :=
  list_ascii_of_string
    "ABCDEFGHIJKLMNOPQRSTUVWXYZabcdefghijklmnopqrstuvwxyz0123456789+/".

Definition pad : ascii := "="%char.

(** The symbol of a 6-bit value. *)
Definition sextet_char (n : N) : ascii :=
  nth (N.to_nat n) alphabet pad.

(** The 6-bit value of a symbol; [None] outside the alphabet. *)
Definition char_sextet (c : ascii) : option N :=
  let n := N_of_ascii c in
  if (65 <=? n)%N && (n <=? 90)%N then Some (n - 65)%N
  else if (97 <=? n)%N && (n <=? 122)%N then Some (n - 71)%N
  else if (48 <=? n)%N && (n <=? 57)%N then Some (n + 4)%N
  else if (n =? 43)%N then Some 62%N
  else if (n =? 47)%N then Some 63%N
  else None.

(** 6-bit groups of a byte string: three bytes give four groups, a tail of
    one byte gives two and a tail of two bytes gives three. *)
Fixpoint sextets (l : list ascii) : list N :=
  match l with
  | [] => []
  | [a] =>
      let x := N_of_ascii a in
      [x / 4; (x mod 4) * 16]%N
  | [a; b] =>
      let x := N_of_ascii a in
      let y := N_of_ascii b in
      [x / 4; (x mod 4) * 16 + y / 16; (y mod 16) * 4]%N
  | a :: b :: c :: rest =>
      let x := N_of_ascii a in
      let y := N_of_ascii b in
      let z := N_of_ascii c in
      ((x / 4) :: ((x mod 4) * 16 + y / 16) ::
       ((y mod 16) * 4 + z / 64) :: (z mod 64) :: sextets rest)%N
  end.

Definition padding (len : nat) : list ascii :=
  match (len mod 3)%nat with
  | 1%nat => [pad; pad]
  | 2%nat => [pad]
  | _ => []
  end.

Definition btoa (binary : string) : string :=
  let l := list_ascii_of_string binary in
  string_of_list_ascii (map sextet_char (sextets l) ++ padding (length l)).

Definition is_ascii_whitespace (c : ascii) : bool :=
  let n := N_of_ascii c in
  (n =? 9)%N || (n =? 10)%N || (n =? 12)%N || (n =? 13)%N || (n =? 32)%N.

Definition strip_whitespace (l : list ascii) : list ascii :=
  filter (fun c => is_ascii_whitespace c = false) l.

(** One or two trailing [=] are dropped, when the length is a multiple of
    four. *)
Definition strip_padding (l : list ascii) : list ascii :=
  if (length l mod 4 =? 0)%nat then
    match rev l with
    | p1 :: p2 :: r =>
        if Ascii.eqb p1 pad then
          if Ascii.eqb p2 pad then rev r else rev (p2 :: r)
        else l
    | _ => l
    end
  else l.

(** Bytes of a sequence of 6-bit groups.  A dangling single group is the
    failure of the length test (length 1 modulo 4); the spare low bits of a
    short tail are discarded. *)
Fixpoint unsextets (l : list N) : option (list ascii) :=
  match l with
  | [] => Some []
  | [_] => None
  | [s0; s1] => Some [ascii_of_N (s0 * 4 + s1 / 16)]
  | [s0; s1; s2] =>
      Some [ascii_of_N (s0 * 4 + s1 / 16);
            ascii_of_N ((s1 mod 16) * 16 + s2 / 4)]
  | s0 :: s1 :: s2 :: s3 :: rest =>
      match unsextets rest with
      | Some bytes =>
          Some (ascii_of_N (s0 * 4 + s1 / 16) ::
                ascii_of_N ((s1 mod 16) * 16 + s2 / 4) ::
                ascii_of_N ((s2 mod 4) * 64 + s3) :: bytes)
      | None => None
      end
  end%N.

Fixpoint symbols (l : list ascii) : option (list N) :=
  match l with
  | [] => Some []
  | c :: rest =>
      match char_sextet c, symbols rest with
      | Some n, Some ns => Some (n :: ns)
      | _, _ => None
      end
  end.

Definition atob (base64 : string) : option string :=
  let l := strip_padding (strip_whitespace (list_ascii_of_string base64)) in
  match symbols l with
  | Some ns =>
      match unsextets ns with
      | Some bytes => Some (string_of_list_ascii bytes)
      | None => None
      end
  | None => None
  end.

End Base64.

(** ** Binary transport codec ([encodeAudio], [decodeAudio]) *)
Module Codec.

(** [String.fromCharCode(bytes[i])] appended for every index, then [btoa]. *)
Definition encodeAudio (bytes : list byte) : string :=
  let binary := string_of_list_ascii (map ascii_of_byte bytes) in
  Base64.btoa binary.

(** [atob], then [bytes[i] = binaryString.charCodeAt(i)].  [None] stands for
    the exception [atob] raises on text that is not base64. *)
Definition decodeAudio (base64 : string) : option (list byte) :=
  match Base64.atob base64 with
  | Some binaryString =>
      Some (map byte_of_ascii (list_ascii_of_string binaryString))
  | None => None
  end.

End Codec.

(** ** Numbers, integer conversions and typed-array bytes *)
Module JS.

(** A JavaScript number as the audio code meets it: a finite value, an
    infinity, or NaN (which is also what arithmetic makes of [undefined],
    the result of reading a typed array out of range). *)
Inductive num : Type :=
  | Fin (q : Q)
  | PInf
  | NInf
  | NaN.

(** [x * k] for a positive constant [k]. *)
Definition scale (x : num) (k : Q) : num :=
  match x with
  | Fin q => Fin (q * k)
  | other => other
  end.

(** [x / k] for a positive constant [k]. *)
Definition divide (x : num) (k : Q) : num :=
  match x with
  | Fin q => Fin (q / k)
  | other => other
  end.

(** [k + x] for a constant [k]. *)
Definition plus (k : Q) (x : num) : num :=
  match x with
  | Fin q => Fin (k + q)
  | other => other
  end.

(** [x < 0]; a comparison with NaN is false. *)
Definition negative (x : num) : bool :=
  match x with
  | Fin q => if Qlt_le_dec q 0 then true else false
  | NInf => true
  | PInf | NaN => false
  end.

(** [Math.min(k, x)] and [Math.max(k, x)] for a finite constant [k]. *)
Definition min (k : Q) (x : num) : num :=
  match x with
  | Fin q => Fin (if Qlt_le_dec q k then q else k)
  | PInf => Fin k
  | NInf => NInf
  | NaN => NaN
  end.

Definition max (k : Q) (x : num) : num :=
  match x with
  | Fin q => Fin (if Qlt_le_dec k q then q else k)
  | PInf => PInf
  | NInf => Fin k
  | NaN => NaN
  end.

(** The integer part of a rational, rounding toward zero. *)
Definition truncate (q : Q) : Z := Z.quot (Qnum q) (Zpos (Qden q)).

(** Reduction of an integer into the signed range of [bits] bits. *)
Definition wrap (bits : Z) (n : Z) : Z :=
  (n + 2 ^ (bits - 1)) mod 2 ^ bits - 2 ^ (bits - 1).

(** [ToInt32] (the [| 0] of the source) and the conversion an [Int16Array]
    slot applies on assignment: NaN and the infinities become 0, a finite
    number is truncated and reduced modulo the width. *)
Definition toInt (bits : Z) (x : num) : Z :=
  match x with
  | Fin q => wrap bits (truncate q)
  | _ => 0
  end.

Definition toInt32 : num -> Z := toInt 32.
Definition toInt16 : num -> Z := toInt 16.

(** The byte holding the low eight bits of an integer. *)
Definition byte_of_Z (n : Z) : byte :=
  match Byte.of_N (Z.to_N (n mod 256)) with
  | Some b => b
  | None => x00
  end.

Definition Z_of_byte (b : byte) : Z := Z.of_N (Byte.to_N b).

(** Little-endian layout of the low 16 and the low 32 bits of an integer. *)
Definition le16 (n : Z) : list byte :=
  [byte_of_Z n; byte_of_Z (Z.shiftr n 8)].

Definition le32 (n : Z) : list byte :=
  [byte_of_Z n; byte_of_Z (Z.shiftr n 8);
   byte_of_Z (Z.shiftr n 16); byte_of_Z (Z.shiftr n 24)].

(** The signed 16-bit integer stored in two little-endian bytes. *)
Definition int16_of_bytes (lo hi : byte) : Z :=
  wrap 16 (Z_of_byte lo + 256 * Z_of_byte hi).

(** [new Uint8Array(int16.buffer)]: the bytes under an [Int16Array]. *)
Definition bytes_of_int16s (l : list Z) : list byte :=
  flat_map le16 l.

(** [new Int16Array(data.buffer)]: a view exists only over an even number
    of bytes; the constructor raises a [RangeError] otherwise. *)
Fixpoint int16s_of_bytes (l : list byte) : option (list Z) :=
  match l with
  | [] => Some []
  | [_] => None
  | lo :: hi :: rest =>
      match int16s_of_bytes rest with
      | Some vs => Some (int16_of_bytes lo hi :: vs)
      | None => None
      end
  end.

(** The integer nearest to [p / r] for [r > 0], ties to the even one. *)
Definition roundHalfEven (p r : Z) : Z :=
  let fl := p / r in
  let rem := p mod r in
  if 2 * rem <? r then fl
  else if r <? 2 * rem then fl + 1
  else if Z.even fl then fl else fl + 1.

(** The binary64 number nearest to a rational, ties to even: the result of
    one arithmetic operation of the language on exact operands.  [l] is
    the binary exponent of [q]; the significand keeps 53 bits, fewer below
    the least normal exponent.  Overflow to an infinity is not modelled:
    the magnitudes met here are far below [2^1024]. *)
Definition round64 (q : Q) : Q :=
  let n := Qnum q in
  let d := Z.pos (Qden q) in
  if n =? 0 then 0%Q
  else
    let a := Z.abs n in
    let l0 := Z.log2 a - Z.log2 d in
    let l := if a * 2 ^ Z.max 0 (- l0) <? d * 2 ^ Z.max 0 l0
             then l0 - 1 else l0 in
    let e := Z.max (l - 52) (-1074) in
    let m := roundHalfEven (a * 2 ^ Z.max 0 (- e)) (d * 2 ^ Z.max 0 e) in
    Qmake (Z.sgn n * m * 2 ^ Z.max 0 e) (Z.to_pos (2 ^ Z.max 0 (- e))).

(** The conversion of a number to an [unsigned long] argument of a host
    interface: truncated, then reduced modulo [2^32]. *)
Definition toUnsignedLong (q : Q) : Z := truncate q mod 2 ^ 32.

End JS.

(** ** The host's audio buffer *)
Module WebAudio.

(** An [AudioBuffer]: a sample rate in hertz, a frame count and one sample
    sequence per channel. *)
Record AudioBuffer : Type :=
  { sampleRate : Z; length : nat; channelData : list (list JS.num) }.

Definition numberOfChannels (b : AudioBuffer) : nat :=
  List.length (channelData b).

(** [buffer.duration], in seconds. *)
Definition duration (b : AudioBuffer) : Q :=
  inject_Z (Z.of_nat (length b)) / inject_Z (sampleRate b).

(** [buffer.duration] as the binary64 number the host reports: the
    quotient, rounded once. *)
Definition duration64 (b : AudioBuffer) : Q := JS.round64 (duration b).

(** [buffer.getChannelData(i)].  The code only asks for channels that
    exist; the host raises on any other index. *)
Definition getChannelData (b : AudioBuffer) (i : nat) : list JS.num :=
  match channelData b !! i with
  | Some ch => ch
  | None => []
  end.

End WebAudio.

(** ** Live audio: capture encoder and playback decoder *)
Module Pcm.

Import WebAudio.

(** The [Blob] of the streaming SDK: base64 payload and media type. *)
Record Blob : Type := { data : string; mimeType : string }.

(** [int16[i] = data[i] * 32768] for every index of the frame. *)
Definition quantize (s : JS.num) : Z := JS.toInt16 (JS.scale s 32768).

Definition createPcmBlob (data : list JS.num) : Blob :=
  let int16 := map quantize data in
  {| data := Codec.encodeAudio (JS.bytes_of_int16s int16);
     mimeType := "audio/pcm;rate=16000" |}.

(** [dataInt16[idx] / 32768.0]; an index past the end reads [undefined],
    whose quotient is NaN. *)
Definition sampleAt (dataInt16 : list Z) (idx : nat) : JS.num :=
  match dataInt16 !! idx with
  | Some v => JS.divide (JS.Fin (inject_Z v)) 32768
  | None => JS.NaN
  end.

(** The inner loop over [i < frameCount].  [frameCount] may be fractional,
    so the loop makes [iterations] = ceiling of it passes; a store past the
    end of the channel is ignored, as typed arrays do. *)
Definition fillChannel (dataInt16 : list Z) (numChannels channel : nat)
    (iterations : nat) (channelData : list JS.num) : list JS.num :=
  foldl (fun cd i => <[i := sampleAt dataInt16 (i * numChannels + channel)]> cd)
        channelData (seq 0 iterations).

(** [createBuffer] rejects a channel count of zero and a length that
    truncates to zero frames; its implementation-defined upper limits are
    not modelled.  [None] is an exception. *)
Definition decodeAudioData (data : list byte) (sampleRate : Z)
    (numChannels : nat) : option AudioBuffer :=
  match JS.int16s_of_bytes data with
  | None => None
  | Some dataInt16 =>
      let n := List.length dataInt16 in
      let frames := (n / numChannels)%nat in
      let iterations :=
        (if (n mod numChannels =? 0)%nat then frames else S frames) in
      if (numChannels =? 0)%nat || (frames =? 0)%nat then None
      else
        Some {| sampleRate := sampleRate;
                length := frames;
                channelData :=
                  map (fun channel =>
                         fillChannel dataInt16 numChannels channel iterations
                           (replicate frames (JS.Fin 0)))
                      (seq 0 numChannels) |}
  end.

End Pcm.

(** ** WAV container encoder ([audioBufferToWav]) *)
Module Wav.

Import WebAudio.

(** The [DataView] over the output buffer with the two cursors of the
    source: [pos] and [offset]. *)
Record Writer : Type := { view : list byte; pos : nat; offset : nat }.

(** A [DataView] store of [bytes] at byte index [i]; [None] is the
    [RangeError] of a store that does not fit. *)
Definition setBytes (i : nat) (bytes view : list byte) : option (list byte) :=
  if (i + List.length bytes <=? List.length view)%nat
  then Some (take i view ++ bytes ++ drop (i + List.length bytes) view)
  else None.

Definition setUint16 (data : Z) (w : Writer) : option Writer :=
  v ← setBytes (pos w) (JS.le16 data) (view w);
  Some {| view := v; pos := pos w + 2; offset := offset w |}.

Definition setUint32 (data : Z) (w : Writer) : option Writer :=
  v ← setBytes (pos w) (JS.le32 data) (view w);
  Some {| view := v; pos := pos w + 4; offset := offset w |}.

(** The thirteen header stores, in source order. *)
Definition writeHeader (numOfChan : nat) (sampleRate : Z) (length : nat)
    (w : Writer) : option Writer :=
  w ← setUint32 0x46464952 w;
  w ← setUint32 (Z.of_nat length - 8) w;
  w ← setUint32 0x45564157 w;
  w ← setUint32 0x20746d66 w;
  w ← setUint32 16 w;
  w ← setUint16 1 w;
  w ← setUint16 (Z.of_nat numOfChan) w;
  w ← setUint32 sampleRate w;
  w ← setUint32 (sampleRate * 2 * Z.of_nat numOfChan) w;
  w ← setUint16 (Z.of_nat numOfChan * 2) w;
  w ← setUint16 16 w;
  w ← setUint32 0x61746164 w;
  setUint32 (Z.of_nat length - Z.of_nat (pos w) - 4) w.

(** [channels[i][pos]]; a missing element is [undefined], NaN once it meets
    [Math.min]. *)
Definition read (channels : list (list JS.num)) (i p : nat) : JS.num :=
  match channels !! i with
  | Some ch => match ch !! p with Some x => x | None => JS.NaN end
  | None => JS.NaN
  end.

(** The two statements of the inner loop body that compute the integer:
    [sample = Math.max(-1, Math.min(1, x))], then
    [sample = (0.5 + sample < 0 ? sample * 32768 : sample * 32767) | 0].
    The comparison is [(0.5 + sample) < 0]: addition binds tighter. *)
Definition quantize (x : JS.num) : Z :=
  let sample := JS.max (-1) (JS.min 1 x) in
  JS.toInt32
    (if JS.negative (JS.plus (1 # 2) sample)
     then JS.scale sample 32768
     else JS.scale sample 32767).

(** One pass of the inner [for]: quantize [channels[i][pos]], store it at
    [44 + offset], advance [offset] by two. *)
Definition writeSample (channels : list (list JS.num)) (i : nat)
    (w : Writer) : option Writer :=
  let sample := quantize (read channels i (pos w)) in
  v ← setBytes (44 + offset w) (JS.le16 sample) (view w);
  Some {| view := v; pos := pos w; offset := offset w + 2 |}.

Fixpoint writeChannels (channels : list (list JS.num)) (indices : list nat)
    (w : Writer) : option Writer :=
  match indices with
  | [] => Some w
  | i :: rest => w' ← writeSample channels i w; writeChannels channels rest w'
  end.

(** [while (pos < buffer.length) { for ...; pos++ }].  [pos] is the cursor
    the header stores have already moved.  [fuel] bounds the number of
    passes; [None] with fuel exhausted never occurs with [fuel] at least
    [buffer.length]. *)
Fixpoint writeFrames (fuel : nat) (bufferLength numOfChan : nat)
    (channels : list (list JS.num)) (w : Writer) : option Writer :=
  if (pos w <? bufferLength)%nat then
    match fuel with
    | O => None
    | S fuel' =>
        w' ← writeChannels channels (seq 0 numOfChan) w;
        writeFrames fuel' bufferLength numOfChan channels
          {| view := view w'; pos := pos w' + 1; offset := offset w' |}
    end
  else Some w.

(** The bytes of the produced [Blob]. *)
Definition audioBufferToWav (buffer : AudioBuffer) : option (list byte) :=
  let numOfChan := numberOfChannels buffer in
  let length := (WebAudio.length buffer * numOfChan * 2 + 44)%nat in
  let w := {| view := replicate length x00; pos := 0; offset := 0 |} in
  w ← writeHeader numOfChan (sampleRate buffer) length w;
  let channels := map (getChannelData buffer) (seq 0 numOfChan) in
  w ← writeFrames (WebAudio.length buffer) (WebAudio.length buffer)
        numOfChan channels w;
  Some (view w).

(** The bytes one pass of the outer loop stores for the frame at [p]. *)
Definition frameBytes (channels : list (list JS.num)) (numOfChan p : nat)
  : list byte :=
  flat_map (fun i => JS.le16 (quantize (read channels i p))) (seq 0 numOfChan).

(** [Math.max(-1, Math.min(1, s))] on a finite sample. *)
Definition clamp (s : Q) : Q :=
  let m := if Qlt_le_dec s 1 then s else 1%Q in
  if Qlt_le_dec (-1) m then m else (-1)%Q.

(** The quantization rule in the words of the specification, section 4.3:
    clamp the sample to [-1,1]; scale by 32767 if the result is
    non-negative, by 32768 if negative; truncate to an integer. *)
Definition spec_quantize (s : Q) : Z :=
  let clamped := clamp s in
  JS.truncate (if Qlt_le_dec clamped 0 then clamped * 32768
               else clamped * 32767)%Q.

(** The header in the words of the specification, section 4.3. *)
Definition tag (s : string) : list byte :=
  map byte_of_ascii (list_ascii_of_string s).

Definition spec_header (channelCount : nat) (sampleRate : Z)
    (fileLength dataLength : Z) : list byte :=
  tag "RIFF" ++ JS.le32 (fileLength - 8) ++ tag "WAVE" ++
  tag "fmt " ++ JS.le32 16 ++ JS.le16 1 ++
  JS.le16 (Z.of_nat channelCount) ++ JS.le32 sampleRate ++
  JS.le32 (sampleRate * Z.of_nat channelCount * 2) ++
  JS.le16 (Z.of_nat channelCount * 2) ++ JS.le16 16 ++
  tag "data" ++ JS.le32 dataLength.

End Wav.

(** ** Chunker ([compressAudio], [audioDataToWavFile], [splitAudio]) *)
Module Chunker.

Import WebAudio.

Definition TARGET_SAMPLE_RATE : Z := 16000.
Definition TARGET_CHANNELS : nat := 1.

(** A produced part: its 1-based index, the samples it was cut from and
    the bytes of its WAV file. *)
Record Chunk : Type :=
  { partIndex : nat; chunkData : list JS.num; chunkFile : option (list byte) }.

(** [typedArray.slice(startSample, endSample)]. *)
Definition slice (startSample endSample : nat) (pcmData : list JS.num)
  : list JS.num :=
  take (endSample - startSample) (drop startSample pcmData).

(** [audioDataToWavFile]: a one-channel buffer around the samples, encoded.
    The host's [AudioBuffer] constructor raises on a length of zero. *)
Definition audioDataToWavFile (channelData : list JS.num) (sampleRate : Z)
  : option (list byte) :=
  if (List.length channelData =? 0)%nat then None
  else
    Wav.audioBufferToWav
      {| sampleRate := sampleRate;
         length := List.length channelData;
         channelData := [channelData] |}.

(** The frame count handed to [OfflineAudioContext]: the binary64 product
    [audioBuffer.duration * TARGET_SAMPLE_RATE], converted to the
    [unsigned long] the constructor takes. *)
Definition targetFrames (audioBuffer : AudioBuffer) : nat :=
  Z.to_nat
    (JS.toUnsignedLong
       (JS.round64 (duration64 audioBuffer * inject_Z TARGET_SAMPLE_RATE))).

(** [while (startSample < pcmData.length)]: cut, encode, push, advance.
    [fuel] bounds the number of passes; with [samplesPerChunk] zero the
    source loop does not end and the model runs out of fuel. *)
Fixpoint sliceLoop (fuel : nat) (samplesPerChunk : nat)
    (pcmData : list JS.num) (startSample partIndex : nat)
  : option (list Chunk) :=
  if (startSample <? List.length pcmData)%nat then
    match fuel with
    | O => None
    | S fuel' =>
        let endSample :=
          Nat.min (startSample + samplesPerChunk) (List.length pcmData) in
        let chunkData := slice startSample endSample pcmData in
        let chunkFile := audioDataToWavFile chunkData TARGET_SAMPLE_RATE in
        chunks ← sliceLoop fuel' samplesPerChunk pcmData endSample
                   (partIndex + 1);
        Some ({| partIndex := partIndex; chunkData := chunkData;
                 chunkFile := chunkFile |} :: chunks)
    end
  else Some [].

Section Rendering.

(** The host's offline rendering: the source buffer played into a mono
    context of the requested number of frames at the target rate.  The
    rendered channel has exactly the requested number of frames. *)
Variable render : AudioBuffer -> nat -> list JS.num.

(** [new OfflineAudioContext(TARGET_CHANNELS, frames, TARGET_SAMPLE_RATE)]
    and [startRendering].  The constructor raises a [NotSupportedError]
    when the frame count is zero: [None]. *)
Definition rendered (audioBuffer : AudioBuffer) : option AudioBuffer :=
  let frames := targetFrames audioBuffer in
  if (frames =? 0)%nat then None
  else
    Some {| sampleRate := TARGET_SAMPLE_RATE;
            length := frames;
            channelData := [render audioBuffer frames] |}.

(** [compressAudio]: render at 16 kHz mono and encode the whole buffer. *)
Definition compressAudio (audioBuffer : AudioBuffer) : option Chunk :=
  renderedBuffer ← rendered audioBuffer;
  Some {| partIndex := 1;
          chunkData := getChannelData renderedBuffer 0;
          chunkFile := Wav.audioBufferToWav renderedBuffer |}.

(** [splitAudio], with the local constant [CHUNK_DURATION_SEC] as an
    argument. *)
Definition splitAudioWith (CHUNK_DURATION_SEC : Z) (audioBuffer : AudioBuffer)
  : option (list Chunk) :=
  if Qle_bool (duration64 audioBuffer) (inject_Z CHUNK_DURATION_SEC) then
    chunk ← compressAudio audioBuffer;
    Some [chunk]
  else
    resampledBuffer ← rendered audioBuffer;
    let pcmData := getChannelData resampledBuffer 0 in
    let samplesPerChunk := Z.to_nat (CHUNK_DURATION_SEC * TARGET_SAMPLE_RATE) in
    sliceLoop (List.length pcmData) samplesPerChunk pcmData 0 1.

(** [splitAudio]: five-minute parts. *)
Definition splitAudio (audioBuffer : AudioBuffer) : option (list Chunk) :=
  splitAudioWith 300 audioBuffer.

End Rendering.

End Chunker.

(** ** Playback scheduler ([handleServerMessage]) *)
Module Scheduler.

(** The two refs of the session that carry playback state: the cursor
    [nextStartTimeRef] and the set [sourcesRef] of scheduled source nodes.
    A source node is known by the order of its creation; [created] counts
    the nodes made so far.  Times are seconds of the output clock. *)
Record State : Type :=
  { nextStartTime : Q; sources : gset nat; created : nat }.

(** What the handler asks of the audio engine. *)
Inductive Effect : Type :=
  | Stop (source : nat)
  | Start (source : nat) (when : Q).

(** The fields of a server message the handler reads. *)
Record Message : Type :=
  { interrupted : bool; base64Audio : option string }.

(** [if (interrupted) { sources.forEach(stop); sources.clear();
    nextStartTime = 0 }]. *)
Definition handleInterruption (st : State) : State * list Effect :=
  ({| nextStartTime := 0; sources := ∅; created := created st |},
   map Stop (elements (sources st))).

(** [if (nextStartTime < currentTime) nextStartTime = currentTime]. *)
Definition catchUp (nextStartTime currentTime : Q) : Q :=
  if Qlt_le_dec nextStartTime currentTime then currentTime else nextStartTime.

(** The audio branch: move the cursor up to the clock, decode (24 kHz,
    one channel), start a new source at the cursor, register it, advance
    the cursor by the duration of the buffer.  A failure to decode is
    caught by the handler: nothing is scheduled. *)
Definition handleAudio (currentTime : Q) (base64Audio : string) (st : State)
  : State * list Effect :=
  let next := catchUp (nextStartTime st) currentTime in
  match Codec.decodeAudio base64Audio
        ≫= (fun audioBytes => Pcm.decodeAudioData audioBytes 24000 1) with
  | Some audioBuffer =>
      let source := created st in
      ({| nextStartTime := next + WebAudio.duration audioBuffer;
          sources := {[source]} ∪ sources st;
          created := S source |},
       [Start source next])
  | None =>
      ({| nextStartTime := next; sources := sources st;
          created := created st |}, [])
  end.

(** [handleServerMessage].  [outputCtx] is the output context, present
    while the session runs, seen through its [currentTime]. *)
Definition handleServerMessage (outputCtx : option Q) (message : Message)
    (st : State) : State * list Effect :=
  match outputCtx with
  | None => (st, [])
  | Some currentTime =>
      let '(st, stops) :=
        if interrupted message then handleInterruption st else (st, []) in
      match base64Audio message with
      | Some (String c s) =>
          let '(st, starts) := handleAudio currentTime (String c s) st in
          (st, stops ++ starts)
      | Some EmptyString | None => (st, stops)
      end
  end.

(** [source.onended]: the finished node leaves the set. *)
Definition onended (source : nat) (st : State) : State :=
  {| nextStartTime := nextStartTime st;
     sources := sources st ∖ {[source]};
     created := created st |}.

(** Messages handled one after the other, each at its clock reading. *)
Fixpoint run (arrivals : list (Q * Message)) (st : State)
  : State * list Effect :=
  match arrivals with
  | [] => (st, [])
  | (currentTime, message) :: rest =>
      let '(st1, effects1) := handleServerMessage (Some currentTime) message st in
      let '(st2, effects2) := run rest st1 in
      (st2, effects1 ++ effects2)
  end.

(** The buffer a message carries for playback, when it carries one that
    decodes. *)
Definition decoded (message : Message) : option WebAudio.AudioBuffer :=
  match base64Audio message with
  | Some (String c s) =>
      Codec.decodeAudio (String c s)
      ≫= (fun audioBytes => Pcm.decodeAudioData audioBytes 24000 1)
  | Some EmptyString | None => None
  end.

(** The start times the engine was given, in order. *)
Definition startTimes (effects : list Effect) : list Q :=
  omap (fun e => match e with Start _ t => Some t | Stop _ => None end)
       effects.

(** The schedule in the words of the specification, section 4.6: for each
    item, [startAt = max(nextStartTime, now)], then
    [nextStartTime = startAt + duration].  An item is the clock reading at
    its arrival and its duration. *)
Fixpoint spec_schedule (nextStartTime : Q) (items : list (Q * Q)) : list Q :=
  match items with
  | [] => []
  | (now, duration) :: rest =>
      let startAt := Qmax nextStartTime now in
      startAt :: spec_schedule (startAt + duration) rest
  end.

End Scheduler.

(** ** Retrying sequential dispatcher ([transcribeSingleFile],
    [handleTranscriptionFlow]) *)
Module Dispatcher.

Local Open Scope string_scope.

Definition CHUNK_DELAY_MS : Z := 5000.
Definition RETRY_DELAY_MS : Z := 5000.

(** A thrown value; [message] may be missing. *)
Record JsError : Type := { message : option string }.

(** The answer of the transcription collaborator to one request: a
    response whose [text] may be missing, or a failure. *)
Inductive Response : Type :=
  | Answer (text : option string)
  | Failure (error : JsError).

(** What the dispatcher does to the outside: a request for a file, a
    timer wait in milliseconds. *)
Inductive Event : Type :=
  | Call (fileName : string)
  | Wait (ms : Z).

(** The outside: the answers the collaborator will give, in order, and
    the events so far. *)
Record World : Type := { responses : list Response; trace : list Event }.

(** A part handed to the dispatcher; [base64] is what reading it yields,
    [None] when the read fails. *)
Record File : Type :=
  { name : string; type : string; base64 : option string }.

Inductive Outcome (A : Type) : Type :=
  | Return (a : A)
  | Throw (e : JsError).
Arguments Return {A} a.
Arguments Throw {A} e.

Definition wait (ms : Z) (w : World) : World :=
  {| responses := responses w; trace := trace w ++ [Wait ms] |}.

(** One request: the next answer of the collaborator.  [None]: the
    collaborator has no further answer and the request never settles. *)
Definition generateContent (file : File) (w : World)
  : option (Response * World) :=
  match responses w with
  | r :: rest =>
      Some (r, {| responses := rest; trace := trace w ++ [Call (name file)] |})
  | [] => None
  end.

(** [haystack.includes(needle)]. *)
Fixpoint includes (needle haystack : string) : bool :=
  if String.prefix needle haystack then true
  else match haystack with
       | EmptyString => false
       | String _ rest => includes needle rest
       end.

Definition isOverloaded (error : JsError) : bool :=
  let errorMsg := match message error with Some m => m | None => "" end in
  includes "503" errorMsg || includes "overloaded" errorMsg
  || includes "UNAVAILABLE" errorMsg || includes "429" errorMsg.

Definition maxRetries : nat := 3.

(** [while (attempt < maxRetries)] of [transcribeSingleFile]. *)
Fixpoint attemptLoop (fuel : nat) (attempt : nat) (file : File) (w : World)
  : option (Outcome string * World) :=
  if (attempt <? maxRetries)%nat then
    match fuel with
    | O => None
    | S fuel' =>
        match generateContent file w with
        | None => None
        | Some (Answer text, w) =>
            Some (Return (match text with Some t => t | None => "" end), w)
        | Some (Failure error, w) =>
            if isOverloaded error && (attempt <? maxRetries - 1)%nat then
              let attempt := (attempt + 1)%nat in
              let waitTime := RETRY_DELAY_MS * Z.of_nat attempt in
              attemptLoop fuel' attempt file (wait waitTime w)
            else Some (Throw error, w)
        end
    end
  else Some (Return "", w).

Definition transcribeSingleFile (file : File) (w : World)
  : option (Outcome string * World) :=
  match base64 file with
  | None => Some (Throw {| message := None |}, w)
  | Some _ => attemptLoop maxRetries 0 file w
  end.

Definition newline : string := String (ascii_of_nat 10) EmptyString.

Definition nonEmpty (s : string) : bool :=
  match s with EmptyString => false | String _ _ => true end.

(** The [for] loop of [handleTranscriptionFlow] from index [i] on, with
    the local [fullTranscript] and the displayed [transcription]. *)
Fixpoint partsLoop (parts : list File) (i : nat) (fullTranscript : string)
    (transcription : string) (w : World)
  : option (Outcome string * string * World) :=
  match parts with
  | [] => Some (Return fullTranscript, transcription, w)
  | currentFile :: rest =>
      let w := if (0 <? i)%nat then wait CHUNK_DELAY_MS w else w in
      match transcribeSingleFile currentFile w with
      | None => None
      | Some (Throw error, w) => Some (Throw error, transcription, w)
      | Some (Return partText, w) =>
          if nonEmpty partText then
            let fullTranscript :=
              fullTranscript
              ++ (if nonEmpty fullTranscript then newline ++ newline else "")
              ++ partText in
            partsLoop rest (i + 1) fullTranscript fullTranscript w
          else partsLoop rest (i + 1) fullTranscript transcription w
      end
  end.

(** The text of [error.message] inside a template literal. *)
Definition messageText (error : JsError) : string :=
  match message error with Some m => m | None => "undefined" end.

Definition abortNote (error : JsError) : string :=
  newline ++ newline ++ "[Lỗi dừng đột ngột]: " ++ messageText error.

(** [handleTranscriptionFlow]: the displayed transcription when the flow
    ends.  The analysis that follows a complete transcript is not part of
    the model. *)
Definition handleTranscriptionFlow (parts : list File)
    (transcription : string) (w : World) : option (string * World) :=
  match partsLoop parts 0 "" transcription w with
  | None => None
  | Some (Return fullTranscript, transcription, w) =>
      if nonEmpty fullTranscript then Some (transcription, w)
      else Some ("Không tạo được bản phiên âm.", w)
  | Some (Throw error, transcription, w) =>
      Some (transcription ++ abortNote error, w)
  end.

End Dispatcher.

(** ** Reading a file for upload ([blobToBase64]) *)
Module Reader.

(** What the [FileReader] holds when [onloadend] fires after
    [readAsDataURL]: the data URL, or nothing after a read error. *)
Inductive ReadResult : Type :=
  | Loaded (result : string)
  | Failed.

(** The host's [readAsDataURL]: the media type the reader writes for the
    blob and the base64 text of its bytes. *)
Definition readAsDataURL (mediaType : string) (content : list byte) : string :=
  ("data:" ++ mediaType ++ ";base64,"
   ++ Base64.btoa (string_of_list_ascii (map ascii_of_byte content)))%string.

(** [s.split(sep)] for a one-character separator. *)
Fixpoint splitOn (sep : ascii) (s : string) : list string :=
  match s with
  | EmptyString => [EmptyString]
  | String c rest =>
      if Ascii.eqb c sep then EmptyString :: splitOn sep rest
      else match splitOn sep rest with
           | first :: others => String c first :: others
           | [] => [String c EmptyString]
           end
  end.

(** [blobToBase64]: [reader.result.split(',')[1]], which is [undefined]
    ([None]) when the result has no comma; a read error rejects with an
    event that carries no message. *)
Definition blobToBase64 (r : ReadResult)
  : Dispatcher.Outcome (option string) :=
  match r with
  | Loaded result => Dispatcher.Return (splitOn ","%char result !! 1%nat)
  | Failed => Dispatcher.Throw {| Dispatcher.message := None |}
  end.

End Reader.

(** ** Choosing the parts of an upload ([handleFileSelection]) *)
Module Transcriber.

Definition MAX_FILE_SIZE : Z := 15 * 1024 * 1024.

(** A selected file: its size in bytes and the audio the host decodes from
    it, [None] when it cannot be decoded. *)
Record Upload : Type :=
  { size : Z; audio : option WebAudio.AudioBuffer }.

(** A part handed to the dispatcher: the file itself, or a piece cut by
    the chunker. *)
Inductive Part : Type :=
  | Whole (file : Upload)
  | Piece (chunk : Chunker.Chunk).

(** [part.size]. *)
Definition partSize (p : Part) : Z :=
  match p with
  | Whole file => size file
  | Piece chunk =>
      match Chunker.chunkFile chunk with
      | Some bytes => Z.of_nat (List.length bytes)
      | None => 0
      end
  end.

Section Rendering.

Variable render : WebAudio.AudioBuffer -> nat -> list JS.num.

(** [handleFileSelection]: the parts put in [fileParts].  A file above the
    limit is cut by [splitAudio]; a failure there is caught and leaves no
    part.  A smaller file is used as it is. *)
Definition handleFileSelection (file : Upload) : list Part :=
  if (MAX_FILE_SIZE <? size file)%Z then
    match audio file with
    | Some audioBuffer =>
        match Chunker.splitAudio render audioBuffer with
        | Some chunks => map Piece chunks
        | None => []
        end
    | None => []
    end
  else [Whole file].

End Rendering.

End Transcriber.

(** ** The live session: its refs, capture and shutdown
    ([setupAudioStreaming], [onaudioprocess], [onmessage], [stopSession]) *)
Module Session.

(** The refs of the component.  A context, node or session ref is [true]
    while it holds an object; [onaudioprocess] tells whether the script
    processor has its handler.  Of the React state, [stream] is an
    argument of [stopSession] (the value its closure holds); status and
    error text are not part of the model. *)
Record Refs : Type :=
  { inputAudioContext : bool;
    outputAudioContext : bool;
    source : bool;
    scriptProcessor : bool;
    onaudioprocess : bool;
    sessionPromise : bool;
    activeSession : bool;
    player : Scheduler.State }.

(** What the component asks of the host, in order. *)
Inductive Effect : Type :=
  | DisconnectSource
  | DisconnectProcessor
  | CloseInputContext
  | CloseOutputContext
  | Playback (e : Scheduler.Effect)
  | StopTracks
  | ClearStream
  | CloseSession
  | Send (packet : Pcm.Blob).

(** [setupAudioStreaming]: nothing without an input context; otherwise a
    source and a script processor with its handler. *)
Definition setupAudioStreaming (r : Refs) : Refs :=
  if inputAudioContext r then
    {| inputAudioContext := true;
       outputAudioContext := outputAudioContext r;
       source := true;
       scriptProcessor := true;
       onaudioprocess := true;
       sessionPromise := sessionPromise r;
       activeSession := activeSession r;
       player := player r |}
  else r.

(** The processor delivers a frame: the handler, when set, builds the
    packet and sends it if there is a session promise. *)
Definition audioprocess (inputData : list JS.num) (r : Refs) : list Effect :=
  if onaudioprocess r then
    let pcmBlob := Pcm.createPcmBlob inputData in
    if sessionPromise r then [Send pcmBlob] else []
  else [].

(** [onmessage]: [handleServerMessage] on the output context of the
    moment, whose clock reads [currentTime]. *)
Definition onmessage (currentTime : Q) (message : Scheduler.Message)
    (r : Refs) : Refs * list Effect :=
  let '(st, effects) :=
    Scheduler.handleServerMessage
      (if outputAudioContext r then Some currentTime else None)
      message (player r) in
  ({| inputAudioContext := inputAudioContext r;
      outputAudioContext := outputAudioContext r;
      source := source r;
      scriptProcessor := scriptProcessor r;
      onaudioprocess := onaudioprocess r;
      sessionPromise := sessionPromise r;
      activeSession := activeSession r;
      player := st |},
   map Playback effects).

(** [stopSession], statement by statement: disconnect the capture nodes
    and drop the handler, close and forget both contexts, stop and forget
    every scheduled source, stop the tracks of the media stream and ask
    for the state [stream] to be cleared, close and forget the session,
    forget the promise, reset the cursor.  [stream] tells whether the
    closure that runs holds a media stream: the state as it was at the
    render that made the closure. *)
Definition stopSession (stream : bool) (r : Refs) : Refs * list Effect :=
  ({| inputAudioContext := false;
      outputAudioContext := false;
      source := source r;
      scriptProcessor := scriptProcessor r;
      onaudioprocess := if scriptProcessor r then false else onaudioprocess r;
      sessionPromise := false;
      activeSession := false;
      player :=
        {| Scheduler.nextStartTime := 0;
           Scheduler.sources := ∅;
           Scheduler.created := Scheduler.created (player r) |} |},
   (if source r then [DisconnectSource] else [])
   ++ (if scriptProcessor r then [DisconnectProcessor] else [])
   ++ (if inputAudioContext r then [CloseInputContext] else [])
   ++ (if outputAudioContext r then [CloseOutputContext] else [])
   ++ map (fun s => Playback (Scheduler.Stop s))
        (elements (Scheduler.sources (player r)))
   ++ (if stream then [StopTracks; ClearStream] else [])
   ++ (if activeSession r then [CloseSession] else [])).

End Session.

(** ** Vocabulary for statements about the dispatcher *)
Module Measure.

(** The requests of a trace and the total time waited. *)
Fixpoint callCount (events : list Dispatcher.Event) : nat :=
  match events with
  | [] => 0
  | Dispatcher.Call _ :: rest => S (callCount rest)
  | Dispatcher.Wait _ :: rest => callCount rest
  end.

Fixpoint waited (events : list Dispatcher.Event) : Z :=
  match events with
  | [] => 0
  | Dispatcher.Wait ms :: rest => ms + waited rest
  | Dispatcher.Call _ :: rest => waited rest
  end.

(** One request per file, in order, with the inter-chunk delay between
    consecutive requests. *)
Fixpoint oneByOne (files : list Dispatcher.File) : list Dispatcher.Event :=
  match files with
  | [] => []
  | [f] => [Dispatcher.Call (Dispatcher.name f)]
  | f :: rest =>
      Dispatcher.Call (Dispatcher.name f)
      :: Dispatcher.Wait Dispatcher.CHUNK_DELAY_MS :: oneByOne rest
  end.

(** Texts joined with one blank line between them. *)
Definition paragraphs (texts : list string) : string :=
  String.concat (Dispatcher.newline ++ Dispatcher.newline)%string texts.

(** The parts of a sequence transcribed one after the other, the [i]-th
    of the flow first: the text [transcribeSingleFile] returns for each,
    and the world after the last.  [None] when one of them throws. *)
Fixpoint returned (i : nat) (parts : list Dispatcher.File)
    (w : Dispatcher.World) : option (list string * Dispatcher.World) :=
  match parts with
  | [] => Some ([], w)
  | file :: rest =>
      let w :=
        if (0 <? i)%nat then Dispatcher.wait Dispatcher.CHUNK_DELAY_MS w
        else w in
      match Dispatcher.transcribeSingleFile file w with
      | Some (Dispatcher.Return text, w) =>
          match returned (i + 1) rest w with
          | Some (texts, w) => Some (text :: texts, w)
          | None => None
          end
      | _ => None
      end
  end.

End Measure.

(* ================================================================== *)
(** * Properties *)
(* ================================================================== *)

(** ** Base64 and the transport codec *)

Ltac euclid := zify; Z.to_euclidean_division_equations; lia.

Example encodeAudio_man :
  Codec.encodeAudio ["M"%byte; "a"%byte; "n"%byte] = "TWFu"%string.
Proof. reflexivity. Qed.

Example encodeAudio_pad :
  Codec.encodeAudio ["M"%byte; "a"%byte] = "TWE="%string
  /\ Codec.encodeAudio ["M"%byte] = "TQ=="%string
  /\ Codec.decodeAudio "TQ=="%string = Some ["M"%byte].
Proof. repeat split; reflexivity. Qed.

(** Induction that peels a list three elements at a time, the way [btoa]
    consumes its input. *)
Lemma list_triple_ind {A} (P : list A -> Prop) :
  P [] ->
  (forall a, P [a]) ->
  (forall a b, P [a; b]) ->
  (forall a b c rest, P rest -> P (a :: b :: c :: rest)) ->
  forall l, P l.
Proof.
  intros H0 H1 H2 H3.
  assert (Hall : forall l, P l /\ (forall a, P (a :: l))
                           /\ (forall a b, P (a :: b :: l))).
  { induction l as [|x l (IH0 & IH1 & IH2)]; repeat split; auto. }
  intros l. apply Hall.
Qed.

Lemma sextet_char_facts (n : N) :
  (n < 64)%N ->
  Base64.char_sextet (Base64.sextet_char n) = Some n
  /\ Base64.is_ascii_whitespace (Base64.sextet_char n) = false
  /\ Ascii.eqb (Base64.sextet_char n) Base64.pad = false.
Proof.
  intros Hn.
  assert (Hm : exists m, n = N.of_nat m /\ (m < 64)%nat).
  { exists (N.to_nat n). lia. }
  destruct Hm as (m & -> & Hm). clear Hn.
  do 64 (destruct m as [|m]; [vm_compute; auto |]).
  lia.
Qed.

Lemma sextets_bound (l : list ascii) :
  Forall (fun n => (n < 64)%N) (Base64.sextets l).
Proof.
  induction l as [|a|a b|a b c rest IH] using list_triple_ind; simpl.
  - constructor.
  - pose proof (N_ascii_bounded a).
    repeat constructor; euclid.
  - pose proof (N_ascii_bounded a). pose proof (N_ascii_bounded b).
    repeat constructor; euclid.
  - pose proof (N_ascii_bounded a). pose proof (N_ascii_bounded b).
    pose proof (N_ascii_bounded c).
    repeat (constructor; [euclid |]). exact IH.
Qed.

Lemma symbols_sextet_char (ns : list N) :
  Forall (fun n => (n < 64)%N) ns ->
  Base64.symbols (map Base64.sextet_char ns) = Some ns.
Proof.
  induction 1 as [|n ns Hn _ IH]; simpl; [reflexivity |].
  destruct (sextet_char_facts n Hn) as (-> & _ & _).
  now rewrite IH.
Qed.

Lemma ascii_of_N_eq (a : ascii) (n : N) :
  n = N_of_ascii a -> ascii_of_N n = a.
Proof. intros ->. apply ascii_N_embedding. Qed.

Lemma unsextets_sextets (l : list ascii) :
  Base64.unsextets (Base64.sextets l) = Some l.
Proof.
  induction l as [|a|a b|a b c rest IH] using list_triple_ind.
  - reflexivity.
  - pose proof (N_ascii_bounded a). cbn [Base64.sextets Base64.unsextets].
    do 2 f_equal. apply ascii_of_N_eq. euclid.
  - pose proof (N_ascii_bounded a). pose proof (N_ascii_bounded b).
    cbn [Base64.sextets Base64.unsextets].
    do 2 f_equal; [| f_equal]; apply ascii_of_N_eq; euclid.
  - pose proof (N_ascii_bounded a). pose proof (N_ascii_bounded b).
    pose proof (N_ascii_bounded c).
    cbn [Base64.sextets Base64.unsextets]. rewrite IH.
    do 2 f_equal; [| f_equal; [| f_equal]]; apply ascii_of_N_eq; euclid.
Qed.

(** The encoded text is a whole number of four-symbol groups. *)
Lemma btoa_length_groups (l : list ascii) :
  ((length (Base64.sextets l) + length (Base64.padding (length l))) mod 4 = 0)%nat
  /\ (length l mod 3 <> 0 -> 2 <= length (Base64.sextets l))%nat.
Proof.
  induction l as [|a|a b|a b c rest [IH1 IH2]] using list_triple_ind;
    try (split; [reflexivity | cbn; lia]).
  assert (Hpad : Base64.padding (length (a :: b :: c :: rest))
                 = Base64.padding (length rest)).
  { unfold Base64.padding.
    replace (length (a :: b :: c :: rest)) with (length rest + 1 * 3)%nat
      by (cbn [length]; lia).
    now rewrite Nat.Div0.mod_add. }
  split.
  - rewrite Hpad. cbn [Base64.sextets length].
    replace (S (S (S (S (length (Base64.sextets rest)))))
             + length (Base64.padding (length rest)))%nat
      with ((length (Base64.sextets rest)
             + length (Base64.padding (length rest))) + 1 * 4)%nat by lia.
    rewrite Nat.Div0.mod_add. exact IH1.
  - intros _. cbn [Base64.sextets length]. lia.
Qed.

Lemma filter_all {A} (P : A -> Prop) `{forall x, Decision (P x)} (l : list A) :
  Forall P l -> filter P l = l.
Proof.
  induction 1 as [|x l Hx _ IH]; [reflexivity |].
  rewrite filter_cons_True by exact Hx. now rewrite IH.
Qed.

Lemma btoa_no_whitespace (ns : list N) (k : nat) :
  Forall (fun n => (n < 64)%N) ns ->
  Base64.strip_whitespace (map Base64.sextet_char ns ++ Base64.padding k)
  = map Base64.sextet_char ns ++ Base64.padding k.
Proof.
  intros Hns. apply filter_all. apply Forall_app. split.
  - apply Forall_map. eapply Forall_impl; [exact Hns |].
    intros n Hn. now destruct (sextet_char_facts n Hn) as (_ & Hws & _).
  - unfold Base64.padding.
    destruct (k mod 3)%nat as [|[|[|?]]]; repeat constructor.
Qed.

Lemma last_symbol_not_pad (ns : list N) (p : ascii) (r : list ascii) :
  Forall (fun n => (n < 64)%N) ns ->
  rev (map Base64.sextet_char ns) = p :: r ->
  Ascii.eqb p Base64.pad = false.
Proof.
  intros Hns Hrev.
  assert (Hin : In p (map Base64.sextet_char ns)).
  { apply in_rev. rewrite Hrev. now left. }
  apply in_map_iff in Hin. destruct Hin as (n & <- & Hn).
  apply Forall_forall with (x := n) in Hns.
  - now destruct (sextet_char_facts n Hns) as (_ & _ & Hpad).
  - now apply list_elem_of_In.
Qed.

(** Removing the padding of an encoded text leaves its symbols. *)
Lemma strip_padding_btoa (l : list ascii) :
  Base64.strip_padding
    (map Base64.sextet_char (Base64.sextets l) ++ Base64.padding (length l))
  = map Base64.sextet_char (Base64.sextets l).
Proof.
  pose proof (sextets_bound l) as Hb.
  destruct (btoa_length_groups l) as [Hlen Hmin].
  unfold Base64.strip_padding.
  rewrite length_app, length_map, Hlen. cbn [Nat.eqb].
  revert Hmin. unfold Base64.padding.
  set (xs := map Base64.sextet_char (Base64.sextets l)).
  assert (Hxs : length xs = length (Base64.sextets l))
    by (unfold xs; apply length_map).
  destruct (length l mod 3)%nat as [|[|[|?]]]; intros Hmin.
  - rewrite app_nil_r.
    destruct (rev xs) as [|p1 [|p2 r]] eqn:Hrev; try reflexivity.
    now rewrite (last_symbol_not_pad _ _ _ Hb Hrev).
  - rewrite rev_app_distr. cbn [rev app].
    change (Ascii.eqb Base64.pad Base64.pad) with true. cbn iota.
    apply rev_involutive.
  - rewrite rev_app_distr. cbn [rev app].
    destruct (rev xs) as [|p2 r] eqn:Hrev.
    + apply (f_equal (@length ascii)) in Hrev.
      rewrite length_rev, Hxs in Hrev. cbn in Hrev.
      specialize (Hmin ltac:(discriminate)). lia.
    + change (Ascii.eqb Base64.pad Base64.pad) with true. cbv iota.
      rewrite (last_symbol_not_pad _ _ _ Hb Hrev).
      change (rev (p2 :: r) = xs). rewrite <- Hrev. apply rev_involutive.
  - rewrite app_nil_r.
    destruct (rev xs) as [|p1 [|p2 r]] eqn:Hrev; try reflexivity.
    now rewrite (last_symbol_not_pad _ _ _ Hb Hrev).
Qed.

Lemma atob_btoa (binary : string) :
  Base64.atob (Base64.btoa binary) = Some binary.
Proof.
  unfold Base64.atob, Base64.btoa.
  rewrite list_ascii_of_string_of_list_ascii.
  rewrite btoa_no_whitespace by apply sextets_bound.
  rewrite strip_padding_btoa.
  rewrite symbols_sextet_char by apply sextets_bound.
  rewrite unsextets_sextets.
  now rewrite string_of_list_ascii_of_string.
Qed.

Lemma codec_round_trip (b : list byte) :
  Codec.decodeAudio (Codec.encodeAudio b) = Some b.
Proof.
  unfold Codec.decodeAudio, Codec.encodeAudio.
  rewrite atob_btoa, list_ascii_of_string_of_list_ascii.
  f_equal. rewrite map_map.
  induction b as [|x b IH]; [reflexivity |].
  cbn [map]. now rewrite byte_of_ascii_of_byte, IH.
Qed.

(** C3. Decoding an encoded byte sequence gives the byte sequence back, for
    every byte sequence: [decodeAudio (encodeAudio b)] returns [b]. *)
Theorem decodeAudio_encodeAudio (b : list byte) :
  Codec.decodeAudio (Codec.encodeAudio b) = Some b.
Proof. apply codec_round_trip. Qed.

(** ** Integer conversions *)

Lemma wrap16_range (n : Z) : -32768 <= JS.wrap 16 n <= 32767.
Proof.
  unfold JS.wrap. change (2 ^ (16 - 1)) with 32768. change (2 ^ 16) with 65536.
  pose proof (Z.mod_pos_bound (n + 32768) 65536). lia.
Qed.

Lemma wrap16_small (n : Z) : -32768 <= n <= 32767 -> JS.wrap 16 n = n.
Proof.
  intros Hn. unfold JS.wrap.
  change (2 ^ (16 - 1)) with 32768. change (2 ^ 16) with 65536.
  rewrite Z.mod_small; lia.
Qed.

Lemma wrap16_congruent (n : Z) : (JS.wrap 16 n - n) mod 65536 = 0.
Proof.
  unfold JS.wrap. change (2 ^ (16 - 1)) with 32768. change (2 ^ 16) with 65536.
  euclid.
Qed.

Lemma wrap32_small (n : Z) : -2147483648 <= n <= 2147483647 -> JS.wrap 32 n = n.
Proof.
  intros Hn. unfold JS.wrap.
  change (2 ^ (32 - 1)) with 2147483648. change (2 ^ 32) with 4294967296.
  rewrite Z.mod_small; lia.
Qed.

(** Truncation toward zero stays between the integers that bound its
    argument. *)
Lemma truncate_between (q : Q) (a b : Z) :
  (inject_Z a <= q)%Q -> (q <= inject_Z b)%Q -> a <= JS.truncate q <= b.
Proof.
  destruct q as [n d]. unfold Qle, JS.truncate. cbn [Qnum Qden inject_Z].
  intros Ha Hb.
  pose proof (Z.quot_rem' n (Z.pos d)) as Hqr.
  pose proof (Z.rem_bound_abs n (Z.pos d) ltac:(lia)) as Habs.
  nia.
Qed.

Lemma truncate_below (q : Q) (b : Z) :
  (q < inject_Z b)%Q -> 0 < b -> JS.truncate q < b.
Proof.
  destruct q as [n d]. unfold Qlt, JS.truncate. cbn [Qnum Qden inject_Z].
  intros Hb Hpos.
  pose proof (Z.quot_rem' n (Z.pos d)) as Hqr.
  pose proof (Z.rem_bound_abs n (Z.pos d) ltac:(lia)) as Habs.
  destruct (Z_lt_le_dec n 0) as [Hneg | Hnn].
  - assert (Z.quot n (Z.pos d) <= 0) by nia. lia.
  - pose proof (Z.rem_nonneg n (Z.pos d) ltac:(lia) Hnn). nia.
Qed.

(** ** Bytes of 16-bit integers *)

Lemma Z_of_byte_of_Z (n : Z) : JS.Z_of_byte (JS.byte_of_Z n) = n mod 256.
Proof.
  unfold JS.Z_of_byte, JS.byte_of_Z.
  pose proof (Z.mod_pos_bound n 256 ltac:(lia)) as Hb.
  destruct (Byte.of_N (Z.to_N (n mod 256))) as [b|] eqn:Hof.
  - apply Byte.to_of_N in Hof. rewrite Hof. lia.
  - apply Byte.of_N_None_iff in Hof. lia.
Qed.

(** The bytes of [le16] and [le32] are the little-endian digits of the
    value. *)
Lemma le16_value (n : Z) :
  0 <= n < 65536 ->
  match JS.le16 n with
  | [b0; b1] => JS.Z_of_byte b0 + 256 * JS.Z_of_byte b1 = n
  | _ => False
  end.
Proof.
  intros Hn. cbn [JS.le16]. rewrite !Z_of_byte_of_Z.
  rewrite Z.shiftr_div_pow2 by lia. change (2 ^ 8) with 256. euclid.
Qed.

Lemma le32_value (n : Z) :
  0 <= n < 4294967296 ->
  match JS.le32 n with
  | [b0; b1; b2; b3] =>
      JS.Z_of_byte b0 + 256 * JS.Z_of_byte b1 + 65536 * JS.Z_of_byte b2
      + 16777216 * JS.Z_of_byte b3 = n
  | _ => False
  end.
Proof.
  intros Hn. cbn [JS.le32]. rewrite !Z_of_byte_of_Z.
  rewrite !Z.shiftr_div_pow2 by lia.
  change (2 ^ 8) with 256. change (2 ^ 16) with 65536.
  change (2 ^ 24) with 16777216. euclid.
Qed.

Lemma int16_of_le16 (v : Z) :
  -32768 <= v <= 32767 ->
  JS.int16_of_bytes (JS.byte_of_Z v) (JS.byte_of_Z (Z.shiftr v 8)) = v.
Proof.
  intros Hv. unfold JS.int16_of_bytes.
  rewrite !Z_of_byte_of_Z, Z.shiftr_div_pow2 by lia.
  change (2 ^ 8) with 256.
  unfold JS.wrap. change (2 ^ (16 - 1)) with 32768. change (2 ^ 16) with 65536.
  euclid.
Qed.

Lemma int16s_of_bytes_of_int16s (vs : list Z) :
  Forall (fun v => -32768 <= v <= 32767) vs ->
  JS.int16s_of_bytes (JS.bytes_of_int16s vs) = Some vs.
Proof.
  induction 1 as [|v vs Hv _ IH]; [reflexivity |].
  cbn [JS.bytes_of_int16s flat_map JS.le16 app JS.int16s_of_bytes].
  fold (JS.bytes_of_int16s vs). now rewrite IH, int16_of_le16.
Qed.

Lemma bytes_of_int16s_length (vs : list Z) :
  length (JS.bytes_of_int16s vs) = (2 * length vs)%nat.
Proof.
  induction vs as [|v vs IH]; [reflexivity |].
  cbn [JS.bytes_of_int16s flat_map JS.le16 app length].
  fold (JS.bytes_of_int16s vs). lia.
Qed.

(** Every element of an [Int16Array] is a signed 16-bit integer. *)
Lemma int16s_of_bytes_range (data : list byte) (vs : list Z) :
  JS.int16s_of_bytes data = Some vs ->
  Forall (fun v => -32768 <= v <= 32767) vs
  /\ length data = (2 * length vs)%nat.
Proof.
  assert (Hpair : forall l : list byte,
             (forall vs, JS.int16s_of_bytes l = Some vs ->
                Forall (fun v => -32768 <= v <= 32767) vs
                /\ length l = (2 * length vs)%nat)
             /\ (forall b vs, JS.int16s_of_bytes (b :: l) = Some vs ->
                Forall (fun v => -32768 <= v <= 32767) vs
                /\ length (b :: l) = (2 * length vs)%nat)).
  { induction l as [|hi l [IH0 IH1]]; split.
    - intros ws [= <-]. split; [constructor | reflexivity].
    - intros b ws H. discriminate H.
    - exact (IH1 hi).
    - intros lo ws. cbn [JS.int16s_of_bytes].
      destruct (JS.int16s_of_bytes l) as [ws'|] eqn:Hl; [| discriminate].
      intros [= <-]. destruct (IH0 ws' eq_refl) as [Hr Hlen]. split.
      + constructor; [apply wrap16_range | exact Hr].
      + cbn [length]. lia. }
  intros H. now apply Hpair.
Qed.

Lemma int16s_of_bytes_odd (data : list byte) :
  JS.int16s_of_bytes data = None <-> Nat.Odd (length data).
Proof.
  assert (Hpair : forall l : list byte,
             (JS.int16s_of_bytes l = None <-> Nat.Odd (length l))
             /\ (forall b, JS.int16s_of_bytes (b :: l) = None
                           <-> Nat.Odd (length (b :: l)))).
  { induction l as [|hi l [IH0 IH1]]; split.
    - split; [discriminate | intros [k Hk]; cbn in Hk; lia].
    - intros b. split; [intros _; exists 0%nat; reflexivity | reflexivity].
    - exact (IH1 hi).
    - intros lo. cbn [JS.int16s_of_bytes length].
      destruct (JS.int16s_of_bytes l) as [ws'|] eqn:Hl.
      + split; [discriminate |]. intros [k Hk].
        assert (Hodd : Nat.Odd (length l)) by (exists (k - 1)%nat; lia).
        apply IH0 in Hodd. discriminate Hodd.
      + split; [| reflexivity]. intros _.
        destruct (proj1 IH0 eq_refl) as [k Hk]. exists (S k). lia. }
  apply Hpair.
Qed.

(** ** Capture encoder *)

Lemma scaled_bounds (q : Q) (a b : Z) :
  (inject_Z a <= q)%Q -> (q < inject_Z b)%Q ->
  (inject_Z (a * 32768) <= q * 32768)%Q /\ (q * 32768 < inject_Z (b * 32768))%Q.
Proof.
  destruct q as [n d]. unfold Qle, Qlt. cbn. intros Ha Hb. lia.
Qed.

Lemma pcm_quantize_formula (s : Q) :
  Pcm.quantize (JS.Fin s) = JS.wrap 16 (JS.truncate (s * 32768)).
Proof. reflexivity. Qed.

Lemma pcm_quantize_range (x : JS.num) : -32768 <= Pcm.quantize x <= 32767.
Proof.
  destruct x; cbn; try lia. apply wrap16_range.
Qed.

(** No wrap inside [-1, 1). *)
Lemma pcm_quantize_in_range (s : Q) :
  (-1 <= s)%Q -> (s < 1)%Q ->
  Pcm.quantize (JS.Fin s) = JS.truncate (s * 32768).
Proof.
  intros Hlo Hhi. rewrite pcm_quantize_formula.
  destruct (scaled_bounds s (-1) 1 Hlo Hhi) as [H1 H2].
  apply wrap16_small.
  pose proof (truncate_between (s * 32768) (-32768) 32768 H1
                (Qlt_le_weak _ _ H2)).
  pose proof (truncate_below (s * 32768) 32768 H2 ltac:(lia)). lia.
Qed.

Lemma createPcmBlob_payload (frame : list JS.num) :
  Codec.decodeAudio (Pcm.data (Pcm.createPcmBlob frame))
  = Some (JS.bytes_of_int16s (map Pcm.quantize frame))
  /\ JS.int16s_of_bytes (JS.bytes_of_int16s (map Pcm.quantize frame))
     = Some (map Pcm.quantize frame).
Proof.
  split.
  - apply codec_round_trip.
  - apply int16s_of_bytes_of_int16s. apply Forall_map.
    apply Forall_forall. intros x _. apply pcm_quantize_range.
Qed.

(** C9. [createPcmBlob] stores, for each input sample [s], the integer
    truncation of [s * 32768] reduced modulo 2^16 into a signed 16-bit slot,
    with no clamping: the sample 1.0 wraps to -32768, and samples outside
    [-1,1] wrap instead of saturating. *)
Theorem createPcmBlob_wraps (frame : list JS.num) :
  Codec.decodeAudio (Pcm.data (Pcm.createPcmBlob frame))
  = Some (JS.bytes_of_int16s (map Pcm.quantize frame))
  /\ (forall s : Q,
        Pcm.quantize (JS.Fin s) = JS.wrap 16 (JS.truncate (s * 32768))
        /\ -32768 <= Pcm.quantize (JS.Fin s) <= 32767
        /\ (Pcm.quantize (JS.Fin s) - JS.truncate (s * 32768)) mod 65536 = 0)
  /\ Pcm.quantize (JS.Fin 1) = -32768
  /\ (forall s : Q, (1 <= s)%Q -> (s < 2)%Q ->
        Pcm.quantize (JS.Fin s) = JS.truncate (s * 32768) - 65536
        /\ Pcm.quantize (JS.Fin s) < 0)
  /\ (forall s : Q, (-2 <= s)%Q -> (s <= - (32769 # 32768))%Q ->
        Pcm.quantize (JS.Fin s) = JS.truncate (s * 32768) + 65536
        /\ 0 <= Pcm.quantize (JS.Fin s)).
Proof.
  split; [apply createPcmBlob_payload |].
  split.
  { intros s. rewrite pcm_quantize_formula.
    split; [reflexivity |]. split; [apply wrap16_range |].
    apply wrap16_congruent. }
  split; [reflexivity |].
  split.
  - intros s Hlo Hhi. rewrite pcm_quantize_formula.
    destruct (scaled_bounds s 1 2 Hlo Hhi) as [H1 H2].
    pose proof (truncate_between (s * 32768) 32768 65536 H1
                  (Qlt_le_weak _ _ H2)).
    pose proof (truncate_below (s * 32768) 65536 H2 ltac:(lia)).
    unfold JS.wrap.
    change (2 ^ (16 - 1)) with 32768. change (2 ^ 16) with 65536.
    generalize dependent (JS.truncate (s * 32768)). intros n; intros.
    clear Hlo Hhi H1 H2. split; euclid.
  - intros s Hlo Hhi. rewrite pcm_quantize_formula.
    assert (H1 : (inject_Z (-65536) <= s * 32768)%Q).
    { destruct s as [n d]. revert Hlo. unfold Qle. cbn. lia. }
    assert (H2 : (s * 32768 <= inject_Z (-32769))%Q).
    { destruct s as [n d]. revert Hhi. unfold Qle. cbn. lia. }
    pose proof (truncate_between (s * 32768) (-65536) (-32769) H1 H2).
    unfold JS.wrap.
    change (2 ^ (16 - 1)) with 32768. change (2 ^ 16) with 65536.
    generalize dependent (JS.truncate (s * 32768)). intros n; intros.
    clear Hlo Hhi H1 H2. split; euclid.
Qed.

Lemma createPcmBlob_wraps_witness :
  Pcm.quantize (JS.Fin (3 # 2)) = JS.truncate ((3 # 2) * 32768) - 65536
  /\ Pcm.quantize (JS.Fin (3 # 2)) < 0.
Proof.
  apply (createPcmBlob_wraps [JS.Fin (3 # 2)]).
  - unfold Qle; simpl; lia.
  - unfold Qlt; simpl; lia.
Defined.

(** The capture encoder does not follow the rule of the WAV encoder: at the
    sample 0.5 it stores 16384 where the rule of section 4.3 (and the WAV
    encoder itself) gives 16383, and at 1.0 it stores -32768 where the rule
    gives 32767. *)
Lemma createPcmBlob_not_wav_rule :
  map Pcm.quantize [JS.Fin (1 # 2); JS.Fin 1]
  <> map Wav.spec_quantize [(1 # 2)%Q; 1%Q]
  /\ map Pcm.quantize [JS.Fin (1 # 2); JS.Fin 1]
     <> map Wav.quantize [JS.Fin (1 # 2); JS.Fin 1].
Proof. split; vm_compute; discriminate. Qed.

(** Past the ends of [-1, 1) the stored integer wraps around. *)
Lemma pcm_quantize_above (s : Q) :
  (1 <= s)%Q -> (s < 2)%Q ->
  Pcm.quantize (JS.Fin s) = JS.truncate (s * 32768) - 65536.
Proof.
  intros Hlo Hhi. rewrite pcm_quantize_formula.
  destruct (scaled_bounds s 1 2 Hlo Hhi) as [H1 H2].
  pose proof (truncate_between (s * 32768) 32768 65536 H1
                (Qlt_le_weak _ _ H2)).
  pose proof (truncate_below (s * 32768) 65536 H2 ltac:(lia)).
  unfold JS.wrap.
  change (2 ^ (16 - 1)) with 32768. change (2 ^ 16) with 65536.
  generalize dependent (JS.truncate (s * 32768)). intros n; intros.
  clear Hlo Hhi H1 H2. euclid.
Qed.

Lemma pcm_quantize_below (s : Q) :
  (-2 <= s)%Q -> (s <= - (32769 # 32768))%Q ->
  Pcm.quantize (JS.Fin s) = JS.truncate (s * 32768) + 65536.
Proof.
  intros Hlo Hhi. rewrite pcm_quantize_formula.
  assert (H1 : (inject_Z (-65536) <= s * 32768)%Q).
  { destruct s as [n d]. revert Hlo. unfold Qle. cbn. lia. }
  assert (H2 : (s * 32768 <= inject_Z (-32769))%Q).
  { destruct s as [n d]. revert Hhi. unfold Qle. cbn. lia. }
  pose proof (truncate_between (s * 32768) (-65536) (-32769) H1 H2).
  unfold JS.wrap.
  change (2 ^ (16 - 1)) with 32768. change (2 ^ 16) with 65536.
  generalize dependent (JS.truncate (s * 32768)). intros n; intros.
  clear Hlo Hhi H1 H2. euclid.
Qed.

(** C2, as the code has it.  For every captured frame the capture encoder
    emits one packet whose media type is ['audio/pcm;rate=16000'] and whose
    payload is the base64 text of one little-endian signed 16-bit integer per
    sample.  The integer of a finite sample [s] is the truncation of
    [s * 32768] reduced modulo 2^16 into the signed range: a single scale
    factor and no clamp.  For [-1 <= s < 1] it is the truncation itself;
    for [1 <= s < 2] it is the truncation less 65536, a negative number
    (1.0 is stored as -32768); for [-2 <= s <= -1 - 1/32768] it is the
    truncation plus 65536.  NaN and the infinities are stored as 0. *)
Theorem createPcmBlob_packet (frame : list JS.num) :
  Pcm.mimeType (Pcm.createPcmBlob frame) = "audio/pcm;rate=16000"%string
  /\ exists pcm : list Z,
       length pcm = length frame
       /\ Codec.decodeAudio (Pcm.data (Pcm.createPcmBlob frame))
          = Some (JS.bytes_of_int16s pcm)
       /\ JS.int16s_of_bytes (JS.bytes_of_int16s pcm) = Some pcm
       /\ (forall (i : nat) (s : Q),
             frame !! i = Some (JS.Fin s) -> (-1 <= s)%Q -> (s < 1)%Q ->
             pcm !! i = Some (JS.truncate (s * 32768)))
       /\ (forall (i : nat) (s : Q),
             frame !! i = Some (JS.Fin s) ->
             pcm !! i
             = Some ((JS.truncate (s * 32768) + 32768) mod 65536 - 32768))
       /\ (forall (i : nat) (s : Q),
             frame !! i = Some (JS.Fin s) -> (1 <= s)%Q -> (s < 2)%Q ->
             pcm !! i = Some (JS.truncate (s * 32768) - 65536))
       /\ (forall (i : nat) (s : Q),
             frame !! i = Some (JS.Fin s) ->
             (-2 <= s)%Q -> (s <= - (32769 # 32768))%Q ->
             pcm !! i = Some (JS.truncate (s * 32768) + 65536))
       /\ (forall (i : nat) (x : JS.num),
             frame !! i = Some x ->
             x = JS.NaN \/ x = JS.PInf \/ x = JS.NInf ->
             pcm !! i = Some 0).
Proof.
  split; [reflexivity |].
  exists (map Pcm.quantize frame).
  destruct (createPcmBlob_payload frame) as [Hdec Hview].
  split; [apply length_map |]. split; [exact Hdec |]. split; [exact Hview |].
  assert (Hat : forall i x, frame !! i = Some x ->
                  map Pcm.quantize frame !! i = Some (Pcm.quantize x)).
  { intros i x Hi.
    change (map Pcm.quantize frame) with (Pcm.quantize <$> frame).
    now rewrite list_lookup_fmap, Hi. }
  split; [| split; [| split; [| split]]].
  - intros i s Hi Hlo Hhi.
    now rewrite (Hat i _ Hi), pcm_quantize_in_range.
  - intros i s Hi. now rewrite (Hat i _ Hi), pcm_quantize_formula.
  - intros i s Hi Hlo Hhi.
    now rewrite (Hat i _ Hi), pcm_quantize_above.
  - intros i s Hi Hlo Hhi.
    now rewrite (Hat i _ Hi), pcm_quantize_below.
  - intros i x Hi [-> | [-> | ->]]; now rewrite (Hat i _ Hi).
Qed.

(** A frame with the samples -1.0, 0.5 and 1.0. *)
Lemma createPcmBlob_packet_witness :
  exists pcm : list Z,
    length pcm = 3%nat
    /\ pcm !! 1%nat = Some (JS.truncate ((1 # 2) * 32768))
    /\ pcm !! 2%nat = Some (JS.truncate (1 * 32768) - 65536).
Proof.
  destruct (createPcmBlob_packet [JS.Fin (-1); JS.Fin (1 # 2); JS.Fin 1])
    as (_ & pcm & Hlen & _ & _ & Hpcm & _ & Hover & _).
  exists pcm. split; [exact Hlen |]. split.
  - apply Hpcm.
    + reflexivity.
    + unfold Qle; simpl; lia.
    + unfold Qlt; simpl; lia.
  - apply Hover.
    + reflexivity.
    + unfold Qle; simpl; lia.
    + unfold Qlt; simpl; lia.
Defined.

(** ** Playback decoder *)

Lemma fillChannel_length (dataInt16 : list Z) (nc c iterations : nat)
    (cd : list JS.num) :
  length (Pcm.fillChannel dataInt16 nc c iterations cd) = length cd.
Proof.
  unfold Pcm.fillChannel. induction iterations as [|n IH]; [reflexivity |].
  rewrite seq_S, foldl_app. cbn [foldl]. now rewrite length_insert.
Qed.

(** After the loop, every slot the loop reached holds the sample read for
    its own index. *)
Lemma fillChannel_lookup (dataInt16 : list Z) (nc c iterations : nat)
    (cd : list JS.num) (i : nat) :
  (i < iterations)%nat -> (i < length cd)%nat ->
  Pcm.fillChannel dataInt16 nc c iterations cd !! i
  = Some (Pcm.sampleAt dataInt16 (i * nc + c)).
Proof.
  intros Hi Hlen. induction iterations as [|n IH]; [lia |].
  unfold Pcm.fillChannel in *. rewrite seq_S, foldl_app. cbn [foldl].
  destruct (decide (i = n)) as [-> | Hne].
  - apply list_lookup_insert_eq.
    fold (Pcm.fillChannel dataInt16 nc c n cd).
    now rewrite fillChannel_length.
  - rewrite list_lookup_insert_ne by lia. apply IH. cbn in Hi. lia.
Qed.

Lemma pcm16_unit_interval (v : Z) :
  -32768 <= v <= 32767 ->
  (-1 <= inject_Z v / 32768)%Q /\ (inject_Z v / 32768 < 1)%Q.
Proof.
  intros Hv. unfold Qle, Qlt, Qdiv, Qmult, Qinv, inject_Z. cbn. lia.
Qed.

(** C10. [decodeAudioData] maps each stored signed 16-bit sample [v] to
    [v / 32768] and takes channel [c], frame [i] from index
    [i * numChannels + c]; so for every input byte sequence each decoded
    sample lies in [-1, 1).  The decoder fails exactly on an odd number of
    bytes, on zero channels and on fewer samples than channels. *)
Theorem decodeAudioData_samples (data : list byte) (sampleRate : Z)
    (numChannels : nat) :
  match Pcm.decodeAudioData data sampleRate numChannels with
  | Some buffer =>
      exists dataInt16 : list Z,
        JS.int16s_of_bytes data = Some dataInt16
        /\ WebAudio.length buffer = (length dataInt16 / numChannels)%nat
        /\ (1 <= WebAudio.length buffer)%nat
        /\ WebAudio.numberOfChannels buffer = numChannels
        /\ forall (c : nat) (ch : list JS.num),
             WebAudio.channelData buffer !! c = Some ch ->
             length ch = WebAudio.length buffer
             /\ forall (i : nat) (x : JS.num),
                  ch !! i = Some x ->
                  exists v : Z,
                    dataInt16 !! (i * numChannels + c)%nat = Some v
                    /\ x = JS.Fin (inject_Z v / 32768)
                    /\ (-1 <= inject_Z v / 32768)%Q
                    /\ (inject_Z v / 32768 < 1)%Q
  | None =>
      Nat.Odd (length data) \/ numChannels = 0%nat
      \/ (length data / 2 < numChannels)%nat
  end.
Proof.
  unfold Pcm.decodeAudioData.
  destruct (JS.int16s_of_bytes data) as [vs|] eqn:Hview.
  2: { left. now apply int16s_of_bytes_odd. }
  destruct (int16s_of_bytes_range data vs Hview) as [Hrange Hlen].
  destruct (numChannels =? 0)%nat eqn:Hnc; cbn [orb].
  { right. left. now apply Nat.eqb_eq. }
  apply Nat.eqb_neq in Hnc.
  destruct (length vs / numChannels =? 0)%nat eqn:Hfr.
  { right. right. apply Nat.eqb_eq in Hfr.
    apply Nat.div_small_iff in Hfr; [| exact Hnc].
    replace (length data / 2)%nat with (length vs); [exact Hfr |].
    rewrite Hlen, Nat.mul_comm. symmetry. now apply Nat.div_mul. }
  apply Nat.eqb_neq in Hfr.
  exists vs. cbn [WebAudio.length WebAudio.channelData].
  split; [reflexivity |]. split; [reflexivity |]. split; [lia |].
  split.
  { unfold WebAudio.numberOfChannels. cbn. now rewrite length_map, length_seq. }
  intros c ch Hch.
  rewrite list_lookup_fmap in Hch.
  destruct (seq 0 numChannels !! c) as [c'|] eqn:Hc; [| discriminate].
  apply lookup_seq in Hc. destruct Hc as [-> Hc]. cbn in Hch.
  injection Hch as <-.
  split.
  { now rewrite fillChannel_length, length_replicate. }
  intros i x Hx.
  assert (Hi : (i < length vs / numChannels)%nat).
  { apply lookup_lt_Some in Hx.
    now rewrite fillChannel_length, length_replicate in Hx. }
  rewrite fillChannel_lookup in Hx.
  - injection Hx as <-.
    assert (Hidx : (i * numChannels + c < length vs)%nat).
    { pose proof (Nat.Div0.mul_div_le (length vs) numChannels). nia. }
    apply lookup_lt_is_Some in Hidx. destruct Hidx as [v Hv].
    exists v. split; [exact Hv |].
    unfold Pcm.sampleAt. rewrite Hv. split; [reflexivity |].
    apply pcm16_unit_interval.
    eapply Forall_lookup_1 in Hrange; [exact Hrange | exact Hv].
  - destruct (length vs mod numChannels =? 0)%nat; lia.
  - now rewrite length_replicate.
Qed.

Lemma decodeAudioData_samples_witness :
  exists buffer : WebAudio.AudioBuffer,
    Pcm.decodeAudioData [x00; x80; xff; x7f] 24000 1 = Some buffer
    /\ WebAudio.numberOfChannels buffer = 1%nat
    /\ (1 <= WebAudio.length buffer)%nat.
Proof.
  pose proof (decodeAudioData_samples [x00; x80; xff; x7f] 24000 1) as H.
  destruct (Pcm.decodeAudioData [x00; x80; xff; x7f] 24000 1)
    as [buffer|] eqn:Hdec.
  - destruct H as (vs & _ & _ & Hlen & Hch & _).
    exists buffer. split; [reflexivity |]. split; [exact Hch | exact Hlen].
  - vm_compute in Hdec. discriminate Hdec.
Defined.

(** ** WAV container encoder *)

Lemma header_tags :
  JS.le32 0x46464952 = Wav.tag "RIFF"
  /\ JS.le32 0x45564157 = Wav.tag "WAVE"
  /\ JS.le32 0x20746d66 = Wav.tag "fmt "
  /\ JS.le32 0x61746164 = Wav.tag "data".
Proof. repeat split; vm_compute; reflexivity. Qed.

(** The header stores fill the first 44 bytes and leave [pos] at 44. *)
Lemma writeHeader_result (nc : nat) (rate : Z) (len : nat) (t : list byte) :
  Wav.writeHeader nc rate len
    {| Wav.view := replicate 44 x00 ++ t; Wav.pos := 0; Wav.offset := 0 |}
  = Some {| Wav.view :=
              Wav.spec_header nc rate (Z.of_nat len) (Z.of_nat len - 40 - 4)
              ++ t;
            Wav.pos := 44; Wav.offset := 0 |}.
Proof.
  destruct header_tags as (H1 & H2 & H3 & H4).
  unfold Wav.writeHeader, Wav.spec_header, Wav.setUint32, Wav.setUint16.
  rewrite H1, H2, H3, H4.
  replace (rate * Z.of_nat nc * 2) with (rate * 2 * Z.of_nat nc) by lia.
  generalize (Z.of_nat len - 8) (Z.of_nat nc) (rate * 2 * Z.of_nat nc)
             (Z.of_nat nc * 2).
  intros a b c d.
  cbn -[JS.byte_of_Z Z.shiftr Z.of_nat Z.sub].
  reflexivity.
Qed.

Lemma getChannelData_all (buffer : WebAudio.AudioBuffer) :
  map (WebAudio.getChannelData buffer)
      (seq 0 (WebAudio.numberOfChannels buffer))
  = WebAudio.channelData buffer.
Proof.
  unfold WebAudio.getChannelData, WebAudio.numberOfChannels.
  apply list_eq. intros i. rewrite list_lookup_fmap.
  destruct (WebAudio.channelData buffer !! i) as [ch|] eqn:Hi.
  - apply lookup_lt_Some in Hi as Hlt.
    rewrite (lookup_seq_lt _ _ _ Hlt). cbn. now rewrite Hi.
  - apply lookup_ge_None in Hi as Hge.
    now rewrite (lookup_seq_ge _ _ _ Hge).
Qed.

(** *** The data area *)

Lemma setBytes_append (pre bytes : list byte) (k : nat) :
  Wav.setBytes (length pre) bytes (pre ++ replicate (length bytes + k) x00)
  = Some (pre ++ bytes ++ replicate k x00).
Proof.
  unfold Wav.setBytes.
  rewrite length_app, length_replicate.
  replace (length pre + length bytes <=? length pre + (length bytes + k))%nat
    with true by (symmetry; apply Nat.leb_le; lia).
  rewrite take_app_length, drop_app_add, drop_replicate.
  replace (length bytes + k - length bytes)%nat with k by lia.
  reflexivity.
Qed.

Lemma writeChannels_bytes (channels : list (list JS.num)) (indices : list nat) :
  forall (w : Wav.Writer) (pre : list byte) (k : nat),
    Wav.view w = pre ++ replicate (2 * length indices + k) x00 ->
    length pre = (44 + Wav.offset w)%nat ->
    Wav.writeChannels channels indices w
    = Some {| Wav.view :=
                pre ++ flat_map (fun i => JS.le16 (Wav.quantize
                                     (Wav.read channels i (Wav.pos w))))
                         indices
                ++ replicate k x00;
              Wav.pos := Wav.pos w;
              Wav.offset := (Wav.offset w + 2 * length indices)%nat |}.
Proof.
  induction indices as [|i rest IH]; intros w pre k Hview Hpre.
  - cbn [Wav.writeChannels flat_map length app] in *.
    destruct w as [v p o]. cbn in *. subst v. do 2 f_equal. lia.
  - cbn [Wav.writeChannels]. unfold Wav.writeSample.
    rewrite Hview, <- Hpre. cbn [length].
    replace (2 * S (length rest) + k)%nat
      with (length (JS.le16 (Wav.quantize (Wav.read channels i (Wav.pos w))))
            + (2 * length rest + k))%nat by (cbn [JS.le16 length]; lia).
    rewrite setBytes_append. cbn [mbind option_bind].
    rewrite (IH _ (pre ++ JS.le16 (Wav.quantize
                             (Wav.read channels i (Wav.pos w)))) k).
    + cbn [Wav.pos Wav.offset flat_map]. rewrite <- !app_assoc.
      do 2 f_equal. lia.
    + cbn [Wav.view]. now rewrite <- app_assoc.
    + cbn [Wav.offset]. rewrite length_app. cbn [JS.le16 length]. lia.
Qed.

Lemma frameBytes_length (channels : list (list JS.num)) (nc p : nat) :
  length (Wav.frameBytes channels nc p) = (2 * nc)%nat.
Proof.
  unfold Wav.frameBytes.
  assert (Hl : forall l : list nat,
             length (flat_map (fun i => JS.le16 (Wav.quantize
                                           (Wav.read channels i p))) l)
             = (2 * length l)%nat).
  { induction l as [|x l IHl]; [reflexivity |].
    cbn [flat_map JS.le16 length app]. rewrite IHl. lia. }
  now rewrite Hl, length_seq.
Qed.

Lemma writeFrames_bytes (fuel bufferLength nc : nat)
    (channels : list (list JS.num)) :
  forall (w : Wav.Writer) (pre : list byte) (k : nat),
    (bufferLength - Wav.pos w <= fuel)%nat ->
    Wav.view w
    = pre ++ replicate (2 * nc * (bufferLength - Wav.pos w) + k) x00 ->
    length pre = (44 + Wav.offset w)%nat ->
    exists w',
      Wav.writeFrames fuel bufferLength nc channels w = Some w'
      /\ Wav.view w'
         = pre ++ flat_map (Wav.frameBytes channels nc)
                    (seq (Wav.pos w) (bufferLength - Wav.pos w))
           ++ replicate k x00.
Proof.
  induction fuel as [|fuel IH]; intros w pre k Hfuel Hview Hpre.
  - cbn [Wav.writeFrames].
    destruct (Wav.pos w <? bufferLength)%nat eqn:Hlt.
    { apply Nat.ltb_lt in Hlt. lia. }
    exists w. split; [reflexivity |].
    replace (bufferLength - Wav.pos w)%nat with 0%nat in *
      by (apply Nat.ltb_ge in Hlt; lia).
    rewrite Hview. cbn [seq flat_map app]. do 2 f_equal. lia.
  - cbn [Wav.writeFrames].
    destruct (Wav.pos w <? bufferLength)%nat eqn:Hlt.
    2: { exists w. split; [reflexivity |].
         replace (bufferLength - Wav.pos w)%nat with 0%nat in *
           by (apply Nat.ltb_ge in Hlt; lia).
         rewrite Hview. cbn [seq flat_map app]. do 2 f_equal. lia. }
    apply Nat.ltb_lt in Hlt.
    assert (Hsplit : (bufferLength - Wav.pos w
                      = S (bufferLength - S (Wav.pos w)))%nat) by lia.
    rewrite (writeChannels_bytes channels (seq 0 nc) w pre
               (2 * nc * (bufferLength - S (Wav.pos w)) + k)).
    2: { rewrite Hview, length_seq, Hsplit. do 2 f_equal. nia. }
    2: exact Hpre.
    cbn [mbind option_bind Wav.view Wav.pos Wav.offset].
    fold (Wav.frameBytes channels nc (Wav.pos w)).
    rewrite Nat.add_1_r, length_seq.
    destruct (IH {| Wav.view :=
                      pre ++ Wav.frameBytes channels nc (Wav.pos w)
                      ++ replicate
                           (2 * nc * (bufferLength - S (Wav.pos w)) + k) x00;
                    Wav.pos := S (Wav.pos w);
                    Wav.offset := Wav.offset w + 2 * nc |}
                (pre ++ Wav.frameBytes channels nc (Wav.pos w)) k)
      as (w' & Hrun & Hw').
    + cbn [Wav.pos]. lia.
    + cbn [Wav.view Wav.pos]. now rewrite <- app_assoc.
    + cbn [Wav.offset].
      rewrite length_app, Hpre, frameBytes_length. lia.
    + exists w'. split; [exact Hrun |]. rewrite Hw'. cbn [Wav.pos].
      rewrite Hsplit. cbn [seq flat_map].
      now rewrite <- !app_assoc.
Qed.

(** Every byte of the file.  After the header come the frames from index
    44 on (not from index 0: the sample loop runs on the cursor [pos],
    which the header stores have moved to 44), each sample through
    [Wav.quantize]; the slots left over at the end keep the zeros the
    buffer was created with. *)
Lemma audioBufferToWav_bytes (buffer : WebAudio.AudioBuffer) :
  let N := WebAudio.length buffer in
  let nc := WebAudio.numberOfChannels buffer in
  Wav.audioBufferToWav buffer
  = Some (Wav.spec_header nc (WebAudio.sampleRate buffer)
            (Z.of_nat (44 + 2 * N * nc)) (Z.of_nat (2 * N * nc))
          ++ flat_map (Wav.frameBytes (WebAudio.channelData buffer) nc)
               (seq 44 (N - 44))
          ++ replicate (2 * nc * Nat.min 44 N) x00).
Proof.
  intros N nc. unfold Wav.audioBufferToWav. fold N. fold nc.
  rewrite getChannelData_all.
  replace (replicate (N * nc * 2 + 44) x00)
    with (replicate 44 x00 ++ replicate (N * nc * 2) x00)
    by (rewrite <- replicate_add; f_equal; lia).
  rewrite writeHeader_result. cbn [mbind option_bind].
  set (header := Wav.spec_header _ _ _ _).
  destruct (writeFrames_bytes N N nc (WebAudio.channelData buffer)
              {| Wav.view := header ++ replicate (N * nc * 2) x00;
                 Wav.pos := 44; Wav.offset := 0 |}
              header (2 * nc * Nat.min 44 N))
    as (w' & -> & Hview).
  - cbn [Wav.pos]. lia.
  - cbn [Wav.view Wav.pos]. do 2 f_equal. nia.
  - reflexivity.
  - cbn [Wav.pos] in Hview. cbn [mbind option_bind]. rewrite Hview.
    unfold header. do 2 f_equal. f_equal; f_equal; lia.
Qed.

Lemma frames_length (channels : list (list JS.num)) (nc : nat)
    (frames : list nat) :
  length (flat_map (Wav.frameBytes channels nc) frames)
  = (2 * nc * length frames)%nat.
Proof.
  induction frames as [|p frames IH]; [cbn; lia |].
  cbn [flat_map length]. rewrite length_app, frameBytes_length, IH. lia.
Qed.

(** C5. For every sample buffer of [N] frames (mono in particular) the WAV
    encoder returns a byte buffer of length [44 + 2 * N * channels] whose
    first 44 bytes are, little-endian: 'RIFF', file length - 8, 'WAVE',
    'fmt ', 16, format 1, channel count, sample rate, byte rate
    [sampleRate * channels * 2], block align [channels * 2], 16 bits per
    sample, 'data', data length [2 * N * channels]. *)
Theorem audioBufferToWav_header (buffer : WebAudio.AudioBuffer) :
  let N := WebAudio.length buffer in
  let channels := WebAudio.numberOfChannels buffer in
  exists out : list byte,
    Wav.audioBufferToWav buffer = Some out
    /\ length out = (44 + 2 * N * channels)%nat
    /\ take 44 out
       = Wav.spec_header channels (WebAudio.sampleRate buffer)
           (Z.of_nat (44 + 2 * N * channels)) (Z.of_nat (2 * N * channels))
    /\ (channels = 1%nat -> length out = (44 + 2 * N)%nat).
Proof.
  intros N channels. rewrite audioBufferToWav_bytes. fold N. fold channels.
  set (header := Wav.spec_header _ _ _ _).
  assert (Hheader : length header = 44%nat) by reflexivity.
  eexists. split; [reflexivity |].
  assert (Hlen : length (header
                         ++ flat_map (Wav.frameBytes
                                        (WebAudio.channelData buffer) channels)
                              (seq 44 (N - 44))
                         ++ replicate (2 * channels * Nat.min 44 N) x00)
                 = (44 + 2 * N * channels)%nat).
  { rewrite !length_app, Hheader, frames_length, length_seq, length_replicate.
    nia. }
  split; [exact Hlen |]. split.
  - now rewrite take_app_length' by exact Hheader.
  - intros Hmono. rewrite Hlen, Hmono. lia.
Qed.

Lemma audioBufferToWav_header_witness :
  let buffer :=
    {| WebAudio.sampleRate := 16000; WebAudio.length := 3;
       WebAudio.channelData := [[JS.Fin 1; JS.Fin (-1); JS.Fin (1 # 2)]] |} in
  exists out : list byte,
    Wav.audioBufferToWav buffer = Some out /\ length out = 50%nat.
Proof.
  intros buffer.
  destruct (audioBufferToWav_header buffer) as (out & Hout & _ & _ & Hmono).
  exists out. split; [exact Hout |]. apply Hmono. reflexivity.
Defined.

(** ** WAV quantization *)

Lemma clamp_range (s : Q) : (-1 <= Wav.clamp s)%Q /\ (Wav.clamp s <= 1)%Q.
Proof.
  unfold Wav.clamp.
  destruct (Qlt_le_dec s 1) as [H1 | H1];
    destruct (Qlt_le_dec (-1) _) as [H2 | H2]; split;
    auto using Qlt_le_weak, Qle_refl; try (unfold Qle; cbn; lia).
Qed.

Lemma clamp_scaled (c : Q) (k : Z) :
  (-1 <= c)%Q -> (c <= 1)%Q -> 0 < k ->
  (inject_Z (- k) <= c * inject_Z k)%Q /\ (c * inject_Z k <= inject_Z k)%Q.
Proof.
  destruct c as [n d]. unfold Qle, Qmult, inject_Z. cbn [Qnum Qden].
  rewrite Pos.mul_1_r, !Z.mul_1_r. intros Hlo Hhi Hk.
  assert (H1 : 0 <= (n + Z.pos d) * k) by (apply Z.mul_nonneg_nonneg; lia).
  assert (H2 : 0 <= (Z.pos d - n) * k) by (apply Z.mul_nonneg_nonneg; lia).
  rewrite Z.mul_add_distr_r in H1. rewrite Z.mul_sub_distr_r in H2.
  rewrite (Z.mul_comm (Z.pos d) k) in H1, H2. lia.
Qed.

(** What the encoder computes for a finite sample: the clamped value times
    32768 when it lies below -0.5, times 32767 otherwise, truncated. *)
Lemma wav_quantize_finite (s : Q) :
  Wav.quantize (JS.Fin s)
  = JS.truncate
      (if Qlt_le_dec ((1 # 2) + Wav.clamp s) 0
       then Wav.clamp s * 32768 else Wav.clamp s * 32767)%Q.
Proof.
  destruct (clamp_range s) as [Hlo Hhi].
  unfold Wav.quantize, JS.min, JS.max. fold (Wav.clamp s).
  unfold JS.plus, JS.negative.
  destruct (Qlt_le_dec ((1 # 2) + Wav.clamp s) 0) as [Hneg | Hnn];
    unfold JS.scale, JS.toInt32, JS.toInt; apply wrap32_small.
  - destruct (clamp_scaled (Wav.clamp s) 32768 Hlo Hhi ltac:(lia)) as [H1 H2].
    pose proof (truncate_between _ _ _ H1 H2) as Hb.
    unfold inject_Z in Hb. lia.
  - destruct (clamp_scaled (Wav.clamp s) 32767 Hlo Hhi ltac:(lia)) as [H1 H2].
    pose proof (truncate_between _ _ _ H1 H2) as Hb.
    unfold inject_Z in Hb. lia.
Qed.

(** Away from the interval [-0.5, 0) the encoder follows the rule of the
    specification. *)
Lemma wav_quantize_agrees (s : Q) :
  (s < - (1 # 2))%Q \/ (0 <= s)%Q ->
  Wav.quantize (JS.Fin s) = Wav.spec_quantize s.
Proof.
  intros Hs. rewrite wav_quantize_finite. unfold Wav.spec_quantize.
  assert (Hc : (Wav.clamp s < - (1 # 2))%Q \/ (0 <= Wav.clamp s)%Q).
  { unfold Wav.clamp.
    destruct (Qlt_le_dec s 1) as [H1 | H1];
      destruct (Qlt_le_dec (-1) _) as [H2 | H2]; destruct Hs as [Hs | Hs];
      auto; try (right; unfold Qle; cbn; lia); try (left; unfold Qlt; cbn; lia). }
  destruct (Qlt_le_dec ((1 # 2) + Wav.clamp s) 0) as [Hneg | Hnn];
    destruct (Qlt_le_dec (Wav.clamp s) 0) as [Hneg' | Hnn'];
    try reflexivity; exfalso; revert Hc Hneg Hnn' || revert Hc Hnn Hneg';
    destruct (Wav.clamp s) as [n d]; unfold Qle, Qlt; cbn; lia.
Qed.

(** C1, at a concrete buffer.  A mono buffer of 46 samples: 44 samples of
    1.0, then -0.25, then -1.0.  The rule of the specification gives 32767
    for each of the first 44 samples and -8192 for -0.25.  The encoder
    writes -8191 for -0.25 (the scale is chosen by the test
    [0.5 + sample < 0], not [sample < 0]), and it writes it as the first
    sample of the data area: the loop starts at [pos] = 44, where the header
    stores left the shared cursor, so samples 0 to 43 are never read and the
    last 44 slots stay zero. *)
Theorem audioBufferToWav_quantization_defect :
  let samples :=
    replicate 44 (JS.Fin 1) ++ [JS.Fin (-1 # 4); JS.Fin (-1)] in
  let buffer :=
    {| WebAudio.sampleRate := 16000; WebAudio.length := 46;
       WebAudio.channelData := [samples] |} in
  drop 44 <$> Wav.audioBufferToWav buffer
  = Some (JS.bytes_of_int16s ([-8191; -32768] ++ replicate 44 0))
  /\ map Wav.spec_quantize (replicate 44 1%Q ++ [(-1 # 4)%Q; (-1)%Q])
     = replicate 44 32767 ++ [-8192; -32768]
  /\ Wav.quantize (JS.Fin (-1 # 4)) = -8191
  /\ Wav.spec_quantize (-1 # 4) = -8192.
Proof. repeat split; vm_compute; reflexivity. Qed.

(** ** Chunker *)

Lemma sliceLoop_done (fuel spc : nat) (pcm : list JS.num) (start idx : nat) :
  (length pcm <= start)%nat ->
  Chunker.sliceLoop fuel spc pcm start idx = Some [].
Proof.
  intros Hge. destruct fuel; cbn [Chunker.sliceLoop];
    (destruct (start <? length pcm)%nat eqn:Hlt;
     [apply Nat.ltb_lt in Hlt; lia | reflexivity]).
Qed.

Lemma slice_length (start stop : nat) (pcm : list JS.num) :
  (start <= stop <= length pcm)%nat ->
  length (Chunker.slice start stop pcm) = (stop - start)%nat.
Proof.
  intros H. unfold Chunker.slice. rewrite length_take, length_drop. lia.
Qed.

Lemma slice_then_rest (start stop : nat) (pcm : list JS.num) :
  (start <= stop)%nat ->
  Chunker.slice start stop pcm ++ drop stop pcm = drop start pcm.
Proof.
  intros H. unfold Chunker.slice.
  replace stop with (start + (stop - start))%nat at 2 by lia.
  rewrite <- drop_drop. apply take_drop.
Qed.

(** The cutting loop, from any cursor: it returns; the parts joined give
    the samples from the cursor on; indices count up; every part but the
    last has the full size and none is empty or longer. *)
Lemma sliceLoop_spec (fuel spc : nat) (pcm : list JS.num) (start idx : nat) :
  (1 <= spc)%nat -> (length pcm - start <= fuel)%nat ->
  exists chunks : list Chunker.Chunk,
    Chunker.sliceLoop fuel spc pcm start idx = Some chunks
    /\ concat (map Chunker.chunkData chunks) = drop start pcm
    /\ map Chunker.partIndex chunks = seq idx (length chunks)
    /\ (forall i c, chunks !! i = Some c -> (S i < length chunks)%nat ->
          length (Chunker.chunkData c) = spc)
    /\ Forall (fun c => (1 <= length (Chunker.chunkData c) <= spc)%nat
                        /\ Chunker.chunkFile c
                           = Chunker.audioDataToWavFile (Chunker.chunkData c)
                               Chunker.TARGET_SAMPLE_RATE) chunks
    /\ ((length pcm - start <= spc)%nat -> (length chunks <= 1)%nat).
Proof.
  intros Hspc. revert start idx.
  induction fuel as [|fuel IH]; intros start idx Hfuel.
  - exists []. rewrite sliceLoop_done by lia.
    rewrite drop_ge by lia.
    repeat split; auto; try (intros; cbn; lia).
    intros i c Hc. discriminate Hc.
  - destruct (le_lt_dec (length pcm) start) as [Hge | Hlt].
    + exists []. rewrite sliceLoop_done by lia.
      rewrite drop_ge by lia.
      repeat split; auto; try (intros; cbn; lia).
      intros i c Hc. discriminate Hc.
    + cbn [Chunker.sliceLoop].
      apply Nat.ltb_lt in Hlt as Hb. rewrite Hb.
      set (stop := Nat.min (start + spc) (length pcm)).
      assert (Hstop : (start < stop <= length pcm)%nat) by (unfold stop; lia).
      destruct (IH stop (idx + 1)%nat ltac:(lia))
        as (rest & -> & Hcat & Hidx & Hfull & Hall & Hone).
      assert (Hnil : (length pcm <= stop)%nat -> rest = []).
      { intros Hend. destruct rest as [|c rest]; [reflexivity |]. exfalso.
        apply (f_equal (@length _)) in Hcat.
        rewrite length_drop in Hcat. cbn [map concat] in Hcat.
        rewrite length_app in Hcat.
        apply Forall_cons in Hall. destruct Hall as [[Hc _] _]. lia. }
      cbn [mbind option_bind]. eexists. split; [reflexivity |].
      cbn [map concat length Chunker.chunkData Chunker.partIndex].
      split; [rewrite Hcat; apply slice_then_rest; lia |].
      split; [cbn [seq]; rewrite Hidx; do 2 f_equal; lia |].
      split; [| split].
      * intros [|i] c Hc Hi.
        -- injection Hc as <-. cbn [Chunker.chunkData].
           rewrite slice_length by lia.
           destruct (le_lt_dec (length pcm) stop) as [Hend | Hmore].
           ++ rewrite (Hnil Hend) in Hi. cbn in Hi. lia.
           ++ unfold stop in *. lia.
        -- apply (Hfull i c Hc). lia.
      * constructor; [| exact Hall]. cbn [Chunker.chunkData Chunker.chunkFile].
        rewrite slice_length by lia. split; [unfold stop; lia | reflexivity].
      * intros Hsmall.
        assert (Hend : (length pcm <= stop)%nat) by (unfold stop; lia).
        rewrite (Hnil Hend). cbn. lia.
Qed.

Lemma truncate_upper (q : Q) (b : Z) :
  (q <= inject_Z b)%Q -> JS.truncate q <= b.
Proof.
  destruct q as [n d]. unfold Qle, JS.truncate. cbn [Qnum Qden inject_Z].
  intros Hb.
  pose proof (Z.quot_rem' n (Z.pos d)) as Hqr.
  pose proof (Z.rem_bound_abs n (Z.pos d) ltac:(lia)) as Habs.
  nia.
Qed.

(** ** Playback scheduler *)

Lemma catchUp_max (next now : Q) : Scheduler.catchUp next now = Qmax next now.
Proof.
  unfold Scheduler.catchUp.
  destruct (Qlt_le_dec next now) as [Hlt | Hle].
  - unfold Qmax, GenericMinMax.gmax.
    destruct (Qcompare next now) eqn:Hc; try reflexivity; exfalso.
    + apply Qeq_alt in Hc. rewrite Hc in Hlt. exact (Qlt_irrefl _ Hlt).
    + apply Qgt_alt in Hc. apply (Qlt_irrefl now).
      eapply Qlt_trans; eassumption.
  - unfold Qmax, GenericMinMax.gmax.
    destruct (Qcompare next now) eqn:Hc; try reflexivity.
    apply Qlt_alt in Hc. exfalso. apply (Qlt_irrefl now).
    eapply Qle_lt_trans; eassumption.
Qed.

(** One playable message without the interruption flag: a single start,
    at the cursor caught up with the clock; the cursor then moves on by
    the duration, and the new source joins the active set. *)
Lemma handle_playable (now : Q) (m : Scheduler.Message)
    (buf : WebAudio.AudioBuffer) (st : Scheduler.State) :
  Scheduler.interrupted m = false ->
  Scheduler.decoded m = Some buf ->
  Scheduler.handleServerMessage (Some now) m st
  = ({| Scheduler.nextStartTime :=
          Qmax (Scheduler.nextStartTime st) now + WebAudio.duration buf;
        Scheduler.sources :=
          {[Scheduler.created st]} ∪ Scheduler.sources st;
        Scheduler.created := S (Scheduler.created st) |},
     [Scheduler.Start (Scheduler.created st)
        (Qmax (Scheduler.nextStartTime st) now)]).
Proof.
  intros Hint Hdec. unfold Scheduler.handleServerMessage, Scheduler.decoded in *.
  rewrite Hint.
  destruct (Scheduler.base64Audio m) as [[|c s]|]; try discriminate Hdec.
  unfold Scheduler.handleAudio. rewrite Hdec, catchUp_max. reflexivity.
Qed.

Lemma spec_schedule_gap (items : list (Q * Q)) :
  forall (next : Q) (i : nat) (s s' now d : Q),
    Scheduler.spec_schedule next items !! i = Some s ->
    items !! i = Some (now, d) ->
    Scheduler.spec_schedule next items !! S i = Some s' ->
    (s + d <= s')%Q.
Proof.
  induction items as [|[now0 d0] items IH]; intros next i s s' now d Hs Hi Hs'.
  - discriminate Hi.
  - destruct i as [|i].
    + cbn in Hs, Hi, Hs'. injection Hs as <-. injection Hi as <- <-.
      destruct items as [|[now1 d1] items]; [discriminate Hs' |].
      cbn in Hs'. injection Hs' as <-. apply Q.le_max_l.
    + cbn in Hs, Hi, Hs'. eapply IH; eassumption.
Qed.

Lemma run_playable (arrivals : list (Q * Scheduler.Message))
    (items : list (Q * Q)) :
  Forall2 (fun a item =>
             Scheduler.interrupted (snd a) = false
             /\ fst a = fst item
             /\ exists buf, Scheduler.decoded (snd a) = Some buf
                            /\ WebAudio.duration buf = snd item)
          arrivals items ->
  forall st : Scheduler.State,
    Scheduler.startTimes (snd (Scheduler.run arrivals st))
    = Scheduler.spec_schedule (Scheduler.nextStartTime st) items.
Proof.
  induction 1 as [|[now m] [now' d] arrivals items Hhead _ IH]; intros st.
  - reflexivity.
  - cbn [fst snd] in Hhead. destruct Hhead as (Hint & <- & buf & Hdec & Hd).
    cbn [Scheduler.run]. rewrite (handle_playable now m buf st Hint Hdec).
    specialize (IH {| Scheduler.nextStartTime :=
                        Qmax (Scheduler.nextStartTime st) now
                        + WebAudio.duration buf;
                      Scheduler.sources :=
                        {[Scheduler.created st]} ∪ Scheduler.sources st;
                      Scheduler.created := S (Scheduler.created st) |}).
    destruct (Scheduler.run arrivals _) as [st2 effects2].
    cbn [snd Scheduler.nextStartTime] in IH. cbn [snd app].
    cbn [Scheduler.spec_schedule]. rewrite <- Hd, <- IH.
    reflexivity.
Qed.

(** C6. Playable items arriving in order, without interruption: the start
    time of each is [max(nextStartTime, now)], after which the cursor is
    advanced by the duration of the item; hence
    [start(i+1) >= start(i) + d(i)] for every [i], and the first start is
    not before the clock reading at its arrival. *)
Theorem scheduler_start_times (st : Scheduler.State)
    (arrivals : list (Q * Scheduler.Message)) (items : list (Q * Q)) :
  Forall2 (fun a item =>
             Scheduler.interrupted (snd a) = false
             /\ fst a = fst item
             /\ exists buf, Scheduler.decoded (snd a) = Some buf
                            /\ WebAudio.duration buf = snd item)
          arrivals items ->
  let starts := Scheduler.startTimes (snd (Scheduler.run arrivals st)) in
  starts = Scheduler.spec_schedule (Scheduler.nextStartTime st) items
  /\ length starts = length arrivals
  /\ (forall now d s, items !! 0%nat = Some (now, d) ->
        starts !! 0%nat = Some s -> (now <= s)%Q)
  /\ (forall i now d s s', items !! i = Some (now, d) ->
        starts !! i = Some s -> starts !! S i = Some s' -> (s + d <= s')%Q)
  /\ (forall now m buf,
        Scheduler.interrupted m = false ->
        Scheduler.decoded m = Some buf ->
        Scheduler.handleServerMessage (Some now) m st
        = ({| Scheduler.nextStartTime :=
                Qmax (Scheduler.nextStartTime st) now + WebAudio.duration buf;
              Scheduler.sources :=
                {[Scheduler.created st]} ∪ Scheduler.sources st;
              Scheduler.created := S (Scheduler.created st) |},
           [Scheduler.Start (Scheduler.created st)
              (Qmax (Scheduler.nextStartTime st) now)])).
Proof.
  intros Hall starts.
  assert (Hstarts : starts
                    = Scheduler.spec_schedule (Scheduler.nextStartTime st) items)
    by (apply run_playable; exact Hall).
  split; [exact Hstarts |]. rewrite Hstarts. split; [| split; [| split]].
  4: { intros now m buf Hint Hdec. now apply handle_playable. }
  - apply Forall2_length in Hall. rewrite Hall.
    clear. generalize (Scheduler.nextStartTime st).
    induction items as [|[now d] items IH]; intros next; [reflexivity |].
    cbn. now rewrite IH.
  - intros now d s Hi Hs. destruct items as [|[now0 d0] items]; [discriminate |].
    cbn in Hi, Hs. injection Hi as <- <-. injection Hs as <-.
    apply Q.le_max_r.
  - intros i now d s s' Hi Hs Hs'. eapply spec_schedule_gap; eassumption.
Qed.

Lemma handle_interruption_only (now : Q) (st : Scheduler.State) :
  Scheduler.handleServerMessage (Some now)
    {| Scheduler.interrupted := true; Scheduler.base64Audio := None |} st
  = ({| Scheduler.nextStartTime := 0; Scheduler.sources := ∅;
        Scheduler.created := Scheduler.created st |},
     map Scheduler.Stop (elements (Scheduler.sources st))).
Proof. reflexivity. Qed.

Lemma handle_interrupted_playable (now : Q) (m : Scheduler.Message)
    (buf : WebAudio.AudioBuffer) (st : Scheduler.State) :
  Scheduler.interrupted m = true ->
  Scheduler.decoded m = Some buf ->
  Scheduler.handleServerMessage (Some now) m st
  = ({| Scheduler.nextStartTime := Qmax 0 now + WebAudio.duration buf;
        Scheduler.sources := {[Scheduler.created st]} ∪ ∅;
        Scheduler.created := S (Scheduler.created st) |},
     map Scheduler.Stop (elements (Scheduler.sources st))
     ++ [Scheduler.Start (Scheduler.created st) (Qmax 0 now)]).
Proof.
  intros Hint Hdec. unfold Scheduler.handleServerMessage, Scheduler.decoded in *.
  rewrite Hint.
  destruct (Scheduler.base64Audio m) as [[|c s]|]; try discriminate Hdec.
  unfold Scheduler.handleInterruption, Scheduler.handleAudio.
  cbn [Scheduler.nextStartTime Scheduler.sources Scheduler.created].
  rewrite Hdec, catchUp_max. reflexivity.
Qed.

(** C7. After an interruption, whatever the state before it (the active
    set may be empty): every scheduled item has been stopped, the active
    set is empty and the cursor is 0, so the start time of the next item is
    taken from the clock at its arrival and not from the cursor of before;
    a second interruption in a row changes nothing. *)
Theorem interruption_resets (st : Scheduler.State) (now : Q) :
  let interruption :=
    {| Scheduler.interrupted := true; Scheduler.base64Audio := None |} in
  let after := fst (Scheduler.handleServerMessage (Some now) interruption st) in
  let stops := snd (Scheduler.handleServerMessage (Some now) interruption st) in
  (forall source, source ∈ Scheduler.sources st
                  <-> Scheduler.Stop source ∈ stops)
  /\ Scheduler.startTimes stops = []
  /\ Scheduler.sources after = ∅
  /\ Scheduler.nextStartTime after = 0%Q
  /\ (forall now', Scheduler.handleServerMessage (Some now') interruption after
                   = (after, []))
  /\ (forall now' m buf,
        Scheduler.interrupted m = false ->
        Scheduler.decoded m = Some buf ->
        Scheduler.startTimes
          (snd (Scheduler.handleServerMessage (Some now') m after))
        = [Qmax 0 now']
        /\ ((0 <= now')%Q -> (Qmax 0 now' == now')%Q))
  /\ (forall m buf,
        Scheduler.interrupted m = true ->
        Scheduler.decoded m = Some buf ->
        Scheduler.startTimes
          (snd (Scheduler.handleServerMessage (Some now) m st))
        = [Qmax 0 now]).
Proof.
  intros interruption after stops. unfold after, stops, interruption.
  rewrite handle_interruption_only. cbn [fst snd].
  split.
  { intros source. rewrite list_elem_of_fmap. split.
    - intros Hin. exists source. split; [reflexivity |].
      now apply elem_of_elements.
    - intros (y & [= ->] & Hy). now apply elem_of_elements in Hy. }
  split.
  { unfold Scheduler.startTimes.
    induction (elements (Scheduler.sources st)) as [|x l IH];
      [reflexivity | exact IH]. }
  split; [reflexivity |]. split; [reflexivity |]. split.
  { intros now'. rewrite handle_interruption_only.
    cbn [Scheduler.sources Scheduler.created]. now rewrite elements_empty. }
  split.
  - intros now' m buf Hint Hdec.
    rewrite (handle_playable now' m buf _ Hint Hdec). cbn.
    split; [reflexivity |]. intros Hnow. now apply Q.max_r.
  - intros m buf Hint Hdec.
    rewrite (handle_interrupted_playable now m buf st Hint Hdec).
    cbn [snd]. unfold Scheduler.startTimes. rewrite omap_app.
    replace (omap _ (map Scheduler.Stop _)) with (@nil Q); [reflexivity |].
    induction (elements (Scheduler.sources st)) as [|x l IH];
      [reflexivity | exact IH].
Qed.

Lemma scheduler_start_times_witness :
  let tick := {| Scheduler.interrupted := false;
                 Scheduler.base64Audio := Some "AAA="%string |} in
  let d := (inject_Z 1 / inject_Z 24000)%Q in
  let st := {| Scheduler.nextStartTime := 0; Scheduler.sources := ∅;
               Scheduler.created := 0 |} in
  let starts :=
    Scheduler.startTimes
      (snd (Scheduler.run [(5%Q, tick); (5%Q, tick)] st)) in
  starts = Scheduler.spec_schedule 0 [(5%Q, d); (5%Q, d)]
  /\ length starts = 2%nat.
Proof.
  intros tick d st starts.
  destruct (scheduler_start_times st [(5%Q, tick); (5%Q, tick)]
              [(5%Q, d); (5%Q, d)]) as (H1 & H2 & _).
  - repeat constructor; cbn [fst snd];
      (eexists; split; [vm_compute; reflexivity | reflexivity]).
  - split; [exact H1 | exact H2].
Defined.

Lemma interruption_resets_witness :
  let st := {| Scheduler.nextStartTime := 9; Scheduler.sources := {[0%nat]};
               Scheduler.created := 1 |} in
  let tick := {| Scheduler.interrupted := false;
                 Scheduler.base64Audio := Some "AAA="%string |} in
  let after :=
    fst (Scheduler.handleServerMessage (Some 2%Q)
           {| Scheduler.interrupted := true;
              Scheduler.base64Audio := None |} st) in
  Scheduler.startTimes
    (snd (Scheduler.handleServerMessage (Some 3%Q) tick after))
  = [Qmax 0 3]
  /\ (Qmax 0 3 == 3)%Q.
Proof.
  intros st tick after.
  destruct (interruption_resets st 2) as (_ & _ & _ & _ & _ & Hnext & _).
  destruct (Hnext 3%Q tick
              {| WebAudio.sampleRate := 24000; WebAudio.length := 1;
                 WebAudio.channelData := [[JS.Fin (inject_Z 0 / 32768)]] |})
    as [Hstart Hclock].
  - reflexivity.
  - vm_compute. reflexivity.
  - split; [exact Hstart |]. apply Hclock. unfold Qle. simpl. lia.
Defined.

(** ** Retrying sequential dispatcher *)

Lemma transient_twice_then_answer (file : Dispatcher.File) (payload : string)
    (e1 e2 : Dispatcher.JsError) (text : option string)
    (rest : list Dispatcher.Response) (tr : list Dispatcher.Event) :
  Dispatcher.base64 file = Some payload ->
  Dispatcher.isOverloaded e1 = true ->
  Dispatcher.isOverloaded e2 = true ->
  Dispatcher.transcribeSingleFile file
    {| Dispatcher.responses :=
         Dispatcher.Failure e1 :: Dispatcher.Failure e2
         :: Dispatcher.Answer text :: rest;
       Dispatcher.trace := tr |}
  = Some (Dispatcher.Return (match text with Some t => t | None => "" end),
          {| Dispatcher.responses := rest;
             Dispatcher.trace :=
               tr ++ [Dispatcher.Call (Dispatcher.name file);
                      Dispatcher.Wait Dispatcher.RETRY_DELAY_MS;
                      Dispatcher.Call (Dispatcher.name file);
                      Dispatcher.Wait (2 * Dispatcher.RETRY_DELAY_MS);
                      Dispatcher.Call (Dispatcher.name file)] |}).
Proof.
  intros Hread H1 H2. unfold Dispatcher.transcribeSingleFile. rewrite Hread.
  cbn [Dispatcher.attemptLoop Dispatcher.maxRetries Nat.ltb Nat.leb
       Dispatcher.generateContent Dispatcher.responses Dispatcher.trace
       Dispatcher.wait Nat.sub Nat.add andb].
  rewrite H1.
  cbn [Dispatcher.attemptLoop Dispatcher.maxRetries Nat.ltb Nat.leb
       Dispatcher.generateContent Dispatcher.responses Dispatcher.trace
       Dispatcher.wait Nat.sub Nat.add andb].
  rewrite H2.
  cbn [Dispatcher.attemptLoop Dispatcher.maxRetries Nat.ltb Nat.leb
       Dispatcher.generateContent Dispatcher.responses Dispatcher.trace
       Dispatcher.wait Nat.sub Nat.add andb].
  rewrite <- !app_assoc. reflexivity.
Qed.

Lemma fatal_first_attempt (file : Dispatcher.File) (payload : string)
    (e : Dispatcher.JsError) (rest : list Dispatcher.Response)
    (tr : list Dispatcher.Event) :
  Dispatcher.base64 file = Some payload ->
  Dispatcher.isOverloaded e = false ->
  Dispatcher.transcribeSingleFile file
    {| Dispatcher.responses := Dispatcher.Failure e :: rest;
       Dispatcher.trace := tr |}
  = Some (Dispatcher.Throw e,
          {| Dispatcher.responses := rest;
             Dispatcher.trace := tr ++ [Dispatcher.Call (Dispatcher.name file)] |}).
Proof.
  intros Hread He. unfold Dispatcher.transcribeSingleFile. rewrite Hread.
  cbn [Dispatcher.attemptLoop Dispatcher.maxRetries Nat.ltb Nat.leb
       Dispatcher.generateContent Dispatcher.responses Dispatcher.trace].
  now rewrite He.
Qed.

(** The loop over a list of parts followed by more parts: the first run,
    then, if it completed, the rest from where it stopped. *)
Lemma partsLoop_app (done more : list Dispatcher.File) :
  forall (i : nat) (full shown : string) (w : Dispatcher.World),
    Dispatcher.partsLoop (done ++ more) i full shown w
    = match Dispatcher.partsLoop done i full shown w with
      | Some (Dispatcher.Return full', shown', w') =>
          Dispatcher.partsLoop more (i + length done) full' shown' w'
      | other => other
      end.
Proof.
  induction done as [|f done IH]; intros i full shown w.
  - cbn. now rewrite Nat.add_0_r.
  - cbn [app Dispatcher.partsLoop length].
    destruct (Dispatcher.transcribeSingleFile f _) as [[[partText | e] w1]|];
      try reflexivity.
    replace (i + S (length done))%nat with (i + 1 + length done)%nat by lia.
    destruct (Dispatcher.nonEmpty partText); apply IH.
Qed.

(** What is displayed is the accumulated transcript as soon as there is
    one. *)
Lemma partsLoop_shown (parts : list Dispatcher.File) :
  forall (i : nat) (full shown : string) (w : Dispatcher.World)
         (full' shown' : string) (w' : Dispatcher.World),
    Dispatcher.partsLoop parts i full shown w
    = Some (Dispatcher.Return full', shown', w') ->
    (Dispatcher.nonEmpty full = true -> shown = full) ->
    (Dispatcher.nonEmpty full' = true -> shown' = full').
Proof.
  induction parts as [|f parts IH]; intros i full shown w full' shown' w' Hrun Hinv.
  - cbn in Hrun. injection Hrun as <- <- <-. exact Hinv.
  - cbn [Dispatcher.partsLoop] in Hrun.
    destruct (Dispatcher.transcribeSingleFile f _) as [[[partText | e] w1]|];
      try discriminate Hrun.
    destruct (Dispatcher.nonEmpty partText).
    + eapply IH; [exact Hrun | reflexivity].
    + eapply IH; [exact Hrun | exact Hinv].
Qed.

Lemma string_app_assoc (a b c : string) :
  ((a ++ b) ++ c = a ++ b ++ c)%string.
Proof.
  induction a as [|x a IH]; [reflexivity |].
  change (String x ((a ++ b) ++ c) = String x (a ++ b ++ c))%string.
  now rewrite IH.
Qed.

Lemma nonEmpty_app (a b : string) :
  Dispatcher.nonEmpty a = true -> Dispatcher.nonEmpty (a ++ b)%string = true.
Proof. now destruct a. Qed.

(** The accumulation of the loop is the joining with blank lines. *)
Lemma accumulate_paragraphs (l : list string) :
  forall acc : string,
    Dispatcher.nonEmpty acc = true ->
    fold_left
      (fun full t =>
         (full ++ (if Dispatcher.nonEmpty full
                   then Dispatcher.newline ++ Dispatcher.newline else "")
          ++ t)%string) l acc
    = Measure.paragraphs (acc :: l).
Proof.
  induction l as [|t l IH]; intros acc Hacc; [reflexivity |].
  cbn [fold_left]. rewrite Hacc.
  rewrite IH by now apply nonEmpty_app.
  unfold Measure.paragraphs. cbn [String.concat].
  destruct l as [|u l]; [reflexivity |].
  now rewrite !string_app_assoc.
Qed.

Lemma accumulate_kept (texts : list string) :
  fold_left
    (fun full t =>
       (full ++ (if Dispatcher.nonEmpty full
                 then Dispatcher.newline ++ Dispatcher.newline else "")
        ++ t)%string)
    (filter (fun t => Dispatcher.nonEmpty t = true) texts) ""%string
  = Measure.paragraphs (filter (fun t => Dispatcher.nonEmpty t = true) texts).
Proof.
  destruct (filter _ texts) as [|t kept] eqn:Hkept; [reflexivity |].
  assert (Ht : Dispatcher.nonEmpty t = true).
  { assert (Hin : t ∈ t :: kept) by left.
    rewrite <- Hkept in Hin. now apply list_elem_of_filter in Hin. }
  cbn [fold_left Dispatcher.nonEmpty].
  change ("" ++ "" ++ t)%string with t.
  now apply accumulate_paragraphs.
Qed.

(** The loop over parts that all return: the transcript is accumulated
    from the texts returned, and displayed from the first one that is not
    empty. *)
Lemma partsLoop_returned (parts : list Dispatcher.File) :
  forall (i : nat) (full shown : string) (w : Dispatcher.World)
         (texts : list string) (w1 : Dispatcher.World),
    Measure.returned i parts w = Some (texts, w1) ->
    Dispatcher.partsLoop parts i full shown w
    = Some (Dispatcher.Return
              (fold_left
                 (fun full t =>
                    (full ++ (if Dispatcher.nonEmpty full
                              then Dispatcher.newline ++ Dispatcher.newline
                              else "")
                     ++ t)%string)
                 (filter (fun t => Dispatcher.nonEmpty t = true) texts) full),
            match filter (fun t => Dispatcher.nonEmpty t = true) texts with
            | [] => shown
            | kept =>
                fold_left
                  (fun full t =>
                     (full ++ (if Dispatcher.nonEmpty full
                               then Dispatcher.newline ++ Dispatcher.newline
                               else "")
                      ++ t)%string) kept full
            end,
            w1).
Proof.
  induction parts as [|f parts IH]; intros i full shown w texts w1 Hret.
  - cbn in Hret. injection Hret as <- <-. reflexivity.
  - cbn [Measure.returned] in Hret. cbn [Dispatcher.partsLoop].
    destruct (Dispatcher.transcribeSingleFile f _) as [[[text | e] w']|];
      try discriminate Hret.
    destruct (Measure.returned (i + 1) parts w') as [[rest w'']|] eqn:Hrest;
      try discriminate Hret.
    injection Hret as <- <-.
    destruct (Dispatcher.nonEmpty text) eqn:Hne.
    + rewrite (IH _ _ _ _ _ _ Hrest).
      rewrite filter_cons_True by exact Hne. cbn [fold_left].
      now destruct (filter _ rest).
    + rewrite (IH _ _ _ _ _ _ Hrest).
      rewrite filter_cons_False by (rewrite Hne; discriminate).
      reflexivity.
Qed.

(** C8. A part whose request fails twice with a transient signature (503,
    overloaded, UNAVAILABLE, 429) and then succeeds takes exactly three
    requests, with waits of the base delay and of twice the base delay
    between them.  A part whose request fails with any other error takes
    exactly one request; the parts after it are not requested, and the
    texts returned for the parts before it are retained: what is displayed
    is those texts, the empty ones left out, joined by blank lines and
    followed by the abort note (when none of them has text, what was on
    display before, followed by the note). *)
Theorem dispatcher_retry_and_abort (file : Dispatcher.File) (payload : string)
    (rest : list Dispatcher.Response) :
  Dispatcher.base64 file = Some payload ->
  (forall e1 e2 text tr,
     Dispatcher.isOverloaded e1 = true ->
     Dispatcher.isOverloaded e2 = true ->
     Dispatcher.transcribeSingleFile file
       {| Dispatcher.responses :=
            Dispatcher.Failure e1 :: Dispatcher.Failure e2
            :: Dispatcher.Answer text :: rest;
          Dispatcher.trace := tr |}
     = Some (Dispatcher.Return (match text with Some t => t | None => "" end),
             {| Dispatcher.responses := rest;
                Dispatcher.trace :=
                  tr ++ [Dispatcher.Call (Dispatcher.name file);
                         Dispatcher.Wait Dispatcher.RETRY_DELAY_MS;
                         Dispatcher.Call (Dispatcher.name file);
                         Dispatcher.Wait (2 * Dispatcher.RETRY_DELAY_MS);
                         Dispatcher.Call (Dispatcher.name file)] |}))
  /\ (forall e,
        Dispatcher.isOverloaded e = false ->
        (forall tr,
           Dispatcher.transcribeSingleFile file
             {| Dispatcher.responses := Dispatcher.Failure e :: rest;
                Dispatcher.trace := tr |}
           = Some (Dispatcher.Throw e,
                   {| Dispatcher.responses := rest;
                      Dispatcher.trace :=
                        tr ++ [Dispatcher.Call (Dispatcher.name file)] |}))
        /\ forall done remaining shown w texts w1,
             Measure.returned 0 done w = Some (texts, w1) ->
             Dispatcher.responses w1 = Dispatcher.Failure e :: rest ->
             Dispatcher.handleTranscriptionFlow
               (done ++ file :: remaining) shown w
             = Some ((match filter (fun t => Dispatcher.nonEmpty t = true)
                              texts with
                      | [] => shown
                      | kept => Measure.paragraphs kept
                      end ++ Dispatcher.abortNote e)%string,
                     {| Dispatcher.responses := rest;
                        Dispatcher.trace :=
                          Dispatcher.trace w1
                          ++ match done with
                             | [] => []
                             | _ :: _ =>
                                 [Dispatcher.Wait Dispatcher.CHUNK_DELAY_MS]
                             end
                          ++ [Dispatcher.Call (Dispatcher.name file)] |})).
Proof.
  intros Hread. split.
  { intros e1 e2 text tr H1 H2.
    now apply transient_twice_then_answer with (payload := payload). }
  intros e He. split.
  { intros tr. now apply fatal_first_attempt with (payload := payload). }
  intros done remaining shown w texts [resp tr] Hret Hresp.
  cbn [Dispatcher.responses] in Hresp. subst resp.
  unfold Dispatcher.handleTranscriptionFlow.
  rewrite partsLoop_app, (partsLoop_returned done 0 _ shown w _ _ Hret).
  pose proof (accumulate_kept texts) as Hkept.
  cbn [Dispatcher.partsLoop Dispatcher.trace].
  destruct done as [|d0 done].
  - cbn [length Nat.add Nat.ltb Nat.leb app].
    rewrite (fatal_first_attempt file payload e rest tr Hread He).
    destruct (filter _ texts); [reflexivity | now rewrite Hkept].
  - cbn [length Nat.add Nat.ltb Nat.leb Dispatcher.wait
         Dispatcher.responses Dispatcher.trace].
    unfold Dispatcher.wait. cbn [Dispatcher.responses Dispatcher.trace].
    rewrite (fatal_first_attempt file payload e rest _ Hread He).
    rewrite <- app_assoc.
    destruct (filter _ texts); [reflexivity | now rewrite Hkept].
Qed.

(** Three parts: the first is answered at its third attempt, the second
    is refused, the third is never requested. *)
Lemma dispatcher_retry_and_abort_witness :
  let part := fun n =>
                {| Dispatcher.name := n; Dispatcher.type := "audio/wav";
                   Dispatcher.base64 := Some "UklGRg==" |}%string in
  let busy := {| Dispatcher.message :=
                   Some "503 The model is overloaded"%string |} in
  let denied := {| Dispatcher.message := Some "403 Forbidden"%string |} in
  Dispatcher.handleTranscriptionFlow
    [part "talk_part1.wav"%string; part "talk_part2.wav"%string;
     part "talk_part3.wav"%string]
    ""%string
    {| Dispatcher.responses :=
         [Dispatcher.Failure busy; Dispatcher.Failure busy;
          Dispatcher.Answer (Some "hello"%string);
          Dispatcher.Failure denied;
          Dispatcher.Answer (Some "never asked for"%string)];
       Dispatcher.trace := [] |}
  = Some (("hello" ++ Dispatcher.abortNote denied)%string,
          {| Dispatcher.responses :=
               [Dispatcher.Answer (Some "never asked for"%string)];
             Dispatcher.trace :=
               [Dispatcher.Call "talk_part1.wav"%string;
                Dispatcher.Wait 5000;
                Dispatcher.Call "talk_part1.wav"%string;
                Dispatcher.Wait 10000;
                Dispatcher.Call "talk_part1.wav"%string;
                Dispatcher.Wait 5000;
                Dispatcher.Call "talk_part2.wav"%string] |}).
Proof.
  intros part busy denied.
  destruct (dispatcher_retry_and_abort (part "talk_part2.wav"%string)
              "UklGRg=="%string
              [Dispatcher.Answer (Some "never asked for"%string)] eq_refl)
    as [_ Habort].
  destruct (Habort denied eq_refl) as [_ Hflow].
  apply (Hflow [part "talk_part1.wav"%string]
           [part "talk_part3.wav"%string] ""%string _
           ["hello"%string]
           {| Dispatcher.responses :=
                [Dispatcher.Failure denied;
                 Dispatcher.Answer (Some "never asked for"%string)];
              Dispatcher.trace :=
                [Dispatcher.Call "talk_part1.wav"%string;
                 Dispatcher.Wait 5000;
                 Dispatcher.Call "talk_part1.wav"%string;
                 Dispatcher.Wait 10000;
                 Dispatcher.Call "talk_part1.wav"%string] |});
    reflexivity.
Defined.

(** ** Worked examples *)

Example decodeAudio_empty : Codec.decodeAudio (Codec.encodeAudio []) = Some [].
Proof. reflexivity. Qed.

Example decodeAudio_ones :
  Codec.decodeAudio (Codec.encodeAudio [xff; xff; xff; xff])
  = Some [xff; xff; xff; xff].
Proof. reflexivity. Qed.

Example decodeAudio_rejects : Codec.decodeAudio "A"%string = None.
Proof. reflexivity. Qed.

Example wav_short_buffer_is_silent :
  drop 44 <$> Wav.audioBufferToWav
                {| WebAudio.sampleRate := 16000; WebAudio.length := 3;
                   WebAudio.channelData :=
                     [[JS.Fin 1; JS.Fin (-1); JS.Fin (1 # 2)]] |}
  = Some (replicate 6 x00).
Proof. vm_compute. reflexivity. Qed.

(* ================================================================== *)
(** * Further properties of the code *)
(* ================================================================== *)

(** ** Size and alphabet of the encoded text *)

Lemma string_of_list_ascii_length (l : list ascii) :
  String.length (string_of_list_ascii l) = length l.
Proof. induction l as [|c l IH]; [reflexivity | cbn; now rewrite IH]. Qed.

Lemma btoa_groups_count (l : list ascii) :
  (length (Base64.sextets l) + length (Base64.padding (length l))
   = 4 * ((length l + 2) / 3))%nat.
Proof.
  induction l as [|a|a b|a b c rest IH] using list_triple_ind;
    try reflexivity.
  assert (Hpad : Base64.padding (length (a :: b :: c :: rest))
                 = Base64.padding (length rest)).
  { unfold Base64.padding.
    replace (length (a :: b :: c :: rest)) with (length rest + 1 * 3)%nat
      by (cbn [length]; lia).
    now rewrite Nat.Div0.mod_add. }
  rewrite Hpad. cbn [Base64.sextets length].
  replace (S (S (S (length rest))) + 2)%nat
    with (length rest + 2 + 1 * 3)%nat by lia.
  rewrite Nat.div_add by lia. lia.
Qed.

Lemma encodeAudio_length (bytes : list byte) :
  String.length (Codec.encodeAudio bytes)
  = (4 * ((length bytes + 2) / 3))%nat.
Proof.
  unfold Codec.encodeAudio, Base64.btoa.
  rewrite list_ascii_of_string_of_list_ascii, string_of_list_ascii_length.
  rewrite length_app, length_map, btoa_groups_count. now rewrite length_map.
Qed.

Lemma encodeAudio_symbols (bytes : list byte) :
  Forall (fun c => is_Some (Base64.char_sextet c) \/ c = Base64.pad)
         (list_ascii_of_string (Codec.encodeAudio bytes)).
Proof.
  unfold Codec.encodeAudio, Base64.btoa.
  rewrite !list_ascii_of_string_of_list_ascii.
  apply Forall_app. split.
  - apply Forall_map. eapply Forall_impl; [apply sextets_bound |].
    intros n Hn. left.
    destruct (sextet_char_facts n Hn) as (-> & _ & _). now exists n.
  - unfold Base64.padding.
    destruct (length _ mod 3)%nat as [|[|[|?]]]; repeat constructor; now right.
Qed.

(** X1. The text [encodeAudio] returns for [n] bytes has exactly
    [4 * ceil(n / 3)] characters, each a base64 symbol or [=]; the payload
    of the packet [createPcmBlob] builds for a frame of [k] samples has
    [4 * ceil(2k / 3)] characters. *)
Theorem encodeAudio_size (bytes : list byte) (frame : list JS.num) :
  String.length (Codec.encodeAudio bytes) = (4 * ((length bytes + 2) / 3))%nat
  /\ Forall (fun c => is_Some (Base64.char_sextet c) \/ c = Base64.pad)
            (list_ascii_of_string (Codec.encodeAudio bytes))
  /\ String.length (Pcm.data (Pcm.createPcmBlob frame))
     = (4 * ((2 * length frame + 2) / 3))%nat.
Proof.
  split; [apply encodeAudio_length |]. split; [apply encodeAudio_symbols |].
  cbn [Pcm.createPcmBlob Pcm.data].
  now rewrite encodeAudio_length, bytes_of_int16s_length, length_map.
Qed.

(** ** From the microphone to the loudspeaker *)





(** ** The integers of the WAV encoder *)

Lemma truncate_lower (q : Q) (a : Z) :
  (inject_Z a <= q)%Q -> a <= JS.truncate q.
Proof.
  destruct q as [n d]. unfold Qle, JS.truncate. cbn [Qnum Qden inject_Z].
  intros Ha.
  pose proof (Z.quot_rem' n (Z.pos d)) as Hqr.
  pose proof (Z.rem_bound_abs n (Z.pos d) ltac:(lia)) as Habs.
  nia.
Qed.

Lemma truncate_above (q : Q) (a : Z) :
  (inject_Z a < q)%Q -> a < 0 -> a < JS.truncate q.
Proof.
  destruct q as [n d]. unfold Qlt, JS.truncate. cbn [Qnum Qden inject_Z].
  intros Ha Hneg.
  pose proof (Z.quot_rem' n (Z.pos d)) as Hqr.
  pose proof (Z.rem_bound_abs n (Z.pos d) ltac:(lia)) as Habs.
  destruct (Z_lt_le_dec 0 n) as [Hpos | Hnp].
  - assert (0 <= Z.quot n (Z.pos d)) by nia. lia.
  - pose proof (Z.rem_nonpos n (Z.pos d) ltac:(lia) Hnp). nia.
Qed.

(** Truncation toward zero is monotone. *)
Lemma truncate_mono (q q' : Q) :
  (q <= q')%Q -> JS.truncate q <= JS.truncate q'.
Proof.
  intros Hle.
  destruct (Z_lt_le_dec 0 (JS.truncate q)) as [Hpos | Hnp].
  - apply truncate_lower. eapply Qle_trans; [| exact Hle].
    destruct q as [n d]. unfold Qle, JS.truncate in *.
    cbn [Qnum Qden inject_Z] in *.
    pose proof (Z.quot_rem' n (Z.pos d)) as Hqr.
    pose proof (Z.rem_bound_abs n (Z.pos d) ltac:(lia)) as Habs.
    assert (0 <= n) by nia.
    pose proof (Z.rem_nonneg n (Z.pos d) ltac:(lia) ltac:(lia)). nia.
  - assert (JS.truncate q - 1 < JS.truncate q'); [| lia].
    apply truncate_above; [| lia]. eapply Qlt_le_trans; [| exact Hle].
    destruct q as [n d]. unfold Qlt, JS.truncate in *.
    cbn [Qnum Qden inject_Z] in *.
    pose proof (Z.quot_rem' n (Z.pos d)) as Hqr.
    pose proof (Z.rem_bound_abs n (Z.pos d) ltac:(lia)) as Habs.
    nia.
Qed.

Lemma clamp_mono (s t : Q) : (s <= t)%Q -> (Wav.clamp s <= Wav.clamp t)%Q.
Proof.
  intros H. unfold Wav.clamp.
  destruct (Qlt_le_dec s 1), (Qlt_le_dec t 1);
    repeat match goal with
           | |- context [Qlt_le_dec ?a ?b] => destruct (Qlt_le_dec a b)
           end; lra.
Qed.

Lemma wav_quantize_mono (s t : Q) :
  (s <= t)%Q -> Wav.quantize (JS.Fin s) <= Wav.quantize (JS.Fin t).
Proof.
  intros Hst. rewrite !wav_quantize_finite.
  pose proof (clamp_mono s t Hst) as Hc.
  generalize dependent (Wav.clamp t). generalize dependent (Wav.clamp s).
  intros cs ct Hc.
  destruct (Qlt_le_dec ((1 # 2) + cs) 0) as [Hs | Hs];
    destruct (Qlt_le_dec ((1 # 2) + ct) 0) as [Ht | Ht].
  - apply truncate_mono. lra.
  - assert (JS.truncate (cs * 32768) <= -16384)
      by (apply truncate_upper; unfold inject_Z; lra).
    assert (-16384 <= JS.truncate (ct * 32767))
      by (apply truncate_lower; unfold inject_Z; lra).
    lia.
  - exfalso. lra.
  - apply truncate_mono. lra.
Qed.

Lemma wav_quantize_range (x : JS.num) : -32768 <= Wav.quantize x <= 32767.
Proof.
  destruct x as [s | | |]; [| vm_compute; split; discriminate ..].
  rewrite wav_quantize_finite.
  destruct (clamp_range s) as [Hlo Hhi].
  generalize dependent (Wav.clamp s). intros c Hlo Hhi.
  destruct (Qlt_le_dec ((1 # 2) + c) 0) as [Hneg | Hnn].
  - pose proof (truncate_lower (c * 32768) (-32768)
                  ltac:(unfold inject_Z; lra)).
    pose proof (truncate_upper (c * 32768) 0 ltac:(unfold inject_Z; lra)).
    lia.
  - pose proof (truncate_lower (c * 32767) (-32767)
                  ltac:(unfold inject_Z; lra)).
    pose proof (truncate_upper (c * 32767) 32767
                  ltac:(unfold inject_Z; lra)).
    lia.
Qed.

(** X3. The integer the WAV encoder computes for a sample always fits a
    signed 16-bit slot; it is 32767 from 1.0 upwards (and for +Infinity),
    -32768 from -1.0 downwards (and for -Infinity), 0 for NaN, and it never
    decreases when the sample grows. *)
Theorem wav_quantize_saturates (x : JS.num) :
  -32768 <= Wav.quantize x <= 32767
  /\ Wav.quantize JS.NaN = 0
  /\ Wav.quantize JS.PInf = 32767
  /\ Wav.quantize JS.NInf = -32768
  /\ (forall s : Q, (1 <= s)%Q -> Wav.quantize (JS.Fin s) = 32767)
  /\ (forall s : Q, (s <= -1)%Q -> Wav.quantize (JS.Fin s) = -32768)
  /\ (forall s t : Q, (s <= t)%Q ->
        Wav.quantize (JS.Fin s) <= Wav.quantize (JS.Fin t)).
Proof.
  assert (Hhi : forall s : Q, (1 <= s)%Q -> Wav.quantize (JS.Fin s) = 32767).
  { intros s Hs. rewrite wav_quantize_finite. unfold Wav.clamp.
    destruct (Qlt_le_dec s 1) as [H1 | H1]; [exfalso; lra |].
    reflexivity. }
  assert (Hlo : forall s : Q, (s <= -1)%Q -> Wav.quantize (JS.Fin s) = -32768).
  { intros s Hs. rewrite wav_quantize_finite. unfold Wav.clamp.
    destruct (Qlt_le_dec s 1) as [H1 | H1]; [| exfalso; lra].
    destruct (Qlt_le_dec (-1) s) as [H2 | H2]; [exfalso; lra |].
    reflexivity. }
  split; [apply wav_quantize_range |].
  repeat split; try reflexivity; auto using wav_quantize_mono.
Qed.

Lemma wav_quantize_saturates_witness :
  Wav.quantize (JS.Fin (3 # 2)) = 32767
  /\ Wav.quantize (JS.Fin (-1 # 4)) <= Wav.quantize (JS.Fin (1 # 4)).
Proof.
  destruct (wav_quantize_saturates JS.NaN)
    as (_ & _ & _ & _ & Hhi & _ & Hmono).
  split.
  - apply Hhi. unfold Qle. simpl. lia.
  - apply Hmono. unfold Qle. simpl. lia.
Defined.

(** ** What the WAV file holds *)

Lemma audioBufferToWav_size (buffer : WebAudio.AudioBuffer) :
  exists out : list byte,
    Wav.audioBufferToWav buffer = Some out
    /\ length out
       = (44 + 2 * WebAudio.length buffer
                 * WebAudio.numberOfChannels buffer)%nat.
Proof.
  rewrite audioBufferToWav_bytes. eexists. split; [reflexivity |].
  rewrite !length_app, frames_length, length_seq, length_replicate.
  assert (length (Wav.spec_header (WebAudio.numberOfChannels buffer)
                    (WebAudio.sampleRate buffer)
                    (Z.of_nat (44 + 2 * WebAudio.length buffer
                                    * WebAudio.numberOfChannels buffer))
                    (Z.of_nat (2 * WebAudio.length buffer
                               * WebAudio.numberOfChannels buffer)))
          = 44%nat) as -> by reflexivity.
  nia.
Qed.

Lemma zero_bytes (k : nat) :
  replicate (2 * k) x00 = JS.bytes_of_int16s (replicate k 0).
Proof.
  induction k as [|k IH]; [reflexivity |].
  replace (2 * S k)%nat with (S (S (2 * k))) by lia.
  cbn [replicate JS.bytes_of_int16s flat_map app]. fold (JS.bytes_of_int16s (replicate k 0)).
  rewrite <- IH. reflexivity.
Qed.

(** The frames of a one-channel buffer from a given index on. *)
Lemma mono_frames (samples : list JS.num) (from count : nat) :
  (from + count = length samples)%nat ->
  flat_map (Wav.frameBytes [samples] 1) (seq from count)
  = JS.bytes_of_int16s (map Wav.quantize (drop from samples)).
Proof.
  revert from. induction count as [|count IH]; intros from Hlen.
  - rewrite drop_ge by lia. reflexivity.
  - cbn [seq flat_map]. rewrite IH by lia.
    assert (Hfrom : (from < length samples)%nat) by lia.
    apply lookup_lt_is_Some in Hfrom. destruct Hfrom as [x Hx].
    rewrite (drop_S samples x from Hx). cbn [map JS.bytes_of_int16s flat_map].
    unfold Wav.frameBytes, Wav.read. cbn [seq flat_map lookup list_lookup].
    rewrite Hx. now rewrite app_nil_r.
Qed.

(** X4. The bytes after the 44-byte header of a one-channel file are the
    16-bit integers of the samples from index 44 on, in order, followed by
    one zero for each of the first [min(44, N)] sample positions: the first
    44 samples of the buffer are not in the file, and a buffer of at most
    44 samples gives only zeros. *)
Theorem audioBufferToWav_data_area (buffer : WebAudio.AudioBuffer)
    (samples : list JS.num) :
  WebAudio.channelData buffer = [samples] ->
  length samples = WebAudio.length buffer ->
  exists out : list byte,
    Wav.audioBufferToWav buffer = Some out
    /\ JS.int16s_of_bytes (drop 44 out)
       = Some (map Wav.quantize (drop 44 samples)
               ++ replicate (Nat.min 44 (length samples)) 0)
    /\ ((length samples <= 44)%nat ->
        drop 44 out = replicate (2 * length samples) x00).
Proof.
  intros Hch Hlen. rewrite audioBufferToWav_bytes.
  unfold WebAudio.numberOfChannels. rewrite Hch, <- Hlen. cbn [length].
  eexists. split; [reflexivity |].
  rewrite drop_app_length' by reflexivity.
  destruct (le_lt_dec (length samples) 44) as [Hshort | Hlong].
  - replace (length samples - 44)%nat with 0%nat by lia.
    rewrite drop_ge by lia. cbn [seq flat_map map app].
    replace (Nat.min 44 (length samples)) with (length samples) by lia.
    split; [| intros _; f_equal; lia].
    replace (2 * 1 * length samples)%nat with (2 * length samples)%nat by lia.
    rewrite zero_bytes. apply int16s_of_bytes_of_int16s.
    apply Forall_forall. intros v Hv. apply elem_of_replicate in Hv. lia.
  - split; [| intros Hshort; lia].
    rewrite mono_frames by lia.
    replace (2 * 1 * Nat.min 44 (length samples))%nat
      with (2 * Nat.min 44 (length samples))%nat by lia.
    rewrite zero_bytes.
    assert (Happ : forall a b, JS.bytes_of_int16s a ++ JS.bytes_of_int16s b
                               = JS.bytes_of_int16s (a ++ b)).
    { intros a b. unfold JS.bytes_of_int16s. now rewrite flat_map_app. }
    rewrite Happ. apply int16s_of_bytes_of_int16s.
    apply Forall_app. split.
    + apply Forall_map. apply Forall_forall. intros x _.
      apply wav_quantize_range.
    + apply Forall_forall. intros v Hv. apply elem_of_replicate in Hv. lia.
Qed.

Lemma audioBufferToWav_data_area_witness :
  let samples := replicate 44 (JS.Fin 1) ++ [JS.Fin (1 # 2)] in
  exists out : list byte,
    Wav.audioBufferToWav
      {| WebAudio.sampleRate := 16000; WebAudio.length := 45;
         WebAudio.channelData := [samples] |} = Some out
    /\ JS.int16s_of_bytes (drop 44 out)
       = Some (map Wav.quantize (drop 44 samples)
               ++ replicate (Nat.min 44 (length samples)) 0).
Proof.
  intros samples.
  destruct (audioBufferToWav_data_area
              {| WebAudio.sampleRate := 16000; WebAudio.length := 45;
                 WebAudio.channelData := [samples] |} samples
              eq_refl eq_refl) as (out & Hout & Hdata & _).
  exists out. split; [exact Hout | exact Hdata].
Defined.

(** ** The frame count the chunker asks for *)

Lemma roundHalfEven_upper (p r k : Z) :
  0 < r -> p <= k * r -> JS.roundHalfEven p r <= k.
Proof.
  intros Hr Hp. unfold JS.roundHalfEven.
  pose proof (Z.div_mod p r ltac:(lia)) as Hdm.
  pose proof (Z.mod_pos_bound p r Hr) as Hrem.
  destruct (2 * (p mod r) <? r) eqn:Hlow; [nia |].
  apply Z.ltb_ge in Hlow.
  assert (p / r + 1 <= k) by nia.
  destruct (r <? 2 * (p mod r)); [lia |].
  destruct (Z.even (p / r)); lia.
Qed.

Lemma roundHalfEven_nonneg (p r : Z) :
  0 < r -> 0 <= p -> 0 <= JS.roundHalfEven p r.
Proof.
  intros Hr Hp. unfold JS.roundHalfEven.
  pose proof (Z.div_pos p r Hp Hr).
  destruct (2 * (p mod r) <? r); [lia |].
  destruct (r <? 2 * (p mod r)); [lia |].
  destruct (Z.even (p / r)); lia.
Qed.

(** Rounding keeps the sign of a number that is not negative. *)
Lemma round64_nonneg (q : Q) : (0 <= q)%Q -> (0 <= JS.round64 q)%Q.
Proof.
  destruct q as [n d]. unfold Qle, JS.round64. cbn [Qnum Qden].
  intros Hn. destruct (n =? 0) eqn:Hzero; [cbn; lia |].
  apply Z.eqb_neq in Hzero.
  cbn [Qnum Qden]. rewrite Z.mul_0_l, Z.mul_1_r.
  assert (Hsgn : Z.sgn n = 1) by lia. rewrite Hsgn, Z.mul_1_l.
  apply Z.mul_nonneg_nonneg; [| apply Z.pow_nonneg; lia].
  apply roundHalfEven_nonneg.
  - apply Z.mul_pos_pos; [lia | apply Z.pow_pos_nonneg; lia].
  - apply Z.mul_nonneg_nonneg; [lia | apply Z.pow_nonneg; lia].
Qed.

(** A number at most an integer below [2^53] is not rounded above it. *)
Lemma round64_le_int (q : Q) (k : Z) :
  (0 <= q)%Q -> (q <= inject_Z k)%Q -> k < 2 ^ 53 ->
  (JS.round64 q <= inject_Z k)%Q.
Proof.
  destruct q as [n d]. unfold Qle, JS.round64. cbn [Qnum Qden inject_Z].
  intros Hn Hk Hsmall.
  destruct (n =? 0) eqn:Hzero; [cbn; nia |].
  apply Z.eqb_neq in Hzero.
  assert (Hpos : 0 < n) by lia.
  assert (Hsgn : Z.sgn n = 1) by lia.
  assert (Habs : Z.abs n = n) by lia.
  rewrite Hsgn, Habs, Z.mul_1_l. cbn [Qnum Qden].
  set (l0 := Z.log2 n - Z.log2 (Z.pos d)).
  set (l := if n * 2 ^ Z.max 0 (- l0) <? Z.pos d * 2 ^ Z.max 0 l0
            then l0 - 1 else l0).
  set (e := Z.max (l - 52) (-1074)).
  rewrite Z2Pos.id by (apply Z.pow_pos_nonneg; lia).
  destruct (Z_le_gt_dec e 0) as [He | He].
  - rewrite (Z.max_l 0 e), (Z.max_r 0 (- e)) by lia.
    rewrite Z.pow_0_r, !Z.mul_1_r.
    apply roundHalfEven_upper; [lia |].
    assert (0 <= 2 ^ (- e)) by (apply Z.pow_nonneg; lia). nia.
  - exfalso.
    assert (Hl : 53 <= l) by lia.
    assert (Hbig : Z.pos d * 2 ^ l <= n).
    { unfold l in *.
      destruct (n * 2 ^ Z.max 0 (- l0) <? Z.pos d * 2 ^ Z.max 0 l0) eqn:Htest.
      - pose proof (Z.log2_spec n Hpos) as [Hn1 _].
        pose proof (Z.log2_spec (Z.pos d) ltac:(lia)) as [_ Hd2].
        pose proof (Z.log2_nonneg (Z.pos d)) as Hd0.
        assert (Hsplit : 2 ^ Z.log2 n
                         = 2 ^ Z.succ (Z.log2 (Z.pos d)) * 2 ^ (l0 - 1)).
        { rewrite <- Z.pow_add_r by lia. f_equal. unfold l0. lia. }
        assert (0 < 2 ^ (l0 - 1)) by (apply Z.pow_pos_nonneg; lia).
        nia.
      - apply Z.ltb_ge in Htest.
        rewrite (Z.max_l 0 (- l0)), (Z.max_r 0 l0) in Htest by lia.
        lia. }
    assert (Hpow : 2 ^ 53 <= 2 ^ l) by (apply Z.pow_le_mono_r; lia).
    nia.
Qed.

Lemma duration_nonneg (audioBuffer : WebAudio.AudioBuffer) :
  0 < WebAudio.sampleRate audioBuffer ->
  (0 <= WebAudio.duration audioBuffer)%Q.
Proof.
  intros Hrate. unfold WebAudio.duration.
  apply Qle_shift_div_l.
  - unfold Qlt. cbn. lia.
  - rewrite Qmult_0_l. unfold Qle. cbn. lia.
Qed.

(** Audio that lasts at most [sec] seconds is normalized to at most
    [sec * 16000] frames. *)
Lemma targetFrames_short (audioBuffer : WebAudio.AudioBuffer) (sec : Z) :
  0 < WebAudio.sampleRate audioBuffer -> 0 < sec ->
  (WebAudio.duration64 audioBuffer <= inject_Z sec)%Q ->
  Z.of_nat (Chunker.targetFrames audioBuffer)
  <= sec * Chunker.TARGET_SAMPLE_RATE.
Proof.
  intros Hrate Hsec Hshort.
  unfold Chunker.targetFrames, JS.toUnsignedLong.
  set (x := (WebAudio.duration64 audioBuffer
             * inject_Z Chunker.TARGET_SAMPLE_RATE)%Q).
  assert (Hd : (0 <= WebAudio.duration64 audioBuffer)%Q)
    by (apply round64_nonneg, duration_nonneg, Hrate).
  assert (Hx0 : (0 <= x)%Q).
  { unfold x. apply Qmult_le_0_compat; [exact Hd |].
    unfold Chunker.TARGET_SAMPLE_RATE, Qle. cbn. lia. }
  assert (Hxk : (x <= inject_Z (sec * Chunker.TARGET_SAMPLE_RATE))%Q).
  { unfold x. rewrite inject_Z_mult. apply Qmult_le_compat_r; [exact Hshort |].
    unfold Chunker.TARGET_SAMPLE_RATE, Qle. cbn. lia. }
  pose proof (round64_nonneg x Hx0) as Hy0.
  assert (Ht0 : 0 <= JS.truncate (JS.round64 x)).
  { destruct (JS.round64 x) as [yn yd]. unfold Qle in Hy0. cbn in Hy0.
    unfold JS.truncate. cbn [Qnum Qden]. apply Z.quot_pos; lia. }
  pose proof (Z.mod_pos_bound (JS.truncate (JS.round64 x)) (2 ^ 32)
                ltac:(lia)) as Hmod.
  rewrite Z2Nat.id by lia.
  destruct (Z_lt_ge_dec (sec * Chunker.TARGET_SAMPLE_RATE) (2 ^ 53))
    as [Hsmall | Hlarge]; [| lia].
  pose proof (round64_le_int x _ Hx0 Hxk Hsmall) as Hyk.
  apply truncate_upper in Hyk.
  pose proof (Z.mod_le (JS.truncate (JS.round64 x)) (2 ^ 32) Ht0 ltac:(lia)).
  lia.
Qed.

(** 3003 frames at 48 kHz last 0.0625625 seconds, which binary64 holds a
    little short: the product with 16000 is just below 1001. *)
Example targetFrames_rounds :
  Z.of_nat (Chunker.targetFrames
              {| WebAudio.sampleRate := 48000; WebAudio.length := 3003;
                 WebAudio.channelData := [replicate 3003 (JS.Fin 0)] |})
    = 1000
  /\ Z.of_nat (Chunker.targetFrames
                 {| WebAudio.sampleRate := 44100;
                    WebAudio.length := Z.to_nat 44100;
                    WebAudio.channelData :=
                      [replicate (Z.to_nat 44100) (JS.Fin 0)] |}) = 16000
  /\ Z.of_nat (Chunker.targetFrames
                 {| WebAudio.sampleRate := 48000; WebAudio.length := 1;
                    WebAudio.channelData := [[JS.Fin 0]] |}) = 0.
Proof. repeat split; vm_compute; reflexivity. Qed.

(** ** Size and number of the parts *)

Lemma mono_file_size (chunkData : list JS.num) (rate : Z) :
  exists bytes : list byte,
    Wav.audioBufferToWav
      {| WebAudio.sampleRate := rate;
         WebAudio.length := length chunkData;
         WebAudio.channelData := [chunkData] |} = Some bytes
    /\ length bytes = (44 + 2 * length chunkData)%nat.
Proof.
  destruct (audioBufferToWav_size
              {| WebAudio.sampleRate := rate;
                 WebAudio.length := length chunkData;
                 WebAudio.channelData := [chunkData] |})
    as (out & Hout & Hlen).
  exists out. split; [exact Hout |].
  rewrite Hlen. cbn. lia.
Qed.

Lemma audioDataToWavFile_file (chunkData : list JS.num) (rate : Z) :
  (1 <= length chunkData)%nat ->
  Chunker.audioDataToWavFile chunkData rate
  = Wav.audioBufferToWav
      {| WebAudio.sampleRate := rate;
         WebAudio.length := length chunkData;
         WebAudio.channelData := [chunkData] |}.
Proof.
  intros Hlen. unfold Chunker.audioDataToWavFile.
  destruct (Nat.eqb_spec (length chunkData) 0); [lia | reflexivity].
Qed.

(** The number of passes of the cutting loop. *)
Lemma sliceLoop_count (fuel spc : nat) (pcm : list JS.num) :
  (1 <= spc)%nat ->
  forall start idx : nat,
    (length pcm - start <= fuel)%nat ->
    exists chunks : list Chunker.Chunk,
      Chunker.sliceLoop fuel spc pcm start idx = Some chunks
      /\ length chunks = ((length pcm - start + spc - 1) / spc)%nat.
Proof.
  intros Hspc. induction fuel as [|fuel IH]; intros start idx Hfuel.
  - exists []. rewrite sliceLoop_done by lia. split; [reflexivity |].
    replace (length pcm - start)%nat with 0%nat by lia.
    cbn [length]. symmetry. apply Nat.div_small. lia.
  - destruct (le_lt_dec (length pcm) start) as [Hge | Hlt].
    + exists []. rewrite sliceLoop_done by lia. split; [reflexivity |].
      replace (length pcm - start)%nat with 0%nat by lia.
      cbn [length]. symmetry. apply Nat.div_small. lia.
    + cbn [Chunker.sliceLoop].
      apply Nat.ltb_lt in Hlt as Hb. rewrite Hb.
      set (stop := Nat.min (start + spc) (length pcm)).
      destruct (IH stop (idx + 1)%nat ltac:(unfold stop; lia))
        as (rest & -> & Hcount).
      cbn [mbind option_bind]. eexists. split; [reflexivity |].
      cbn [length]. rewrite Hcount.
      destruct (le_lt_dec (start + spc) (length pcm)) as [Hfull | Hlast].
      * replace stop with (start + spc)%nat by (unfold stop; lia).
        replace (length pcm - start + spc - 1)%nat
          with ((length pcm - (start + spc) + spc - 1) + 1 * spc)%nat by lia.
        rewrite Nat.div_add by lia. lia.
      * replace stop with (length pcm) by (unfold stop; lia).
        replace (length pcm - length pcm + spc - 1)%nat with (spc - 1)%nat
          by lia.
        rewrite (Nat.div_small (spc - 1) spc) by lia.
        replace (length pcm - start + spc - 1)%nat
          with ((length pcm - start - 1) + 1 * spc)%nat by lia.
        rewrite Nat.div_add by lia.
        rewrite (Nat.div_small (length pcm - start - 1) spc) by lia.
        reflexivity.
Qed.

Section PartsProperties.

Variable render : WebAudio.AudioBuffer -> nat -> list JS.num.
Hypothesis render_length : forall b n, length (render b n) = n.

Lemma rendered_some (audioBuffer : WebAudio.AudioBuffer) :
  (1 <= Chunker.targetFrames audioBuffer)%nat ->
  Chunker.rendered render audioBuffer
  = Some {| WebAudio.sampleRate := Chunker.TARGET_SAMPLE_RATE;
            WebAudio.length := Chunker.targetFrames audioBuffer;
            WebAudio.channelData :=
              [render audioBuffer (Chunker.targetFrames audioBuffer)] |}.
Proof.
  intros Hframes. unfold Chunker.rendered.
  destruct (Nat.eqb_spec (Chunker.targetFrames audioBuffer) 0);
    [lia | reflexivity].
Qed.

(** The host refuses a context of zero frames: nothing is returned. *)
Lemma splitAudioWith_refused (CHUNK_DURATION_SEC : Z)
    (audioBuffer : WebAudio.AudioBuffer) :
  Chunker.targetFrames audioBuffer = 0%nat ->
  Chunker.splitAudioWith render CHUNK_DURATION_SEC audioBuffer = None.
Proof.
  intros Hzero.
  unfold Chunker.splitAudioWith, Chunker.compressAudio, Chunker.rendered.
  rewrite Hzero. cbn [Nat.eqb mbind option_bind].
  now destruct (Qle_bool _ _).
Qed.

(** What the chunker returns when the host accepts the frame count. *)
Lemma splitAudioWith_parts (CHUNK_DURATION_SEC : Z)
    (audioBuffer : WebAudio.AudioBuffer) :
  0 < CHUNK_DURATION_SEC ->
  0 < WebAudio.sampleRate audioBuffer ->
  (1 <= Chunker.targetFrames audioBuffer)%nat ->
  let pcmData := render audioBuffer (Chunker.targetFrames audioBuffer) in
  let samplesPerChunk :=
    Z.to_nat (CHUNK_DURATION_SEC * Chunker.TARGET_SAMPLE_RATE) in
  exists chunks : list Chunker.Chunk,
    Chunker.splitAudioWith render CHUNK_DURATION_SEC audioBuffer = Some chunks
    /\ concat (map Chunker.chunkData chunks) = pcmData
    /\ map Chunker.partIndex chunks = seq 1 (length chunks)
    /\ (forall i c, chunks !! i = Some c -> (S i < length chunks)%nat ->
          length (Chunker.chunkData c) = samplesPerChunk)
    /\ Forall (fun c =>
                 (1 <= length (Chunker.chunkData c) <= samplesPerChunk)%nat
                 /\ Chunker.chunkFile c
                    = Wav.audioBufferToWav
                        {| WebAudio.sampleRate := Chunker.TARGET_SAMPLE_RATE;
                           WebAudio.length := length (Chunker.chunkData c);
                           WebAudio.channelData := [Chunker.chunkData c] |})
              chunks
    /\ length chunks
       = ((Chunker.targetFrames audioBuffer + samplesPerChunk - 1)
          / samplesPerChunk)%nat
    /\ ((WebAudio.duration64 audioBuffer <= inject_Z CHUNK_DURATION_SEC)%Q ->
        length chunks = 1%nat).
Proof.
  intros Hsec Hrate Hframes pcmData samplesPerChunk.
  assert (Hspc : (1 <= samplesPerChunk)%nat)
    by (unfold samplesPerChunk, Chunker.TARGET_SAMPLE_RATE; lia).
  assert (Hpcm : length pcmData = Chunker.targetFrames audioBuffer)
    by apply render_length.
  unfold Chunker.splitAudioWith, Chunker.compressAudio.
  rewrite (rendered_some audioBuffer Hframes). cbn [mbind option_bind].
  change (WebAudio.getChannelData _ 0) with pcmData.
  fold samplesPerChunk.
  destruct (Qle_bool (WebAudio.duration64 audioBuffer)
              (inject_Z CHUNK_DURATION_SEC)) eqn:Hshort.
  - apply Qle_bool_iff in Hshort.
    pose proof (targetFrames_short audioBuffer CHUNK_DURATION_SEC
                  Hrate Hsec Hshort) as Hle.
    assert (Hfit : (Chunker.targetFrames audioBuffer <= samplesPerChunk)%nat)
      by (unfold samplesPerChunk; lia).
    eexists. split; [reflexivity |].
    cbn [map concat length seq Chunker.chunkData Chunker.partIndex].
    split; [apply app_nil_r |]. split; [reflexivity |].
    split; [intros i c _ Hi; lia |].
    split; [| split; [| reflexivity]].
    + constructor; [| constructor].
      cbn [Chunker.chunkData Chunker.chunkFile]. rewrite Hpcm.
      split; [lia | reflexivity].
    + replace (Chunker.targetFrames audioBuffer + samplesPerChunk - 1)%nat
        with ((Chunker.targetFrames audioBuffer - 1) + 1 * samplesPerChunk)%nat
        by lia.
      rewrite Nat.div_add by lia.
      rewrite Nat.div_small by lia. reflexivity.
  - destruct (sliceLoop_spec (length pcmData) samplesPerChunk pcmData 0 1)
      as (chunks & Hrun & Hcat & Hidx & Hfull & Hall & _); [lia | lia |].
    destruct (sliceLoop_count (length pcmData) samplesPerChunk pcmData
                Hspc 0 1 ltac:(lia)) as (chunks' & Hrun' & Hcount).
    assert (chunks' = chunks) by congruence. subst chunks'.
    exists chunks. split; [exact Hrun |]. split; [exact Hcat |].
    split; [exact Hidx |]. split; [exact Hfull |].
    split; [| split].
    + eapply Forall_impl; [exact Hall |]. cbn beta. intros c [Hsize Hfile].
      split; [exact Hsize |].
      rewrite Hfile. apply audioDataToWavFile_file. lia.
    + now rewrite Hcount, Nat.sub_0_r, Hpcm.
    + intros Hle. apply Qle_bool_iff in Hle. congruence.
Qed.

(** C4, as the code has it.  For every decoded buffer and every positive
    chunk duration (whole seconds, as the constant of the source is): when
    the normalized length, [trunc(duration * 16000)], is at least one
    frame, the chunker returns an ordered list of parts, numbered from 1,
    whose sample ranges joined in order are exactly the normalized 16 kHz
    mono buffer; every part but the last has exactly [duration * rate]
    samples, no part has more and none is empty; there are
    [ceil(frames / (duration * rate))] parts, and exactly one when the
    buffer lasts at most the chunk duration; the file of each part is what
    the WAV encoder returns for its sample range.  When the normalized
    length is zero the host refuses the request and no part is returned.
    [splitAudio] is the instance at 300 seconds. *)
Theorem splitAudio_chunks (CHUNK_DURATION_SEC : Z)
    (audioBuffer : WebAudio.AudioBuffer) :
  0 < CHUNK_DURATION_SEC ->
  0 < WebAudio.sampleRate audioBuffer ->
  let frames := Chunker.targetFrames audioBuffer in
  let pcmData := render audioBuffer frames in
  let samplesPerChunk :=
    Z.to_nat (CHUNK_DURATION_SEC * Chunker.TARGET_SAMPLE_RATE) in
  (frames = 0%nat ->
   Chunker.splitAudioWith render CHUNK_DURATION_SEC audioBuffer = None)
  /\ ((1 <= frames)%nat ->
      exists chunks : list Chunker.Chunk,
        Chunker.splitAudioWith render CHUNK_DURATION_SEC audioBuffer
        = Some chunks
        /\ concat (map Chunker.chunkData chunks) = pcmData
        /\ map Chunker.partIndex chunks = seq 1 (length chunks)
        /\ (forall i c, chunks !! i = Some c -> (S i < length chunks)%nat ->
              length (Chunker.chunkData c) = samplesPerChunk)
        /\ Forall (fun c =>
                     (1 <= length (Chunker.chunkData c)
                      <= samplesPerChunk)%nat
                     /\ exists bytes : list byte,
                          Chunker.chunkFile c = Some bytes
                          /\ Wav.audioBufferToWav
                               {| WebAudio.sampleRate := 16000;
                                  WebAudio.length :=
                                    length (Chunker.chunkData c);
                                  WebAudio.channelData :=
                                    [Chunker.chunkData c] |}
                             = Some bytes
                          /\ length bytes
                             = (44 + 2 * length (Chunker.chunkData c))%nat)
                  chunks
        /\ length chunks
           = ((frames + samplesPerChunk - 1) / samplesPerChunk)%nat
        /\ ((WebAudio.duration64 audioBuffer
             <= inject_Z CHUNK_DURATION_SEC)%Q ->
            length chunks = 1%nat)).
Proof.
  intros Hsec Hrate frames pcmData samplesPerChunk. split.
  - apply splitAudioWith_refused.
  - intros Hframes.
    destruct (splitAudioWith_parts CHUNK_DURATION_SEC audioBuffer
                Hsec Hrate Hframes)
      as (chunks & Hrun & Hcat & Hidx & Hfull & Hall & Hcount & Hone).
    exists chunks. split; [exact Hrun |]. split; [exact Hcat |].
    split; [exact Hidx |]. split; [exact Hfull |].
    split; [| split; [exact Hcount | exact Hone]].
    eapply Forall_impl; [exact Hall |]. cbn beta. intros c [Hsize Hfile].
    split; [exact Hsize |].
    destruct (mono_file_size (Chunker.chunkData c) 16000)
      as (bytes & Hbytes & Hlen).
    exists bytes. split; [| split; [exact Hbytes | exact Hlen]].
    rewrite Hfile. exact Hbytes.
Qed.

(** The files of [splitAudio] and their sizes. *)
Lemma splitAudio_files (audioBuffer : WebAudio.AudioBuffer) :
  0 < WebAudio.sampleRate audioBuffer ->
  (1 <= Chunker.targetFrames audioBuffer)%nat ->
  exists chunks : list Chunker.Chunk,
    Chunker.splitAudio render audioBuffer = Some chunks
    /\ chunks <> []
    /\ Forall (fun c =>
                 exists bytes : list byte,
                   Chunker.chunkFile c = Some bytes
                   /\ length bytes
                      = (44 + 2 * length (Chunker.chunkData c))%nat
                   /\ Z.of_nat (length bytes) <= 9600044
                   /\ Z.of_nat (length bytes) < Transcriber.MAX_FILE_SIZE)
              chunks.
Proof.
  intros Hrate Hframes. unfold Chunker.splitAudio.
  destruct (splitAudioWith_parts 300 audioBuffer ltac:(lia) Hrate Hframes)
    as (chunks & Hrun & Hcat & _ & _ & Hall & _ & _).
  remember (Z.to_nat (300 * Chunker.TARGET_SAMPLE_RATE)) as spc eqn:Hspc.
  apply (f_equal Z.of_nat) in Hspc.
  rewrite Z2Nat.id in Hspc by discriminate.
  change (300 * Chunker.TARGET_SAMPLE_RATE) with 4800000 in Hspc.
  assert (Hmax : Transcriber.MAX_FILE_SIZE = 15728640) by reflexivity.
  exists chunks. split; [exact Hrun |]. split.
  - intros ->. cbn [map concat] in Hcat.
    apply (f_equal (@length _)) in Hcat.
    rewrite render_length in Hcat. cbn [length] in Hcat. lia.
  - eapply Forall_impl; [exact Hall |]. cbn beta. intros c [Hsize Hfile].
    destruct (mono_file_size (Chunker.chunkData c) Chunker.TARGET_SAMPLE_RATE)
      as (bytes & Hbytes & Hlen).
    exists bytes. rewrite Hfile, Hmax. repeat split; [exact Hbytes | lia ..].
Qed.

(** X5. [splitAudio] returns files exactly when the normalized length of
    the audio is at least one frame; with a length of zero the host
    refuses and nothing is returned.  Every file returned is a complete
    WAV file of [44 + 2 * samples] bytes for the samples of its part, and
    none is larger than 9 600 044 bytes, which is below the 15 MB upload
    limit. *)
Theorem splitAudio_file_sizes (audioBuffer : WebAudio.AudioBuffer) :
  0 < WebAudio.sampleRate audioBuffer ->
  (Chunker.targetFrames audioBuffer = 0%nat ->
   Chunker.splitAudio render audioBuffer = None)
  /\ ((1 <= Chunker.targetFrames audioBuffer)%nat ->
      exists chunks : list Chunker.Chunk,
        Chunker.splitAudio render audioBuffer = Some chunks
        /\ chunks <> []
        /\ Forall (fun c =>
                     exists bytes : list byte,
                       Chunker.chunkFile c = Some bytes
                       /\ length bytes
                          = (44 + 2 * length (Chunker.chunkData c))%nat
                       /\ Z.of_nat (length bytes) <= 9600044
                       /\ Z.of_nat (length bytes) < Transcriber.MAX_FILE_SIZE)
                  chunks).
Proof.
  intros Hrate. split.
  - apply splitAudioWith_refused.
  - now apply splitAudio_files.
Qed.

(** X6. When the normalized length of the audio is at least one frame,
    [splitAudio] returns that number of frames divided by 4 800 000,
    rounded up, parts; none of them is empty; audio of at most 300
    seconds gives one part. *)
Theorem splitAudio_part_count (audioBuffer : WebAudio.AudioBuffer) :
  0 < WebAudio.sampleRate audioBuffer ->
  (1 <= Chunker.targetFrames audioBuffer)%nat ->
  exists chunks : list Chunker.Chunk,
    Chunker.splitAudio render audioBuffer = Some chunks
    /\ Z.of_nat (length chunks)
       = (Z.of_nat (Chunker.targetFrames audioBuffer) + 4799999) / 4800000
    /\ Forall (fun c => (1 <= length (Chunker.chunkData c))%nat) chunks
    /\ ((WebAudio.duration64 audioBuffer <= 300)%Q -> length chunks = 1%nat).
Proof.
  intros Hrate Hframes. unfold Chunker.splitAudio.
  destruct (splitAudioWith_parts 300 audioBuffer ltac:(lia) Hrate Hframes)
    as (chunks & Hrun & _ & _ & _ & Hall & Hcount & Hone).
  remember (Z.to_nat (300 * Chunker.TARGET_SAMPLE_RATE)) as spc eqn:Hspc.
  apply (f_equal Z.of_nat) in Hspc.
  rewrite Z2Nat.id in Hspc by discriminate.
  change (300 * Chunker.TARGET_SAMPLE_RATE) with 4800000 in Hspc.
  exists chunks. split; [exact Hrun |]. split; [| split].
  - rewrite Hcount.
    rewrite Nat2Z.inj_div, Nat2Z.inj_sub, Nat2Z.inj_add, Hspc by lia.
    f_equal. lia.
  - eapply Forall_impl; [exact Hall |]. cbn beta. intros c [Hsize _]. lia.
  - exact Hone.
Qed.

(** X7. What [handleFileSelection] hands to the dispatcher.  A file within
    the 15 MB limit goes through whole, as the only part.  A larger file
    whose audio normalizes to at least one frame is replaced by the files
    of [splitAudio], of which there is at least one.  A larger file that
    cannot be decoded, or that [splitAudio] fails on, leaves no part.  No
    part cut from a larger file is above the limit. *)
Theorem handleFileSelection_sizes (file : Transcriber.Upload) :
  (forall audioBuffer, Transcriber.audio file = Some audioBuffer ->
     0 < WebAudio.sampleRate audioBuffer) ->
  Forall (fun p => Transcriber.partSize p <= Transcriber.MAX_FILE_SIZE)
         (Transcriber.handleFileSelection render file)
  /\ (Transcriber.size file <= Transcriber.MAX_FILE_SIZE ->
      Transcriber.handleFileSelection render file = [Transcriber.Whole file])
  /\ (Transcriber.MAX_FILE_SIZE < Transcriber.size file ->
      forall audioBuffer,
        Transcriber.audio file = Some audioBuffer ->
        (1 <= Chunker.targetFrames audioBuffer)%nat ->
        exists chunks : list Chunker.Chunk,
          Chunker.splitAudio render audioBuffer = Some chunks
          /\ chunks <> []
          /\ Transcriber.handleFileSelection render file
             = map Transcriber.Piece chunks)
  /\ (Transcriber.MAX_FILE_SIZE < Transcriber.size file ->
      Transcriber.audio file = None
      \/ (exists audioBuffer,
            Transcriber.audio file = Some audioBuffer
            /\ Chunker.targetFrames audioBuffer = 0%nat) ->
      Transcriber.handleFileSelection render file = []).
Proof.
  intros Hrate. unfold Transcriber.handleFileSelection.
  destruct (Transcriber.MAX_FILE_SIZE <? Transcriber.size file) eqn:Hbig.
  - apply Z.ltb_lt in Hbig.
    split; [| split; [lia | split]].
    + destruct (Transcriber.audio file) as [audioBuffer|]; [| constructor].
      destruct (Nat.eq_dec (Chunker.targetFrames audioBuffer) 0%nat)
        as [Hzero | Hsome].
      * unfold Chunker.splitAudio.
        rewrite (splitAudioWith_refused 300 audioBuffer Hzero). constructor.
      * destruct (splitAudio_files audioBuffer (Hrate _ eq_refl) ltac:(lia))
          as (chunks & -> & _ & Hall).
        apply Forall_map. eapply Forall_impl; [exact Hall |]. cbn beta.
        intros c (bytes & Hfile & _ & _ & Hlt).
        cbn [Transcriber.partSize]. rewrite Hfile. lia.
    + intros _ audioBuffer Haudio Hframes. rewrite Haudio.
      destruct (splitAudio_files audioBuffer (Hrate _ Haudio) Hframes)
        as (chunks & Hrun & Hne & _).
      exists chunks. rewrite Hrun. repeat split; assumption.
    + intros _ [-> | (audioBuffer & -> & Hzero)]; [reflexivity |].
      unfold Chunker.splitAudio.
      now rewrite (splitAudioWith_refused 300 audioBuffer Hzero).
  - apply Z.ltb_ge in Hbig.
    split; [| split; [reflexivity | split; lia]].
    constructor; [exact Hbig | constructor].
Qed.

End PartsProperties.

(** A buffer of one frame at 48 kHz lasts less than 300 seconds, and less
    than one frame at 16 kHz: [splitAudio] returns no part at all, where
    section 4.2 has exactly one chunk for a buffer that lasts at most the
    chunk duration. *)
Lemma splitAudio_refuses_short_audio :
  (WebAudio.duration64
     {| WebAudio.sampleRate := 48000; WebAudio.length := 1;
        WebAudio.channelData := [[JS.Fin (1 # 2)]] |} <= 300)%Q
  /\ Chunker.splitAudio (fun _ n => replicate n (JS.Fin 0))
       {| WebAudio.sampleRate := 48000; WebAudio.length := 1;
          WebAudio.channelData := [[JS.Fin (1 # 2)]] |}
     = None.
Proof. split; [vm_compute; discriminate | vm_compute; reflexivity]. Qed.

(** Two and a half seconds at 48 kHz, cut in parts of one second. *)
Lemma splitAudio_chunks_witness :
  let render := fun (_ : WebAudio.AudioBuffer) (n : nat) =>
                  replicate n (JS.Fin 0) in
  let audioBuffer :=
    {| WebAudio.sampleRate := 48000;
       WebAudio.length := Z.to_nat 120000;
       WebAudio.channelData :=
         [replicate (Z.to_nat 120000) (JS.Fin (1 # 2))] |} in
  Z.of_nat (Chunker.targetFrames audioBuffer) = 40000
  /\ exists chunks : list Chunker.Chunk,
       Chunker.splitAudioWith render 1 audioBuffer = Some chunks
       /\ concat (map Chunker.chunkData chunks)
          = render audioBuffer (Chunker.targetFrames audioBuffer)
       /\ Z.of_nat (length chunks) = 3.
Proof.
  intros render audioBuffer.
  assert (Hframes : Z.of_nat (Chunker.targetFrames audioBuffer) = 40000).
  { unfold Chunker.targetFrames, WebAudio.duration64, WebAudio.duration.
    cbn [audioBuffer WebAudio.length WebAudio.sampleRate].
    rewrite (Z2Nat.id 120000) by discriminate.
    rewrite Z2Nat.id by (vm_compute; discriminate).
    vm_compute. reflexivity. }
  split; [exact Hframes |].
  destruct (splitAudio_chunks render
              (fun _ n => length_replicate n (JS.Fin 0))
              1 audioBuffer ltac:(lia) ltac:(reflexivity))
    as [_ Hparts].
  destruct (Hparts ltac:(lia))
    as (chunks & Hrun & Hcat & _ & _ & _ & Hcount & _).
  exists chunks. split; [exact Hrun |]. split; [exact Hcat |].
  rewrite Hcount.
  rewrite Nat2Z.inj_div, Nat2Z.inj_sub, Nat2Z.inj_add, Hframes by lia.
  rewrite Z2Nat.id by discriminate. reflexivity.
Defined.

Lemma splitAudio_file_sizes_witness :
  let render := fun (_ : WebAudio.AudioBuffer) (n : nat) =>
                  replicate n (JS.Fin 0) in
  let audioBuffer :=
    {| WebAudio.sampleRate := 48000; WebAudio.length := 4800;
       WebAudio.channelData := [replicate 4800 (JS.Fin (1 # 2))] |} in
  exists chunks : list Chunker.Chunk,
    Chunker.splitAudio render audioBuffer = Some chunks
    /\ chunks <> []
    /\ Forall (fun c =>
                 exists bytes : list byte,
                   Chunker.chunkFile c = Some bytes
                   /\ length bytes
                      = (44 + 2 * length (Chunker.chunkData c))%nat
                   /\ Z.of_nat (length bytes) <= 9600044
                   /\ Z.of_nat (length bytes) < Transcriber.MAX_FILE_SIZE)
              chunks.
Proof.
  intros render audioBuffer.
  destruct (splitAudio_file_sizes render
              (fun _ n => length_replicate n (JS.Fin 0)) audioBuffer
              ltac:(reflexivity))
    as [_ Hparts].
  apply Hparts.
  assert (Hframes : Chunker.targetFrames audioBuffer = 1600%nat)
    by (vm_compute; reflexivity).
  rewrite Hframes. vm_compute. lia.
Defined.

(** Sixteen minutes and forty seconds at 48 kHz: four parts. *)
Lemma splitAudio_part_count_witness :
  let render := fun (_ : WebAudio.AudioBuffer) (n : nat) =>
                  replicate n (JS.Fin 0) in
  let audioBuffer :=
    {| WebAudio.sampleRate := 48000;
       WebAudio.length := Z.to_nat 48000000;
       WebAudio.channelData :=
         [replicate (Z.to_nat 48000000) (JS.Fin (1 # 2))] |} in
  exists chunks : list Chunker.Chunk,
    Chunker.splitAudio render audioBuffer = Some chunks
    /\ Z.of_nat (length chunks) = 4.
Proof.
  intros render audioBuffer.
  assert (Hframes : Z.of_nat (Chunker.targetFrames audioBuffer) = 16000000).
  { unfold Chunker.targetFrames, WebAudio.duration64, WebAudio.duration.
    cbn [audioBuffer WebAudio.length WebAudio.sampleRate].
    rewrite (Z2Nat.id 48000000) by discriminate.
    rewrite Z2Nat.id by (vm_compute; discriminate).
    vm_compute. reflexivity. }
  destruct (splitAudio_part_count render
              (fun _ n => length_replicate n (JS.Fin 0)) audioBuffer
              ltac:(reflexivity) ltac:(lia))
    as (chunks & Hrun & Hcount & _).
  exists chunks. split; [exact Hrun |].
  rewrite Hcount, Hframes. reflexivity.
Defined.

(** A 16 MB upload whose audio is a tenth of a second long. *)
Lemma handleFileSelection_sizes_witness :
  let render := fun (_ : WebAudio.AudioBuffer) (n : nat) =>
                  replicate n (JS.Fin 0) in
  let audioBuffer :=
    {| WebAudio.sampleRate := 48000; WebAudio.length := 4800;
       WebAudio.channelData := [replicate 4800 (JS.Fin (1 # 2))] |} in
  let file := {| Transcriber.size := 16 * 1024 * 1024;
                 Transcriber.audio := Some audioBuffer |} in
  exists chunks : list Chunker.Chunk,
    Chunker.splitAudio render audioBuffer = Some chunks
    /\ chunks <> []
    /\ Transcriber.handleFileSelection render file
       = map Transcriber.Piece chunks.
Proof.
  intros render audioBuffer file.
  destruct (handleFileSelection_sizes render
              (fun _ n => length_replicate n (JS.Fin 0)) file)
    as (_ & _ & Hlarge & _).
  { intros b Hb. injection Hb as <-. reflexivity. }
  apply (Hlarge ltac:(reflexivity) audioBuffer eq_refl).
  assert (Hframes : Chunker.targetFrames audioBuffer = 1600%nat)
    by (vm_compute; reflexivity).
  rewrite Hframes. vm_compute. lia.
Defined.

(** ** The playback timeline under any message *)

Lemma catchUp_bounds (next now : Q) :
  (now <= Scheduler.catchUp next now)%Q
  /\ (next <= Scheduler.catchUp next now)%Q.
Proof.
  rewrite catchUp_max. split; [apply Q.le_max_r | apply Q.le_max_l].
Qed.

Lemma decodeAudioData_rate (data : list byte) (rate : Z) (nc : nat)
    (buf : WebAudio.AudioBuffer) :
  Pcm.decodeAudioData data rate nc = Some buf ->
  WebAudio.sampleRate buf = rate
  /\ exists vs, JS.int16s_of_bytes data = Some vs
                /\ WebAudio.length buf = (length vs / nc)%nat.
Proof.
  unfold Pcm.decodeAudioData.
  destruct (JS.int16s_of_bytes data) as [vs|]; [| discriminate].
  destruct (_ || _); [discriminate |].
  intros [= <-]. split; [reflexivity |]. now exists vs.
Qed.

Lemma playable_duration (base64 : string) (buf : WebAudio.AudioBuffer) :
  (Codec.decodeAudio base64
   ≫= fun audioBytes => Pcm.decodeAudioData audioBytes 24000 1) = Some buf ->
  (0 <= WebAudio.duration buf)%Q.
Proof.
  destruct (Codec.decodeAudio base64) as [bytes|]; [| discriminate].
  cbn [mbind option_bind]. intros Hdec.
  apply decodeAudioData_rate in Hdec. destruct Hdec as [Hrate _].
  unfold WebAudio.duration. rewrite Hrate.
  unfold Qle, Qdiv, Qmult, Qinv, inject_Z. cbn. lia.
Qed.

Lemma handleAudio_facts (now : Q) (base64 : string) (st : Scheduler.State) :
  let st' := fst (Scheduler.handleAudio now base64 st) in
  let effects := snd (Scheduler.handleAudio now base64 st) in
  (now <= Scheduler.nextStartTime st')%Q
  /\ (Scheduler.nextStartTime st <= Scheduler.nextStartTime st')%Q
  /\ Scheduler.sources st ⊆ Scheduler.sources st'
  /\ Forall (fun e => match e with
                      | Scheduler.Start _ t => (now <= t)%Q
                      | Scheduler.Stop _ => False
                      end) effects.
Proof.
  unfold Scheduler.handleAudio.
  destruct (catchUp_bounds (Scheduler.nextStartTime st) now) as [Hnow Hnext].
  destruct (Codec.decodeAudio base64 ≫= _) as [buf|] eqn:Hdec; cbn.
  - apply playable_duration in Hdec.
    repeat split; try lra; [set_solver |].
    constructor; [exact Hnow | constructor].
  - repeat split; try lra; [set_solver | constructor].
Qed.

(** X8. Whatever the state and the message, no source is started before
    the clock reading at which the message is handled; and once a message
    with audio has been handled the cursor is not behind that reading. *)
Theorem playback_never_in_the_past (now : Q) (m : Scheduler.Message)
    (st : Scheduler.State) :
  let st' := fst (Scheduler.handleServerMessage (Some now) m st) in
  let effects := snd (Scheduler.handleServerMessage (Some now) m st) in
  Forall (fun t => (now <= t)%Q) (Scheduler.startTimes effects)
  /\ (forall c s, Scheduler.base64Audio m = Some (String c s) ->
        (now <= Scheduler.nextStartTime st')%Q).
Proof.
  unfold Scheduler.handleServerMessage.
  assert (Hstops : forall l, Scheduler.startTimes (map Scheduler.Stop l) = []).
  { induction l as [|x l IH]; [reflexivity | exact IH]. }
  assert (Hstarts : forall now base64 st0,
             Forall (fun t => (now <= t)%Q)
               (Scheduler.startTimes
                  (snd (Scheduler.handleAudio now base64 st0)))).
  { intros now0 b st0.
    destruct (handleAudio_facts now0 b st0) as (_ & _ & _ & Hall).
    induction Hall as [|[src | src t] l Hx _ IH]; cbn; [constructor | tauto |].
    constructor; assumption. }
  destruct (Scheduler.interrupted m);
    destruct (Scheduler.base64Audio m) as [[|c s]|];
    cbn [fst snd Scheduler.handleInterruption];
    try (split; [first [rewrite Hstops | idtac]; constructor
                | intros ? ? [=]]).
  - pose proof (Hstarts now (String c s)
                  {| Scheduler.nextStartTime := 0; Scheduler.sources := ∅;
                     Scheduler.created := Scheduler.created st |}) as Hs.
    destruct (handleAudio_facts now (String c s)
                {| Scheduler.nextStartTime := 0; Scheduler.sources := ∅;
                   Scheduler.created := Scheduler.created st |})
      as (Hnow & _).
    destruct (Scheduler.handleAudio now (String c s) _) as [st1 starts].
    cbn [fst snd] in *. split.
    + unfold Scheduler.startTimes in *. rewrite omap_app.
      fold (Scheduler.startTimes (map Scheduler.Stop
                                    (elements (Scheduler.sources st)))).
      rewrite Hstops. exact Hs.
    + intros _ _ _. exact Hnow.
  - pose proof (Hstarts now (String c s) st) as Hs.
    destruct (handleAudio_facts now (String c s) st) as (Hnow & _).
    destruct (Scheduler.handleAudio now (String c s) st) as [st1 starts].
    cbn [fst snd app] in *. split; [exact Hs | intros _ _ _; exact Hnow].
Qed.

Lemma playback_never_in_the_past_witness :
  let m := {| Scheduler.interrupted := true;
              Scheduler.base64Audio := Some "AAA="%string |} in
  let st := {| Scheduler.nextStartTime := 0; Scheduler.sources := {[3%nat]};
               Scheduler.created := 4 |} in
  (7 <= Scheduler.nextStartTime
          (fst (Scheduler.handleServerMessage (Some 7%Q) m st)))%Q.
Proof.
  intros m st.
  destruct (playback_never_in_the_past 7 m st) as [_ Hcursor].
  apply (Hcursor "A"%char "AA="%string). reflexivity.
Defined.

(** X9. A message without the interruption flag never stops or removes a
    source and never moves the cursor back; it starts at most one source. *)
Theorem uninterrupted_message_keeps_timeline (now : Q)
    (m : Scheduler.Message) (st : Scheduler.State) :
  Scheduler.interrupted m = false ->
  let st' := fst (Scheduler.handleServerMessage (Some now) m st) in
  let effects := snd (Scheduler.handleServerMessage (Some now) m st) in
  (Scheduler.nextStartTime st <= Scheduler.nextStartTime st')%Q
  /\ Scheduler.sources st ⊆ Scheduler.sources st'
  /\ (forall src, Scheduler.Stop src ∉ effects)
  /\ (length effects <= 1)%nat.
Proof.
  intros Hint. unfold Scheduler.handleServerMessage. rewrite Hint.
  destruct (Scheduler.base64Audio m) as [[|c s]|]; cbn [fst snd app].
  1, 3: repeat split; [lra | set_solver | intros src Hin; inversion Hin
                      | cbn; lia].
  destruct (handleAudio_facts now (String c s) st) as (_ & Hnext & Hsub & Hall).
  assert (Hlen : (length (snd (Scheduler.handleAudio now (String c s) st))
                  <= 1)%nat).
  { unfold Scheduler.handleAudio. destruct (_ ≫= _); cbn; lia. }
  destruct (Scheduler.handleAudio now (String c s) st) as [st1 starts].
  cbn [fst snd] in *. repeat split; try assumption.
  intros src Hin. rewrite Forall_forall in Hall. exact (Hall _ Hin).
Qed.

Lemma uninterrupted_message_keeps_timeline_witness :
  let m := {| Scheduler.interrupted := false;
              Scheduler.base64Audio := Some "AAA="%string |} in
  let st := {| Scheduler.nextStartTime := 9; Scheduler.sources := {[3%nat]};
               Scheduler.created := 4 |} in
  (9 <= Scheduler.nextStartTime
          (fst (Scheduler.handleServerMessage (Some 7%Q) m st)))%Q.
Proof.
  intros m st.
  destruct (uninterrupted_message_keeps_timeline 7 m st eq_refl)
    as (Hcursor & _).
  exact Hcursor.
Defined.

Lemma int16s_of_bytes_even (bytes : list byte) :
  Nat.Even (length bytes) ->
  exists vs, JS.int16s_of_bytes bytes = Some vs
             /\ length vs = (length bytes / 2)%nat.
Proof.
  intros Heven.
  destruct (JS.int16s_of_bytes bytes) as [vs|] eqn:Hview.
  - exists vs. split; [reflexivity |].
    destruct (int16s_of_bytes_range bytes vs Hview) as [_ Hlen].
    rewrite Hlen, Nat.mul_comm. symmetry. now apply Nat.div_mul.
  - apply int16s_of_bytes_odd in Hview. exfalso.
    exact (Nat.Even_Odd_False _ Heven Hview).
Qed.

Lemma decodeAudio_of_empty_text : Codec.decodeAudio ""%string = Some [].
Proof. reflexivity. Qed.

(** X10. What the scheduler does with the audio of a message is decided
    by the bytes of its payload.  A payload of a positive even number of
    bytes is scheduled at [max(nextStartTime, now)] and moves the cursor
    [bytes / 2 / 24000] seconds past that point.  A payload that is not
    base64, or has an odd number of bytes, or none, schedules nothing: the
    failure is swallowed, the active set is untouched and the cursor is
    only caught up with the clock. *)
Theorem audio_payload_decides (now : Q) (base64 : string)
    (st : Scheduler.State) :
  (forall bytes : list byte,
     Codec.decodeAudio base64 = Some bytes ->
     Nat.Even (length bytes) -> bytes <> [] ->
     Scheduler.handleServerMessage (Some now)
       {| Scheduler.interrupted := false;
          Scheduler.base64Audio := Some base64 |} st
     = ({| Scheduler.nextStartTime :=
             Qmax (Scheduler.nextStartTime st) now
             + inject_Z (Z.of_nat (length bytes / 2)) / inject_Z 24000;
           Scheduler.sources :=
             {[Scheduler.created st]} ∪ Scheduler.sources st;
           Scheduler.created := S (Scheduler.created st) |},
        [Scheduler.Start (Scheduler.created st)
           (Qmax (Scheduler.nextStartTime st) now)]))
  /\ (Codec.decodeAudio base64 = None
      \/ (exists bytes : list byte,
            Codec.decodeAudio base64 = Some bytes
            /\ (Nat.Odd (length bytes) \/ bytes = [])) ->
      base64 <> ""%string ->
      Scheduler.handleServerMessage (Some now)
        {| Scheduler.interrupted := false;
           Scheduler.base64Audio := Some base64 |} st
      = ({| Scheduler.nextStartTime :=
              Qmax (Scheduler.nextStartTime st) now;
            Scheduler.sources := Scheduler.sources st;
            Scheduler.created := Scheduler.created st |}, [])).
Proof.
  split.
  - intros bytes Hdec Heven Hne.
    assert (Hb : base64 <> ""%string).
    { intros ->. rewrite decodeAudio_of_empty_text in Hdec. congruence. }
    destruct (int16s_of_bytes_even bytes Heven) as (vs & Hview & Hlen).
    assert (Hpos : (length vs =? 0)%nat = false).
    { apply Nat.eqb_neq. rewrite Hlen.
      destruct bytes as [|b0 [|b1 bytes]]; [congruence | |].
      - destruct Heven as [k Hk]. cbn in Hk. lia.
      - cbn [length]. intros Hz. apply Nat.div_small_iff in Hz; lia. }
    rewrite (handle_playable now _
               {| WebAudio.sampleRate := 24000;
                  WebAudio.length := length vs;
                  WebAudio.channelData :=
                    [Pcm.fillChannel vs 1 0 (length vs)
                       (replicate (length vs) (JS.Fin 0))] |}).
    + unfold WebAudio.duration. cbn [WebAudio.length WebAudio.sampleRate].
      now rewrite Hlen.
    + reflexivity.
    + unfold Scheduler.decoded. cbn [Scheduler.base64Audio].
      destruct base64 as [|c s]; [congruence |].
      rewrite Hdec. cbn [mbind option_bind]. unfold Pcm.decodeAudioData.
      rewrite Hview, Nat.div_1_r, Nat.mod_1_r, Hpos. reflexivity.
  - intros Hbad Hb. unfold Scheduler.handleServerMessage.
    cbn [Scheduler.interrupted Scheduler.base64Audio].
    destruct base64 as [|c s]; [congruence |].
    unfold Scheduler.handleAudio. rewrite catchUp_max.
    assert (Hnone : (Codec.decodeAudio (String c s)
                     ≫= fun audioBytes =>
                          Pcm.decodeAudioData audioBytes 24000 1) = None).
    { destruct Hbad as [-> | (bytes & -> & Hcase)]; [reflexivity |].
      cbn [mbind option_bind]. unfold Pcm.decodeAudioData.
      destruct Hcase as [Hodd | ->]; [| reflexivity].
      apply int16s_of_bytes_odd in Hodd. now rewrite Hodd. }
    rewrite Hnone. reflexivity.
Qed.

Lemma audio_payload_decides_witness :
  let st := {| Scheduler.nextStartTime := 0; Scheduler.sources := ∅;
               Scheduler.created := 0 |} in
  Scheduler.handleServerMessage (Some 5%Q)
    {| Scheduler.interrupted := false;
       Scheduler.base64Audio := Some "AAAAAA=="%string |} st
  = ({| Scheduler.nextStartTime :=
          Qmax 0 5 + inject_Z (Z.of_nat (4 / 2)) / inject_Z 24000;
        Scheduler.sources := {[0%nat]} ∪ ∅;
        Scheduler.created := 1 |},
     [Scheduler.Start 0 (Qmax 0 5)])
  /\ Scheduler.handleServerMessage (Some 5%Q)
       {| Scheduler.interrupted := false;
          Scheduler.base64Audio := Some "AAAA"%string |} st
     = ({| Scheduler.nextStartTime := Qmax 0 5;
           Scheduler.sources := ∅; Scheduler.created := 0 |}, []).
Proof.
  intros st. split.
  - apply (proj1 (audio_payload_decides 5 "AAAAAA=="%string st)
             [x00; x00; x00; x00]).
    + reflexivity.
    + exists 2%nat. reflexivity.
    + discriminate.
  - apply (proj2 (audio_payload_decides 5 "AAAA"%string st)).
    + right. exists [x00; x00; x00]. split; [reflexivity |].
      left. exists 1%nat. reflexivity.
    + discriminate.
Defined.

(** ** Ending a live session *)

(** X11. [stopSession], from any state of the refs and with or without a
    media stream in its closure: every active source is stopped, the
    tracks of a stream it holds are stopped and the state cleared, the
    active set is emptied and the cursor reset; after it a server message
    changes nothing and plays nothing, and a captured frame is not sent; a
    second [stopSession] leaves the refs as they are, closes no context
    or session and stops no source: it only repeats the disconnection of
    the capture nodes the refs still hold and, when its closure still
    holds the stream, the stopping of its tracks. *)
Theorem stopSession_is_final (stream : bool) (r : Session.Refs) :
  let stopped := fst (Session.stopSession stream r) in
  let effects := snd (Session.stopSession stream r) in
  (forall src, src ∈ Scheduler.sources (Session.player r) ->
               Session.Playback (Scheduler.Stop src) ∈ effects)
  /\ (Session.StopTracks ∈ effects <-> stream = true)
  /\ Scheduler.sources (Session.player stopped) = ∅
  /\ Scheduler.nextStartTime (Session.player stopped) = 0%Q
  /\ (forall now m, Session.onmessage now m stopped = (stopped, []))
  /\ (forall frame, Session.audioprocess frame stopped = [])
  /\ (forall again : bool,
        Session.stopSession again stopped
        = (stopped,
           (if Session.source r then [Session.DisconnectSource] else [])
           ++ (if Session.scriptProcessor r
               then [Session.DisconnectProcessor] else [])
           ++ (if again
               then [Session.StopTracks; Session.ClearStream] else []))).
Proof.
  cbn [fst snd Session.stopSession].
  split; [| split; [| split; [| split; [| split; [| split]]]]].
  - intros src Hin. rewrite !elem_of_app. do 4 right. left.
    apply list_elem_of_fmap. exists src. split; [reflexivity |].
    now apply elem_of_elements.
  - rewrite !elem_of_app, list_elem_of_fmap. split.
    + intros [H | [H | [H | [H | [H | [H | H]]]]]].
      * destruct (Session.source r); [| inversion H].
        apply list_elem_of_singleton in H. discriminate H.
      * destruct (Session.scriptProcessor r); [| inversion H].
        apply list_elem_of_singleton in H. discriminate H.
      * destruct (Session.inputAudioContext r); [| inversion H].
        apply list_elem_of_singleton in H. discriminate H.
      * destruct (Session.outputAudioContext r); [| inversion H].
        apply list_elem_of_singleton in H. discriminate H.
      * destruct H as (src & Hsrc & _). discriminate Hsrc.
      * destruct stream; [reflexivity | inversion H].
      * destruct (Session.activeSession r); [| inversion H].
        apply list_elem_of_singleton in H. discriminate H.
    + intros ->. do 5 right. left. left.
  - reflexivity.
  - reflexivity.
  - intros now m. reflexivity.
  - intros frame. unfold Session.audioprocess.
    cbn [Session.onaudioprocess Session.sessionPromise].
    now destruct (if Session.scriptProcessor r then false else _).
  - intros again. unfold Session.stopSession.
    cbn [Session.source Session.scriptProcessor Session.onaudioprocess
         Session.inputAudioContext Session.outputAudioContext
         Session.activeSession Session.player Session.sessionPromise
         Scheduler.sources Scheduler.created].
    rewrite elements_empty. cbn [map app].
    destruct (Session.scriptProcessor r), (Session.source r), again;
      reflexivity.
Qed.

(** The closure of a running session, called twice. *)
Lemma stopSession_is_final_witness :
  let r := {| Session.inputAudioContext := true;
              Session.outputAudioContext := true;
              Session.source := true;
              Session.scriptProcessor := true;
              Session.onaudioprocess := true;
              Session.sessionPromise := true;
              Session.activeSession := true;
              Session.player :=
                {| Scheduler.nextStartTime := 12;
                   Scheduler.sources := {[5%nat]};
                   Scheduler.created := 6 |} |} in
  Session.Playback (Scheduler.Stop 5) ∈ snd (Session.stopSession true r)
  /\ Session.StopTracks ∈ snd (Session.stopSession true r)
  /\ snd (Session.stopSession true (fst (Session.stopSession true r)))
     = [Session.DisconnectSource; Session.DisconnectProcessor;
        Session.StopTracks; Session.ClearStream].
Proof.
  intros r.
  destruct (stopSession_is_final true r)
    as (Hstop & Htracks & _ & _ & _ & _ & Hagain).
  split; [| split].
  - apply Hstop. cbn. set_solver.
  - apply Htracks. reflexivity.
  - rewrite (Hagain true). reflexivity.
Defined.

(** ** Attempts, waits and the transcript *)

Ltac consumed l rest :=
  lazymatch l with
  | rest => constr:(@nil Dispatcher.Response)
  | ?x :: ?l' => let p := consumed l' rest in constr:(x :: p)
  end.

Ltac settle_attempts :=
  cbn [Dispatcher.responses Dispatcher.trace];
  lazymatch goal with
  | |- exists used events,
         ?l = used ++ ?rest /\ _ =>
      let u := consumed l rest in
      exists u; eexists;
      split; [reflexivity |];
      split; [rewrite <- ?app_assoc; reflexivity |];
      unfold Dispatcher.RETRY_DELAY_MS; cbn; repeat split; lia
  end.

Ltac attempt_step :=
  cbn [andb Dispatcher.attemptLoop Dispatcher.maxRetries Nat.ltb Nat.leb
       Dispatcher.generateContent Dispatcher.responses Dispatcher.trace
       Dispatcher.wait Nat.sub Nat.add].

(** X12. One call of [transcribeSingleFile] that returns or throws has
    made at most three requests, each answered by the next response of
    the collaborator in order, and has waited at most 15 seconds in all. *)
Theorem transcribeSingleFile_bounded (file : Dispatcher.File)
    (w w' : Dispatcher.World) (o : Dispatcher.Outcome string) :
  Dispatcher.transcribeSingleFile file w = Some (o, w') ->
  exists (used : list Dispatcher.Response) (events : list Dispatcher.Event),
    Dispatcher.responses w = used ++ Dispatcher.responses w'
    /\ Dispatcher.trace w' = Dispatcher.trace w ++ events
    /\ length used = Measure.callCount events
    /\ (Measure.callCount events <= 3)%nat
    /\ 0 <= Measure.waited events <= 15000.
Proof.
  unfold Dispatcher.transcribeSingleFile.
  destruct w as [rs tr]. destruct (Dispatcher.base64 file).
  2: { intros [= <- <-]. exists [], []. cbn. rewrite app_nil_r.
       repeat split; lia. }
  destruct rs as [|[t1 | e1] rs]; attempt_step; [discriminate | |].
  { intros [= <- <-]. settle_attempts. }
  destruct (Dispatcher.isOverloaded e1); attempt_step.
  2: { intros [= <- <-]. settle_attempts. }
  destruct rs as [|[t2 | e2] rs]; attempt_step; [discriminate | |].
  { intros [= <- <-]. settle_attempts. }
  destruct (Dispatcher.isOverloaded e2); attempt_step.
  2: { intros [= <- <-]. settle_attempts. }
  destruct rs as [|[t3 | e3] rs]; attempt_step; [discriminate | |].
  { intros [= <- <-]. settle_attempts. }
  rewrite andb_false_r.
  intros [= <- <-]. settle_attempts.
Qed.

Lemma transcribeSingleFile_bounded_witness :
  exists (used : list Dispatcher.Response) (events : list Dispatcher.Event),
    [Dispatcher.Answer (Some "hello"%string); Dispatcher.Answer None]
    = used ++ [Dispatcher.Answer None]
    /\ (Measure.callCount events <= 3)%nat.
Proof.
  destruct (transcribeSingleFile_bounded
              {| Dispatcher.name := "a.wav"; Dispatcher.type := "audio/wav";
                 Dispatcher.base64 := Some "UklGRg==" |}%string
              {| Dispatcher.responses :=
                   [Dispatcher.Answer (Some "hello"%string);
                    Dispatcher.Answer None];
                 Dispatcher.trace := [] |}
              {| Dispatcher.responses := [Dispatcher.Answer None];
                 Dispatcher.trace := [Dispatcher.Call "a.wav"%string] |}
              (Dispatcher.Return "hello"%string) eq_refl)
    as (used & events & Hused & _ & _ & Hcalls & _).
  exists used, events. split; [exact Hused | exact Hcalls].
Defined.

(** X13. A part whose request fails three times with a transient
    signature is given up: exactly three requests, waits of 5 and 10
    seconds between them and none after the last, and the error thrown is
    the third one. *)
Theorem retries_are_exhausted (file : Dispatcher.File) (payload : string)
    (e1 e2 e3 : Dispatcher.JsError) (rest : list Dispatcher.Response)
    (tr : list Dispatcher.Event) :
  Dispatcher.base64 file = Some payload ->
  Dispatcher.isOverloaded e1 = true ->
  Dispatcher.isOverloaded e2 = true ->
  Dispatcher.transcribeSingleFile file
    {| Dispatcher.responses :=
         Dispatcher.Failure e1 :: Dispatcher.Failure e2
         :: Dispatcher.Failure e3 :: rest;
       Dispatcher.trace := tr |}
  = Some (Dispatcher.Throw e3,
          {| Dispatcher.responses := rest;
             Dispatcher.trace :=
               tr ++ [Dispatcher.Call (Dispatcher.name file);
                      Dispatcher.Wait 5000;
                      Dispatcher.Call (Dispatcher.name file);
                      Dispatcher.Wait 10000;
                      Dispatcher.Call (Dispatcher.name file)] |}).
Proof.
  intros Hread H1 H2. unfold Dispatcher.transcribeSingleFile. rewrite Hread.
  cbn [Dispatcher.attemptLoop Dispatcher.maxRetries Nat.ltb Nat.leb
       Dispatcher.generateContent Dispatcher.responses Dispatcher.trace
       Dispatcher.wait Nat.sub Nat.add andb].
  rewrite H1.
  cbn [Dispatcher.attemptLoop Dispatcher.maxRetries Nat.ltb Nat.leb
       Dispatcher.generateContent Dispatcher.responses Dispatcher.trace
       Dispatcher.wait Nat.sub Nat.add andb].
  rewrite H2.
  cbn [Dispatcher.attemptLoop Dispatcher.maxRetries Nat.ltb Nat.leb
       Dispatcher.generateContent Dispatcher.responses Dispatcher.trace
       Dispatcher.wait Nat.sub Nat.add andb].
  rewrite andb_false_r, <- !app_assoc. reflexivity.
Qed.

Lemma retries_are_exhausted_witness :
  let file := {| Dispatcher.name := "a.wav"; Dispatcher.type := "audio/wav";
                 Dispatcher.base64 := Some "UklGRg==" |}%string in
  let busy := {| Dispatcher.message := Some "429 Too Many Requests"%string |} in
  Dispatcher.transcribeSingleFile file
    {| Dispatcher.responses :=
         [Dispatcher.Failure busy; Dispatcher.Failure busy;
          Dispatcher.Failure busy];
       Dispatcher.trace := [] |}
  = Some (Dispatcher.Throw busy,
          {| Dispatcher.responses := [];
             Dispatcher.trace :=
               [Dispatcher.Call "a.wav"%string; Dispatcher.Wait 5000;
                Dispatcher.Call "a.wav"%string; Dispatcher.Wait 10000;
                Dispatcher.Call "a.wav"%string] |}).
Proof.
  intros file busy.
  apply (retries_are_exhausted file "UklGRg=="%string busy busy busy [] []);
    reflexivity.
Defined.

Lemma answer_first_attempt (file : Dispatcher.File) (payload : string)
    (text : option string) (rs : list Dispatcher.Response)
    (tr : list Dispatcher.Event) :
  Dispatcher.base64 file = Some payload ->
  Dispatcher.transcribeSingleFile file
    {| Dispatcher.responses := Dispatcher.Answer text :: rs;
       Dispatcher.trace := tr |}
  = Some (Dispatcher.Return (match text with Some t => t | None => "" end),
          {| Dispatcher.responses := rs;
             Dispatcher.trace := tr ++ [Dispatcher.Call (Dispatcher.name file)] |}).
Proof.
  intros Hread. unfold Dispatcher.transcribeSingleFile. now rewrite Hread.
Qed.

Lemma partsLoop_answers (parts : list Dispatcher.File) :
  forall (answers : list (option string)) (i : nat) (full shown : string)
         (rest : list Dispatcher.Response) (tr : list Dispatcher.Event),
    (1 <= i)%nat ->
    Forall (fun f => is_Some (Dispatcher.base64 f)) parts ->
    length answers = length parts ->
    exists shown' : string,
      Dispatcher.partsLoop parts i full shown
        {| Dispatcher.responses := map Dispatcher.Answer answers ++ rest;
           Dispatcher.trace := tr |}
      = Some (Dispatcher.Return
                (fold_left
                   (fun full t =>
                      (full ++ (if Dispatcher.nonEmpty full
                                then Dispatcher.newline ++ Dispatcher.newline
                                else "")
                       ++ t)%string)
                   (filter (fun t => Dispatcher.nonEmpty t = true)
                      (map (fun o => match o with
                                     | Some t => t
                                     | None => ""%string
                                     end) answers))
                   full),
              shown',
              {| Dispatcher.responses := rest;
                 Dispatcher.trace :=
                   tr ++ flat_map
                           (fun f => [Dispatcher.Wait Dispatcher.CHUNK_DELAY_MS;
                                      Dispatcher.Call (Dispatcher.name f)])
                           parts |}).
Proof.
  induction parts as [|f parts IH];
    intros answers i full shown rest tr Hi Hread Hlen.
  - destruct answers; [| discriminate]. exists shown. cbn.
    now rewrite app_nil_r.
  - destruct answers as [|o answers]; [discriminate |].
    apply Forall_cons in Hread. destruct Hread as [[payload Hf] Hread].
    cbn [Dispatcher.partsLoop map app].
    replace (0 <? i)%nat with true by (symmetry; apply Nat.ltb_lt; lia).
    unfold Dispatcher.wait. cbn [Dispatcher.responses Dispatcher.trace].
    rewrite (answer_first_attempt f payload o _ _ Hf).
    cbn [map flat_map]. 
    destruct (Dispatcher.nonEmpty (match o with Some t => t | None => "" end))
      eqn:Hne.
    + rewrite filter_cons_True by exact Hne. cbn [fold_left].
      destruct (IH answers (i + 1)%nat
                  (full ++ (if Dispatcher.nonEmpty full
                            then Dispatcher.newline ++ Dispatcher.newline
                            else "")
                   ++ match o with Some t => t | None => "" end)%string
                  (full ++ (if Dispatcher.nonEmpty full
                            then Dispatcher.newline ++ Dispatcher.newline
                            else "")
                   ++ match o with Some t => t | None => "" end)%string
                  rest
                  ((tr ++ [Dispatcher.Wait Dispatcher.CHUNK_DELAY_MS])
                   ++ [Dispatcher.Call (Dispatcher.name f)]))
        as (shown' & ->); [lia | exact Hread | cbn in Hlen; lia |].
      exists shown'. now rewrite <- !app_assoc.
    + rewrite filter_cons_False by (rewrite Hne; discriminate).
      destruct (IH answers (i + 1)%nat full shown rest
                  ((tr ++ [Dispatcher.Wait Dispatcher.CHUNK_DELAY_MS])
                   ++ [Dispatcher.Call (Dispatcher.name f)]))
        as (shown' & ->); [lia | exact Hread | cbn in Hlen; lia |].
      exists shown'. now rewrite <- !app_assoc.
Qed.

Lemma oneByOne_cons (f : Dispatcher.File) (parts : list Dispatcher.File) :
  Dispatcher.Call (Dispatcher.name f)
  :: flat_map (fun g => [Dispatcher.Wait Dispatcher.CHUNK_DELAY_MS;
                         Dispatcher.Call (Dispatcher.name g)]) parts
  = Measure.oneByOne (f :: parts).
Proof.
  revert f. induction parts as [|g parts IH]; intros f; [reflexivity |].
  cbn [flat_map app Measure.oneByOne]. now rewrite IH.
Qed.

(** X14. When every part can be read and every request is answered at
    the first attempt, the flow makes one request per part, in order, with
    the 5-second delay between consecutive requests and none before the
    first; the transcript displayed is the non-empty answers joined by
    blank lines, or the notice that no transcript was produced when every
    answer is empty or missing. *)
Theorem flow_runs_parts_in_order (parts : list Dispatcher.File)
    (answers : list (option string)) (shown : string)
    (rest : list Dispatcher.Response) (tr : list Dispatcher.Event) :
  Forall (fun f => is_Some (Dispatcher.base64 f)) parts ->
  length answers = length parts ->
  Dispatcher.handleTranscriptionFlow parts shown
    {| Dispatcher.responses := map Dispatcher.Answer answers ++ rest;
       Dispatcher.trace := tr |}
  = Some (match filter (fun t => Dispatcher.nonEmpty t = true)
                  (map (fun o => match o with
                                 | Some t => t
                                 | None => ""%string
                                 end) answers) with
          | [] => "Không tạo được bản phiên âm."%string
          | texts => Measure.paragraphs texts
          end,
          {| Dispatcher.responses := rest;
             Dispatcher.trace := tr ++ Measure.oneByOne parts |}).
Proof.
  intros Hread Hlen. unfold Dispatcher.handleTranscriptionFlow.
  destruct parts as [|f parts].
  { destruct answers; [| discriminate]. cbn. now rewrite app_nil_r. }
  destruct answers as [|o answers]; [discriminate |].
  apply Forall_cons in Hread. destruct Hread as [[payload Hf] Hread].
  cbn [Dispatcher.partsLoop map app Nat.ltb Nat.leb].
  rewrite (answer_first_attempt f payload o _ _ Hf).
  rewrite <- oneByOne_cons.
  set (text := match o with Some t => t | None => ""%string end).
  destruct (Dispatcher.nonEmpty text) eqn:Hne.
  - rewrite filter_cons_True by exact Hne.
    destruct (partsLoop_answers parts answers (0 + 1)%nat
                text text rest
                (tr ++ [Dispatcher.Call (Dispatcher.name f)]))
      as (shown' & Hrun); [lia | exact Hread | cbn in Hlen; lia |].
    change ("" ++ (if Dispatcher.nonEmpty ""
                   then Dispatcher.newline ++ Dispatcher.newline else "")
            ++ text)%string with text.
    rewrite Hrun.
    pose proof (partsLoop_shown _ _ _ _ _ _ _ _ Hrun (fun _ => eq_refl))
      as Hshown.
    rewrite accumulate_paragraphs in * by exact Hne.
    assert (Hfull : Dispatcher.nonEmpty
                      (Measure.paragraphs
                         (text :: filter (fun t => Dispatcher.nonEmpty t = true)
                                    (map (fun o => match o with
                                                   | Some t => t
                                                   | None => ""%string
                                                   end) answers))) = true).
    { unfold Measure.paragraphs. cbn [String.concat].
      destruct (filter _ _); [exact Hne | now apply nonEmpty_app]. }
    rewrite Hfull, (Hshown Hfull), <- app_assoc. reflexivity.
  - rewrite filter_cons_False by (rewrite Hne; discriminate).
    destruct (partsLoop_answers parts answers (0 + 1)%nat ""%string shown rest
                (tr ++ [Dispatcher.Call (Dispatcher.name f)]))
      as (shown' & Hrun); [lia | exact Hread | cbn in Hlen; lia |].
    rewrite Hrun.
    pose proof (partsLoop_shown _ _ _ _ _ _ _ _ Hrun (fun H => ltac:(discriminate H)))
      as Hshown.
    destruct (filter _ _) as [|t texts] eqn:Hfilter.
    + cbn [fold_left Dispatcher.nonEmpty]. now rewrite <- app_assoc.
    + assert (Ht : Dispatcher.nonEmpty t = true).
      { assert (Hin : t ∈ t :: texts) by left.
        rewrite <- Hfilter in Hin. now apply list_elem_of_filter in Hin. }
      cbn [fold_left Dispatcher.nonEmpty] in *.
      change ("" ++ "" ++ t)%string with t in *.
      rewrite accumulate_paragraphs in * by exact Ht.
      assert (Hfull : Dispatcher.nonEmpty (Measure.paragraphs (t :: texts))
                      = true).
      { unfold Measure.paragraphs. cbn [String.concat].
        destruct texts; [exact Ht | now apply nonEmpty_app]. }
      rewrite Hfull, (Hshown Hfull), <- app_assoc. reflexivity.
Qed.

Lemma flow_runs_parts_in_order_witness :
  let part n :=
    {| Dispatcher.name := n; Dispatcher.type := "audio/wav"%string;
       Dispatcher.base64 := Some "UklGRg=="%string |} in
  Dispatcher.handleTranscriptionFlow
    [part "part_1.wav"%string; part "part_2.wav"%string;
     part "part_3.wav"%string]
    ""%string
    {| Dispatcher.responses :=
         map Dispatcher.Answer [Some "mot"%string; None; Some "ba"%string]
         ++ [];
       Dispatcher.trace := [] |}
  = Some (("mot" ++ Dispatcher.newline ++ Dispatcher.newline ++ "ba")%string,
          {| Dispatcher.responses := [];
             Dispatcher.trace :=
               [Dispatcher.Call "part_1.wav"%string; Dispatcher.Wait 5000;
                Dispatcher.Call "part_2.wav"%string; Dispatcher.Wait 5000;
                Dispatcher.Call "part_3.wav"%string] |}).
Proof.
  intros part.
  apply (flow_runs_parts_in_order
           [part "part_1.wav"%string; part "part_2.wav"%string;
            part "part_3.wav"%string]
           [Some "mot"%string; None; Some "ba"%string] ""%string [] []).
  - repeat constructor; eexists; reflexivity.
  - reflexivity.
Defined.

(** ** Reading a part for upload *)

Lemma splitOn_nonempty (sep : ascii) (s : string) : Reader.splitOn sep s <> [].
Proof.
  destruct s as [|c s]; cbn; [discriminate |].
  destruct (Ascii.eqb c sep); [discriminate |].
  destruct (Reader.splitOn sep s); discriminate.
Qed.

Lemma splitOn_skip (sep : ascii) (m t : string) :
  forallb (fun c => negb (Ascii.eqb c sep)) (list_ascii_of_string m) = true ->
  Reader.splitOn sep (m ++ t)%string !! 1%nat = Reader.splitOn sep t !! 1%nat.
Proof.
  induction m as [|c m IH]; intros Hm; [reflexivity |].
  cbn [list_ascii_of_string forallb] in Hm.
  apply andb_prop in Hm. destruct Hm as [Hc Hm].
  change (String c m ++ t)%string with (String c (m ++ t)%string).
  cbn [Reader.splitOn].
  apply negb_true_iff in Hc. rewrite Hc, <- (IH Hm).
  pose proof (splitOn_nonempty sep (m ++ t)%string) as Hne.
  destruct (Reader.splitOn sep (m ++ t)%string); [contradiction | reflexivity].
Qed.

Lemma splitOn_whole (sep : ascii) (p : string) :
  forallb (fun c => negb (Ascii.eqb c sep)) (list_ascii_of_string p) = true ->
  Reader.splitOn sep p = [p].
Proof.
  induction p as [|c p IH]; intros Hp; [reflexivity |].
  cbn [list_ascii_of_string forallb] in Hp.
  apply andb_prop in Hp. destruct Hp as [Hc Hp].
  cbn [Reader.splitOn]. apply negb_true_iff in Hc.
  now rewrite Hc, (IH Hp).
Qed.

Lemma encodeAudio_no_comma (bytes : list byte) :
  forallb (fun c => negb (Ascii.eqb c ","%char))
          (list_ascii_of_string (Codec.encodeAudio bytes)) = true.
Proof.
  apply forallb_forall. intros c Hc.
  pose proof (encodeAudio_symbols bytes) as Hsym.
  rewrite List.Forall_forall in Hsym. specialize (Hsym c Hc).
  apply negb_true_iff, Ascii.eqb_neq. intros ->.
  destruct Hsym as [[n Hn] | Hpad]; discriminate.
Qed.

(** X15. For a blob whose media type has no comma, [blobToBase64] resolves
    with the base64 text of the blob's bytes: the text has 4 characters for
    every 3 bytes, rounded up, and [decodeAudio] turns it back into the
    bytes.  A reader result without a comma resolves with [undefined]. *)
Theorem blobToBase64_payload (mediaType result : string) (content : list byte) :
  forallb (fun c => negb (Ascii.eqb c ","%char))
          (list_ascii_of_string mediaType) = true ->
  forallb (fun c => negb (Ascii.eqb c ","%char))
          (list_ascii_of_string result) = true ->
  (exists payload : string,
     Reader.blobToBase64
       (Reader.Loaded (Reader.readAsDataURL mediaType content))
     = Dispatcher.Return (Some payload)
     /\ String.length payload = (4 * ((length content + 2) / 3))%nat
     /\ Codec.decodeAudio payload = Some content)
  /\ Reader.blobToBase64 (Reader.Loaded result) = Dispatcher.Return None.
Proof.
  intros Htype Hresult. split.
  - exists (Codec.encodeAudio content).
    split; [| split; [apply encodeAudio_length | apply codec_round_trip]].
    unfold Reader.blobToBase64, Reader.readAsDataURL. f_equal.
    rewrite (splitOn_skip _ "data:"%string) by reflexivity.
    rewrite (splitOn_skip _ mediaType) by exact Htype.
    change (";base64," ++ ?p)%string
      with (";base64" ++ String ","%char p)%string.
    rewrite (splitOn_skip _ ";base64"%string) by reflexivity.
    cbn [Reader.splitOn Ascii.eqb Bool.eqb].
    change (Base64.btoa (string_of_list_ascii (map ascii_of_byte content)))
      with (Codec.encodeAudio content).
    now rewrite (splitOn_whole _ _ (encodeAudio_no_comma content)).
  - unfold Reader.blobToBase64. now rewrite (splitOn_whole _ _ Hresult).
Qed.

Lemma blobToBase64_payload_witness :
  (exists payload : string,
     Reader.blobToBase64
       (Reader.Loaded
          (Reader.readAsDataURL "audio/wav"%string
             ["R"%byte; "I"%byte; "F"%byte; "F"%byte]))
     = Dispatcher.Return (Some payload)
     /\ String.length payload = (4 * ((4 + 2) / 3))%nat
     /\ Codec.decodeAudio payload = Some ["R"%byte; "I"%byte; "F"%byte; "F"%byte])
  /\ Reader.blobToBase64 (Reader.Loaded "data:"%string) = Dispatcher.Return None.
Proof.
  apply (blobToBase64_payload "audio/wav"%string "data:"%string
           ["R"%byte; "I"%byte; "F"%byte; "F"%byte]); reflexivity.
Defined.
